(** * envtui: the .env document core

    A shallow embedding of the Go packages [internal/model],
    [internal/parser] (the line-based production parser) and
    [internal/storage], and the properties of the specification that were
    checked against them.

    Conventions of the embedding:
    - a Go [string] is a sequence of bytes: [list ascii];
    - a Go [int] is a [Z] (no computation here comes near 2^63);
    - a Go [rune] is a [Z] (a Unicode code point);
    - a [*Entry] is a location [loc] of a store of entries, so that in-place
      mutation through a shared pointer is visible to every holder;
    - a run-time panic (index or slice out of range) is the outcome [Panic]. *)

From Stdlib Require Import String Ascii ZArith List Bool Lia PeanoNat
  DecimalString Sorted.
Import ListNotations.
Local Open Scope Z_scope.

(** ** Go basics *)

Definition gostring := list ascii.

(** String literals of the source are written [(str "...")]. *)
Definition str (s : string) : gostring := list_ascii_of_string s.

Definition loc := nat.

Inductive outcome (A : Type) : Type :=
| Done (a : A)
| Panic.
Arguments Done {A} a.
Arguments Panic {A}.

(** [len(s)] of a slice or string, as a Go [int]. *)
Definition len {A : Type} (l : list A) : Z := Z.of_nat (length l).

(** Package fmt: the verbs of [Sprintf] that the code uses. *)
Module fmt.

(** [%d] of an [int]: its decimal digits, after a minus sign if it is
    negative. *)
Definition d (n : Z) : gostring :=
  list_ascii_of_string (NilZero.string_of_int (Z.to_int n)).

End fmt.

(** ** Go standard library: package unicode/utf8

    A port of the decoder and encoder of Go's [unicode/utf8]. *)

Module utf8.

Definition RuneError : Z := 0xFFFD.
Definition RuneSelf : Z := 0x80.
Definition MaxRune : Z := 0x10FFFF.

(** The value of a byte, and the byte of a value ([byte(x)] truncates). *)
Definition byteZ (c : ascii) : Z := Z.of_N (N_of_ascii c).
Definition byte (z : Z) : ascii := ascii_of_N (Z.to_N (z mod 256)).

(** The table [first]: for a leading byte of a multi-byte sequence, the
    length of the sequence and the range accepted for its second byte;
    [None] for the bytes that start no sequence. *)
Definition first (s0 : Z) : option (nat * Z * Z) :=
  if s0 <? 0xC2 then None
  else if s0 <=? 0xDF then Some (2%nat, 0x80, 0xBF)
  else if s0 =? 0xE0 then Some (3%nat, 0xA0, 0xBF)
  else if s0 <=? 0xEC then Some (3%nat, 0x80, 0xBF)
  else if s0 =? 0xED then Some (3%nat, 0x80, 0x9F)
  else if s0 <=? 0xEF then Some (3%nat, 0x80, 0xBF)
  else if s0 =? 0xF0 then Some (4%nat, 0x90, 0xBF)
  else if s0 <=? 0xF3 then Some (4%nat, 0x80, 0xBF)
  else if s0 =? 0xF4 then Some (4%nat, 0x80, 0x8F)
  else None.

Definition mask2 : Z := 0x1F.
Definition mask3 : Z := 0x0F.
Definition mask4 : Z := 0x07.
Definition maskx : Z := 0x3F.
Definition locb : Z := 0x80.
Definition hicb : Z := 0xBF.

(** [DecodeRuneInString]: the first rune of [s] and its width in bytes;
    [(RuneError, 1)] for an invalid or truncated sequence. *)
Definition DecodeRuneInString (s : gostring) : Z * nat :=
  match s with
  | [] => (RuneError, 0%nat)
  | c0 :: t0 =>
    let s0 := byteZ c0 in
    if s0 <? RuneSelf then (s0, 1%nat) else
    match first s0 with
    | None => (RuneError, 1%nat)
    | Some (sz, lo, hi) =>
      if (length s <? sz)%nat then (RuneError, 1%nat) else
      match t0 with
      | [] => (RuneError, 1%nat)
      | c1 :: t1 =>
        let s1 := byteZ c1 in
        if (s1 <? lo) || (hi <? s1) then (RuneError, 1%nat) else
        if (sz <=? 2)%nat then
          (Z.lor (Z.shiftl (Z.land s0 mask2) 6) (Z.land s1 maskx), 2%nat)
        else
        match t1 with
        | [] => (RuneError, 1%nat)
        | c2 :: t2 =>
          let s2 := byteZ c2 in
          if (s2 <? locb) || (hicb <? s2) then (RuneError, 1%nat) else
          if (sz <=? 3)%nat then
            (Z.lor (Z.lor (Z.shiftl (Z.land s0 mask3) 12)
                          (Z.shiftl (Z.land s1 maskx) 6))
                   (Z.land s2 maskx), 3%nat)
          else
          match t2 with
          | [] => (RuneError, 1%nat)
          | c3 :: _ =>
            let s3 := byteZ c3 in
            if (s3 <? locb) || (hicb <? s3) then (RuneError, 1%nat) else
            (Z.lor (Z.lor (Z.lor (Z.shiftl (Z.land s0 mask4) 18)
                                 (Z.shiftl (Z.land s1 maskx) 12))
                          (Z.shiftl (Z.land s2 maskx) 6))
                   (Z.land s3 maskx), 4%nat)
          end
        end
      end
    end
  end.

(** [AppendRune] to the empty string: the UTF-8 encoding of [r]; runes out
    of range and surrogates are encoded as [RuneError]. *)
Definition EncodeRune (r : Z) : gostring :=
  if (0 <=? r) && (r <=? 0x7F) then [byte r]
  else if (0 <=? r) && (r <=? 0x7FF) then
    [byte (Z.lor 0xC0 (Z.shiftr r 6));
     byte (Z.lor 0x80 (Z.land r maskx))]
  else
    let r := if (r <? 0) || (MaxRune <? r) || ((0xD800 <=? r) && (r <=? 0xDFFF))
             then RuneError else r in
    if r <=? 0xFFFF then
      [byte (Z.lor 0xE0 (Z.shiftr r 12));
       byte (Z.lor 0x80 (Z.land (Z.shiftr r 6) maskx));
       byte (Z.lor 0x80 (Z.land r maskx))]
    else
      [byte (Z.lor 0xF0 (Z.shiftr r 18));
       byte (Z.lor 0x80 (Z.land (Z.shiftr r 12) maskx));
       byte (Z.lor 0x80 (Z.land (Z.shiftr r 6) maskx));
       byte (Z.lor 0x80 (Z.land r maskx))].

(** [for i, ch := range s]: the runes of [s] with the byte index each
    starts at.  Every step consumes at least one byte, so [length s] steps
    are enough. *)
Fixpoint rangeFrom (steps : nat) (i : Z) (s : gostring) : list (Z * Z) :=
  match steps, s with
  | S steps', _ :: _ =>
    let (ch, size) := DecodeRuneInString s in
    (i, ch) :: rangeFrom steps' (i + Z.of_nat size) (skipn size s)
  | _, _ => []
  end.

Definition range (s : gostring) : list (Z * Z) := rangeFrom (length s) 0 s.

End utf8.

(** ** Go standard library: package unicode

    The range tables are those of Unicode 14.0.0. *)

Module unicode.

(** [unicode.White_Space]: the code points with the White_Space property. *)
Definition White_Space : list (Z * Z) :=
  [(0x9, 0xD); (0x20, 0x20); (0x85, 0x85); (0xA0, 0xA0); (0x1680, 0x1680);
   (0x2000, 0x200A); (0x2028, 0x2029); (0x202F, 0x202F); (0x205F, 0x205F);
   (0x3000, 0x3000)].

(** [unicode.Nd] ([unicode.Digit]): the decimal digits, as inclusive ranges. *)
Definition Nd : list (Z * Z) :=
  [(0x30, 0x39); (0x660, 0x669); (0x6F0, 0x6F9); (0x7C0, 0x7C9);
   (0x966, 0x96F); (0x9E6, 0x9EF); (0xA66, 0xA6F); (0xAE6, 0xAEF);
   (0xB66, 0xB6F); (0xBE6, 0xBEF); (0xC66, 0xC6F); (0xCE6, 0xCEF);
   (0xD66, 0xD6F); (0xDE6, 0xDEF); (0xE50, 0xE59); (0xED0, 0xED9);
   (0xF20, 0xF29); (0x1040, 0x1049); (0x1090, 0x1099); (0x17E0, 0x17E9);
   (0x1810, 0x1819); (0x1946, 0x194F); (0x19D0, 0x19D9); (0x1A80, 0x1A89);
   (0x1A90, 0x1A99); (0x1B50, 0x1B59); (0x1BB0, 0x1BB9); (0x1C40, 0x1C49);
   (0x1C50, 0x1C59); (0xA620, 0xA629); (0xA8D0, 0xA8D9); (0xA900, 0xA909);
   (0xA9D0, 0xA9D9); (0xA9F0, 0xA9F9); (0xAA50, 0xAA59); (0xABF0, 0xABF9);
   (0xFF10, 0xFF19); (0x104A0, 0x104A9); (0x10D30, 0x10D39);
   (0x11066, 0x1106F); (0x110F0, 0x110F9); (0x11136, 0x1113F);
   (0x111D0, 0x111D9); (0x112F0, 0x112F9); (0x11450, 0x11459);
   (0x114D0, 0x114D9); (0x11650, 0x11659); (0x116C0, 0x116C9);
   (0x11730, 0x11739); (0x118E0, 0x118E9); (0x11950, 0x11959);
   (0x11C50, 0x11C59); (0x11D50, 0x11D59); (0x11DA0, 0x11DA9);
   (0x16A60, 0x16A69); (0x16AC0, 0x16AC9); (0x16B50, 0x16B59);
   (0x1D7CE, 0x1D7FF); (0x1E140, 0x1E149); (0x1E2F0, 0x1E2F9);
   (0x1E950, 0x1E959); (0x1FBF0, 0x1FBF9)].

(** [unicode.L] ([unicode.Letter]): the letters, as inclusive ranges. *)
Definition L : list (Z * Z) :=
  [(0x41, 0x5A); (0x61, 0x7A); (0xAA, 0xAA); (0xB5, 0xB5); (0xBA, 0xBA);
   (0xC0, 0xD6); (0xD8, 0xF6); (0xF8, 0x2C1); (0x2C6, 0x2D1); (0x2E0, 0x2E4);
   (0x2EC, 0x2EC); (0x2EE, 0x2EE); (0x370, 0x374); (0x376, 0x377);
   (0x37A, 0x37D); (0x37F, 0x37F); (0x386, 0x386); (0x388, 0x38A);
   (0x38C, 0x38C); (0x38E, 0x3A1); (0x3A3, 0x3F5); (0x3F7, 0x481);
   (0x48A, 0x52F); (0x531, 0x556); (0x559, 0x559); (0x560, 0x588);
   (0x5D0, 0x5EA); (0x5EF, 0x5F2); (0x620, 0x64A); (0x66E, 0x66F);
   (0x671, 0x6D3); (0x6D5, 0x6D5); (0x6E5, 0x6E6); (0x6EE, 0x6EF);
   (0x6FA, 0x6FC); (0x6FF, 0x6FF); (0x710, 0x710); (0x712, 0x72F);
   (0x74D, 0x7A5); (0x7B1, 0x7B1); (0x7CA, 0x7EA); (0x7F4, 0x7F5);
   (0x7FA, 0x7FA); (0x800, 0x815); (0x81A, 0x81A); (0x824, 0x824);
   (0x828, 0x828); (0x840, 0x858); (0x860, 0x86A); (0x870, 0x887);
   (0x889, 0x88E); (0x8A0, 0x8C9); (0x904, 0x939); (0x93D, 0x93D);
   (0x950, 0x950); (0x958, 0x961); (0x971, 0x980); (0x985, 0x98C);
   (0x98F, 0x990); (0x993, 0x9A8); (0x9AA, 0x9B0); (0x9B2, 0x9B2);
   (0x9B6, 0x9B9); (0x9BD, 0x9BD); (0x9CE, 0x9CE); (0x9DC, 0x9DD);
   (0x9DF, 0x9E1); (0x9F0, 0x9F1); (0x9FC, 0x9FC); (0xA05, 0xA0A);
   (0xA0F, 0xA10); (0xA13, 0xA28); (0xA2A, 0xA30); (0xA32, 0xA33);
   (0xA35, 0xA36); (0xA38, 0xA39); (0xA59, 0xA5C); (0xA5E, 0xA5E);
   (0xA72, 0xA74); (0xA85, 0xA8D); (0xA8F, 0xA91); (0xA93, 0xAA8);
   (0xAAA, 0xAB0); (0xAB2, 0xAB3); (0xAB5, 0xAB9); (0xABD, 0xABD);
   (0xAD0, 0xAD0); (0xAE0, 0xAE1); (0xAF9, 0xAF9); (0xB05, 0xB0C);
   (0xB0F, 0xB10); (0xB13, 0xB28); (0xB2A, 0xB30); (0xB32, 0xB33);
   (0xB35, 0xB39); (0xB3D, 0xB3D); (0xB5C, 0xB5D); (0xB5F, 0xB61);
   (0xB71, 0xB71); (0xB83, 0xB83); (0xB85, 0xB8A); (0xB8E, 0xB90);
   (0xB92, 0xB95); (0xB99, 0xB9A); (0xB9C, 0xB9C); (0xB9E, 0xB9F);
   (0xBA3, 0xBA4); (0xBA8, 0xBAA); (0xBAE, 0xBB9); (0xBD0, 0xBD0);
   (0xC05, 0xC0C); (0xC0E, 0xC10); (0xC12, 0xC28); (0xC2A, 0xC39);
   (0xC3D, 0xC3D); (0xC58, 0xC5A); (0xC5D, 0xC5D); (0xC60, 0xC61);
   (0xC80, 0xC80); (0xC85, 0xC8C); (0xC8E, 0xC90); (0xC92, 0xCA8);
   (0xCAA, 0xCB3); (0xCB5, 0xCB9); (0xCBD, 0xCBD); (0xCDD, 0xCDE);
   (0xCE0, 0xCE1); (0xCF1, 0xCF2); (0xD04, 0xD0C); (0xD0E, 0xD10);
   (0xD12, 0xD3A); (0xD3D, 0xD3D); (0xD4E, 0xD4E); (0xD54, 0xD56);
   (0xD5F, 0xD61); (0xD7A, 0xD7F); (0xD85, 0xD96); (0xD9A, 0xDB1);
   (0xDB3, 0xDBB); (0xDBD, 0xDBD); (0xDC0, 0xDC6); (0xE01, 0xE30);
   (0xE32, 0xE33); (0xE40, 0xE46); (0xE81, 0xE82); (0xE84, 0xE84);
   (0xE86, 0xE8A); (0xE8C, 0xEA3); (0xEA5, 0xEA5); (0xEA7, 0xEB0);
   (0xEB2, 0xEB3); (0xEBD, 0xEBD); (0xEC0, 0xEC4); (0xEC6, 0xEC6);
   (0xEDC, 0xEDF); (0xF00, 0xF00); (0xF40, 0xF47); (0xF49, 0xF6C);
   (0xF88, 0xF8C); (0x1000, 0x102A); (0x103F, 0x103F); (0x1050, 0x1055);
   (0x105A, 0x105D); (0x1061, 0x1061); (0x1065, 0x1066); (0x106E, 0x1070);
   (0x1075, 0x1081); (0x108E, 0x108E); (0x10A0, 0x10C5); (0x10C7, 0x10C7);
   (0x10CD, 0x10CD); (0x10D0, 0x10FA); (0x10FC, 0x1248); (0x124A, 0x124D);
   (0x1250, 0x1256); (0x1258, 0x1258); (0x125A, 0x125D); (0x1260, 0x1288);
   (0x128A, 0x128D); (0x1290, 0x12B0); (0x12B2, 0x12B5); (0x12B8, 0x12BE);
   (0x12C0, 0x12C0); (0x12C2, 0x12C5); (0x12C8, 0x12D6); (0x12D8, 0x1310);
   (0x1312, 0x1315); (0x1318, 0x135A); (0x1380, 0x138F); (0x13A0, 0x13F5);
   (0x13F8, 0x13FD); (0x1401, 0x166C); (0x166F, 0x167F); (0x1681, 0x169A);
   (0x16A0, 0x16EA); (0x16F1, 0x16F8); (0x1700, 0x1711); (0x171F, 0x1731);
   (0x1740, 0x1751); (0x1760, 0x176C); (0x176E, 0x1770); (0x1780, 0x17B3);
   (0x17D7, 0x17D7); (0x17DC, 0x17DC); (0x1820, 0x1878); (0x1880, 0x1884);
   (0x1887, 0x18A8); (0x18AA, 0x18AA); (0x18B0, 0x18F5); (0x1900, 0x191E);
   (0x1950, 0x196D); (0x1970, 0x1974); (0x1980, 0x19AB); (0x19B0, 0x19C9);
   (0x1A00, 0x1A16); (0x1A20, 0x1A54); (0x1AA7, 0x1AA7); (0x1B05, 0x1B33);
   (0x1B45, 0x1B4C); (0x1B83, 0x1BA0); (0x1BAE, 0x1BAF); (0x1BBA, 0x1BE5);
   (0x1C00, 0x1C23); (0x1C4D, 0x1C4F); (0x1C5A, 0x1C7D); (0x1C80, 0x1C88);
   (0x1C90, 0x1CBA); (0x1CBD, 0x1CBF); (0x1CE9, 0x1CEC); (0x1CEE, 0x1CF3);
   (0x1CF5, 0x1CF6); (0x1CFA, 0x1CFA); (0x1D00, 0x1DBF); (0x1E00, 0x1F15);
   (0x1F18, 0x1F1D); (0x1F20, 0x1F45); (0x1F48, 0x1F4D); (0x1F50, 0x1F57);
   (0x1F59, 0x1F59); (0x1F5B, 0x1F5B); (0x1F5D, 0x1F5D); (0x1F5F, 0x1F7D);
   (0x1F80, 0x1FB4); (0x1FB6, 0x1FBC); (0x1FBE, 0x1FBE); (0x1FC2, 0x1FC4);
   (0x1FC6, 0x1FCC); (0x1FD0, 0x1FD3); (0x1FD6, 0x1FDB); (0x1FE0, 0x1FEC);
   (0x1FF2, 0x1FF4); (0x1FF6, 0x1FFC); (0x2071, 0x2071); (0x207F, 0x207F);
   (0x2090, 0x209C); (0x2102, 0x2102); (0x2107, 0x2107); (0x210A, 0x2113);
   (0x2115, 0x2115); (0x2119, 0x211D); (0x2124, 0x2124); (0x2126, 0x2126);
   (0x2128, 0x2128); (0x212A, 0x212D); (0x212F, 0x2139); (0x213C, 0x213F);
   (0x2145, 0x2149); (0x214E, 0x214E); (0x2183, 0x2184); (0x2C00, 0x2CE4);
   (0x2CEB, 0x2CEE); (0x2CF2, 0x2CF3); (0x2D00, 0x2D25); (0x2D27, 0x2D27);
   (0x2D2D, 0x2D2D); (0x2D30, 0x2D67); (0x2D6F, 0x2D6F); (0x2D80, 0x2D96);
   (0x2DA0, 0x2DA6); (0x2DA8, 0x2DAE); (0x2DB0, 0x2DB6); (0x2DB8, 0x2DBE);
   (0x2DC0, 0x2DC6); (0x2DC8, 0x2DCE); (0x2DD0, 0x2DD6); (0x2DD8, 0x2DDE);
   (0x2E2F, 0x2E2F); (0x3005, 0x3006); (0x3031, 0x3035); (0x303B, 0x303C);
   (0x3041, 0x3096); (0x309D, 0x309F); (0x30A1, 0x30FA); (0x30FC, 0x30FF);
   (0x3105, 0x312F); (0x3131, 0x318E); (0x31A0, 0x31BF); (0x31F0, 0x31FF);
   (0x3400, 0x4DBF); (0x4E00, 0xA48C); (0xA4D0, 0xA4FD); (0xA500, 0xA60C);
   (0xA610, 0xA61F); (0xA62A, 0xA62B); (0xA640, 0xA66E); (0xA67F, 0xA69D);
   (0xA6A0, 0xA6E5); (0xA717, 0xA71F); (0xA722, 0xA788); (0xA78B, 0xA7CA);
   (0xA7D0, 0xA7D1); (0xA7D3, 0xA7D3); (0xA7D5, 0xA7D9); (0xA7F2, 0xA801);
   (0xA803, 0xA805); (0xA807, 0xA80A); (0xA80C, 0xA822); (0xA840, 0xA873);
   (0xA882, 0xA8B3); (0xA8F2, 0xA8F7); (0xA8FB, 0xA8FB); (0xA8FD, 0xA8FE);
   (0xA90A, 0xA925); (0xA930, 0xA946); (0xA960, 0xA97C); (0xA984, 0xA9B2);
   (0xA9CF, 0xA9CF); (0xA9E0, 0xA9E4); (0xA9E6, 0xA9EF); (0xA9FA, 0xA9FE);
   (0xAA00, 0xAA28); (0xAA40, 0xAA42); (0xAA44, 0xAA4B); (0xAA60, 0xAA76);
   (0xAA7A, 0xAA7A); (0xAA7E, 0xAAAF); (0xAAB1, 0xAAB1); (0xAAB5, 0xAAB6);
   (0xAAB9, 0xAABD); (0xAAC0, 0xAAC0); (0xAAC2, 0xAAC2); (0xAADB, 0xAADD);
   (0xAAE0, 0xAAEA); (0xAAF2, 0xAAF4); (0xAB01, 0xAB06); (0xAB09, 0xAB0E);
   (0xAB11, 0xAB16); (0xAB20, 0xAB26); (0xAB28, 0xAB2E); (0xAB30, 0xAB5A);
   (0xAB5C, 0xAB69); (0xAB70, 0xABE2); (0xAC00, 0xD7A3); (0xD7B0, 0xD7C6);
   (0xD7CB, 0xD7FB); (0xF900, 0xFA6D); (0xFA70, 0xFAD9); (0xFB00, 0xFB06);
   (0xFB13, 0xFB17); (0xFB1D, 0xFB1D); (0xFB1F, 0xFB28); (0xFB2A, 0xFB36);
   (0xFB38, 0xFB3C); (0xFB3E, 0xFB3E); (0xFB40, 0xFB41); (0xFB43, 0xFB44);
   (0xFB46, 0xFBB1); (0xFBD3, 0xFD3D); (0xFD50, 0xFD8F); (0xFD92, 0xFDC7);
   (0xFDF0, 0xFDFB); (0xFE70, 0xFE74); (0xFE76, 0xFEFC); (0xFF21, 0xFF3A);
   (0xFF41, 0xFF5A); (0xFF66, 0xFFBE); (0xFFC2, 0xFFC7); (0xFFCA, 0xFFCF);
   (0xFFD2, 0xFFD7); (0xFFDA, 0xFFDC); (0x10000, 0x1000B);
   (0x1000D, 0x10026); (0x10028, 0x1003A); (0x1003C, 0x1003D);
   (0x1003F, 0x1004D); (0x10050, 0x1005D); (0x10080, 0x100FA);
   (0x10280, 0x1029C); (0x102A0, 0x102D0); (0x10300, 0x1031F);
   (0x1032D, 0x10340); (0x10342, 0x10349); (0x10350, 0x10375);
   (0x10380, 0x1039D); (0x103A0, 0x103C3); (0x103C8, 0x103CF);
   (0x10400, 0x1049D); (0x104B0, 0x104D3); (0x104D8, 0x104FB);
   (0x10500, 0x10527); (0x10530, 0x10563); (0x10570, 0x1057A);
   (0x1057C, 0x1058A); (0x1058C, 0x10592); (0x10594, 0x10595);
   (0x10597, 0x105A1); (0x105A3, 0x105B1); (0x105B3, 0x105B9);
   (0x105BB, 0x105BC); (0x10600, 0x10736); (0x10740, 0x10755);
   (0x10760, 0x10767); (0x10780, 0x10785); (0x10787, 0x107B0);
   (0x107B2, 0x107BA); (0x10800, 0x10805); (0x10808, 0x10808);
   (0x1080A, 0x10835); (0x10837, 0x10838); (0x1083C, 0x1083C);
   (0x1083F, 0x10855); (0x10860, 0x10876); (0x10880, 0x1089E);
   (0x108E0, 0x108F2); (0x108F4, 0x108F5); (0x10900, 0x10915);
   (0x10920, 0x10939); (0x10980, 0x109B7); (0x109BE, 0x109BF);
   (0x10A00, 0x10A00); (0x10A10, 0x10A13); (0x10A15, 0x10A17);
   (0x10A19, 0x10A35); (0x10A60, 0x10A7C); (0x10A80, 0x10A9C);
   (0x10AC0, 0x10AC7); (0x10AC9, 0x10AE4); (0x10B00, 0x10B35);
   (0x10B40, 0x10B55); (0x10B60, 0x10B72); (0x10B80, 0x10B91);
   (0x10C00, 0x10C48); (0x10C80, 0x10CB2); (0x10CC0, 0x10CF2);
   (0x10D00, 0x10D23); (0x10E80, 0x10EA9); (0x10EB0, 0x10EB1);
   (0x10F00, 0x10F1C); (0x10F27, 0x10F27); (0x10F30, 0x10F45);
   (0x10F70, 0x10F81); (0x10FB0, 0x10FC4); (0x10FE0, 0x10FF6);
   (0x11003, 0x11037); (0x11071, 0x11072); (0x11075, 0x11075);
   (0x11083, 0x110AF); (0x110D0, 0x110E8); (0x11103, 0x11126);
   (0x11144, 0x11144); (0x11147, 0x11147); (0x11150, 0x11172);
   (0x11176, 0x11176); (0x11183, 0x111B2); (0x111C1, 0x111C4);
   (0x111DA, 0x111DA); (0x111DC, 0x111DC); (0x11200, 0x11211);
   (0x11213, 0x1122B); (0x11280, 0x11286); (0x11288, 0x11288);
   (0x1128A, 0x1128D); (0x1128F, 0x1129D); (0x1129F, 0x112A8);
   (0x112B0, 0x112DE); (0x11305, 0x1130C); (0x1130F, 0x11310);
   (0x11313, 0x11328); (0x1132A, 0x11330); (0x11332, 0x11333);
   (0x11335, 0x11339); (0x1133D, 0x1133D); (0x11350, 0x11350);
   (0x1135D, 0x11361); (0x11400, 0x11434); (0x11447, 0x1144A);
   (0x1145F, 0x11461); (0x11480, 0x114AF); (0x114C4, 0x114C5);
   (0x114C7, 0x114C7); (0x11580, 0x115AE); (0x115D8, 0x115DB);
   (0x11600, 0x1162F); (0x11644, 0x11644); (0x11680, 0x116AA);
   (0x116B8, 0x116B8); (0x11700, 0x1171A); (0x11740, 0x11746);
   (0x11800, 0x1182B); (0x118A0, 0x118DF); (0x118FF, 0x11906);
   (0x11909, 0x11909); (0x1190C, 0x11913); (0x11915, 0x11916);
   (0x11918, 0x1192F); (0x1193F, 0x1193F); (0x11941, 0x11941);
   (0x119A0, 0x119A7); (0x119AA, 0x119D0); (0x119E1, 0x119E1);
   (0x119E3, 0x119E3); (0x11A00, 0x11A00); (0x11A0B, 0x11A32);
   (0x11A3A, 0x11A3A); (0x11A50, 0x11A50); (0x11A5C, 0x11A89);
   (0x11A9D, 0x11A9D); (0x11AB0, 0x11AF8); (0x11C00, 0x11C08);
   (0x11C0A, 0x11C2E); (0x11C40, 0x11C40); (0x11C72, 0x11C8F);
   (0x11D00, 0x11D06); (0x11D08, 0x11D09); (0x11D0B, 0x11D30);
   (0x11D46, 0x11D46); (0x11D60, 0x11D65); (0x11D67, 0x11D68);
   (0x11D6A, 0x11D89); (0x11D98, 0x11D98); (0x11EE0, 0x11EF2);
   (0x11FB0, 0x11FB0); (0x12000, 0x12399); (0x12480, 0x12543);
   (0x12F90, 0x12FF0); (0x13000, 0x1342E); (0x14400, 0x14646);
   (0x16800, 0x16A38); (0x16A40, 0x16A5E); (0x16A70, 0x16ABE);
   (0x16AD0, 0x16AED); (0x16B00, 0x16B2F); (0x16B40, 0x16B43);
   (0x16B63, 0x16B77); (0x16B7D, 0x16B8F); (0x16E40, 0x16E7F);
   (0x16F00, 0x16F4A); (0x16F50, 0x16F50); (0x16F93, 0x16F9F);
   (0x16FE0, 0x16FE1); (0x16FE3, 0x16FE3); (0x17000, 0x187F7);
   (0x18800, 0x18CD5); (0x18D00, 0x18D08); (0x1AFF0, 0x1AFF3);
   (0x1AFF5, 0x1AFFB); (0x1AFFD, 0x1AFFE); (0x1B000, 0x1B122);
   (0x1B150, 0x1B152); (0x1B164, 0x1B167); (0x1B170, 0x1B2FB);
   (0x1BC00, 0x1BC6A); (0x1BC70, 0x1BC7C); (0x1BC80, 0x1BC88);
   (0x1BC90, 0x1BC99); (0x1D400, 0x1D454); (0x1D456, 0x1D49C);
   (0x1D49E, 0x1D49F); (0x1D4A2, 0x1D4A2); (0x1D4A5, 0x1D4A6);
   (0x1D4A9, 0x1D4AC); (0x1D4AE, 0x1D4B9); (0x1D4BB, 0x1D4BB);
   (0x1D4BD, 0x1D4C3); (0x1D4C5, 0x1D505); (0x1D507, 0x1D50A);
   (0x1D50D, 0x1D514); (0x1D516, 0x1D51C); (0x1D51E, 0x1D539);
   (0x1D53B, 0x1D53E); (0x1D540, 0x1D544); (0x1D546, 0x1D546);
   (0x1D54A, 0x1D550); (0x1D552, 0x1D6A5); (0x1D6A8, 0x1D6C0);
   (0x1D6C2, 0x1D6DA); (0x1D6DC, 0x1D6FA); (0x1D6FC, 0x1D714);
   (0x1D716, 0x1D734); (0x1D736, 0x1D74E); (0x1D750, 0x1D76E);
   (0x1D770, 0x1D788); (0x1D78A, 0x1D7A8); (0x1D7AA, 0x1D7C2);
   (0x1D7C4, 0x1D7CB); (0x1DF00, 0x1DF1E); (0x1E100, 0x1E12C);
   (0x1E137, 0x1E13D); (0x1E14E, 0x1E14E); (0x1E290, 0x1E2AD);
   (0x1E2C0, 0x1E2EB); (0x1E7E0, 0x1E7E6); (0x1E7E8, 0x1E7EB);
   (0x1E7ED, 0x1E7EE); (0x1E7F0, 0x1E7FE); (0x1E800, 0x1E8C4);
   (0x1E900, 0x1E943); (0x1E94B, 0x1E94B); (0x1EE00, 0x1EE03);
   (0x1EE05, 0x1EE1F); (0x1EE21, 0x1EE22); (0x1EE24, 0x1EE24);
   (0x1EE27, 0x1EE27); (0x1EE29, 0x1EE32); (0x1EE34, 0x1EE37);
   (0x1EE39, 0x1EE39); (0x1EE3B, 0x1EE3B); (0x1EE42, 0x1EE42);
   (0x1EE47, 0x1EE47); (0x1EE49, 0x1EE49); (0x1EE4B, 0x1EE4B);
   (0x1EE4D, 0x1EE4F); (0x1EE51, 0x1EE52); (0x1EE54, 0x1EE54);
   (0x1EE57, 0x1EE57); (0x1EE59, 0x1EE59); (0x1EE5B, 0x1EE5B);
   (0x1EE5D, 0x1EE5D); (0x1EE5F, 0x1EE5F); (0x1EE61, 0x1EE62);
   (0x1EE64, 0x1EE64); (0x1EE67, 0x1EE6A); (0x1EE6C, 0x1EE72);
   (0x1EE74, 0x1EE77); (0x1EE79, 0x1EE7C); (0x1EE7E, 0x1EE7E);
   (0x1EE80, 0x1EE89); (0x1EE8B, 0x1EE9B); (0x1EEA1, 0x1EEA3);
   (0x1EEA5, 0x1EEA9); (0x1EEAB, 0x1EEBB); (0x20000, 0x2A6DF);
   (0x2A700, 0x2B738); (0x2B740, 0x2B81D); (0x2B820, 0x2CEA1);
   (0x2CEB0, 0x2EBE0); (0x2F800, 0x2FA1D); (0x30000, 0x3134A)].

(** Simple upper-case mappings, as [(lo, hi, stride, delta)]: every
    [stride]-th code point from [lo] to [hi] maps to itself plus [delta]. *)
Definition upperRanges : list (Z * Z * Z * Z) :=
  [(0x61, 0x7A, 1, (-32)); (0xB5, 0xB5, 1, 743); (0xE0, 0xF6, 1, (-32));
   (0xF8, 0xFE, 1, (-32)); (0xFF, 0xFF, 1, 121); (0x101, 0x12F, 2, (-1));
   (0x131, 0x131, 1, (-232)); (0x133, 0x137, 2, (-1));
   (0x13A, 0x148, 2, (-1)); (0x14B, 0x177, 2, (-1)); (0x17A, 0x17E, 2, (-1));
   (0x17F, 0x17F, 1, (-300)); (0x180, 0x180, 1, 195);
   (0x183, 0x185, 2, (-1)); (0x188, 0x188, 1, (-1)); (0x18C, 0x18C, 1, (-1));
   (0x192, 0x192, 1, (-1)); (0x195, 0x195, 1, 97); (0x199, 0x199, 1, (-1));
   (0x19A, 0x19A, 1, 163); (0x19E, 0x19E, 1, 130); (0x1A1, 0x1A5, 2, (-1));
   (0x1A8, 0x1A8, 1, (-1)); (0x1AD, 0x1AD, 1, (-1)); (0x1B0, 0x1B0, 1, (-1));
   (0x1B4, 0x1B6, 2, (-1)); (0x1B9, 0x1B9, 1, (-1)); (0x1BD, 0x1BD, 1, (-1));
   (0x1BF, 0x1BF, 1, 56); (0x1C5, 0x1C5, 1, (-1)); (0x1C6, 0x1C6, 1, (-2));
   (0x1C8, 0x1C8, 1, (-1)); (0x1C9, 0x1C9, 1, (-2)); (0x1CB, 0x1CB, 1, (-1));
   (0x1CC, 0x1CC, 1, (-2)); (0x1CE, 0x1DC, 2, (-1));
   (0x1DD, 0x1DD, 1, (-79)); (0x1DF, 0x1EF, 2, (-1));
   (0x1F2, 0x1F2, 1, (-1)); (0x1F3, 0x1F3, 1, (-2)); (0x1F5, 0x1F5, 1, (-1));
   (0x1F9, 0x21F, 2, (-1)); (0x223, 0x233, 2, (-1)); (0x23C, 0x23C, 1, (-1));
   (0x23F, 0x240, 1, 10815); (0x242, 0x242, 1, (-1));
   (0x247, 0x24F, 2, (-1)); (0x250, 0x250, 1, 10783);
   (0x251, 0x251, 1, 10780); (0x252, 0x252, 1, 10782);
   (0x253, 0x253, 1, (-210)); (0x254, 0x254, 1, (-206));
   (0x256, 0x257, 1, (-205)); (0x259, 0x259, 1, (-202));
   (0x25B, 0x25B, 1, (-203)); (0x25C, 0x25C, 1, 42319);
   (0x260, 0x260, 1, (-205)); (0x261, 0x261, 1, 42315);
   (0x263, 0x263, 1, (-207)); (0x265, 0x265, 1, 42280);
   (0x266, 0x266, 1, 42308); (0x268, 0x268, 1, (-209));
   (0x269, 0x269, 1, (-211)); (0x26A, 0x26A, 1, 42308);
   (0x26B, 0x26B, 1, 10743); (0x26C, 0x26C, 1, 42305);
   (0x26F, 0x26F, 1, (-211)); (0x271, 0x271, 1, 10749);
   (0x272, 0x272, 1, (-213)); (0x275, 0x275, 1, (-214));
   (0x27D, 0x27D, 1, 10727); (0x280, 0x280, 1, (-218));
   (0x282, 0x282, 1, 42307); (0x283, 0x283, 1, (-218));
   (0x287, 0x287, 1, 42282); (0x288, 0x288, 1, (-218));
   (0x289, 0x289, 1, (-69)); (0x28A, 0x28B, 1, (-217));
   (0x28C, 0x28C, 1, (-71)); (0x292, 0x292, 1, (-219));
   (0x29D, 0x29D, 1, 42261); (0x29E, 0x29E, 1, 42258); (0x345, 0x345, 1, 84);
   (0x371, 0x373, 2, (-1)); (0x377, 0x377, 1, (-1)); (0x37B, 0x37D, 1, 130);
   (0x3AC, 0x3AC, 1, (-38)); (0x3AD, 0x3AF, 1, (-37));
   (0x3B1, 0x3C1, 1, (-32)); (0x3C2, 0x3C2, 1, (-31));
   (0x3C3, 0x3CB, 1, (-32)); (0x3CC, 0x3CC, 1, (-64));
   (0x3CD, 0x3CE, 1, (-63)); (0x3D0, 0x3D0, 1, (-62));
   (0x3D1, 0x3D1, 1, (-57)); (0x3D5, 0x3D5, 1, (-47));
   (0x3D6, 0x3D6, 1, (-54)); (0x3D7, 0x3D7, 1, (-8));
   (0x3D9, 0x3EF, 2, (-1)); (0x3F0, 0x3F0, 1, (-86));
   (0x3F1, 0x3F1, 1, (-80)); (0x3F2, 0x3F2, 1, 7); (0x3F3, 0x3F3, 1, (-116));
   (0x3F5, 0x3F5, 1, (-96)); (0x3F8, 0x3F8, 1, (-1));
   (0x3FB, 0x3FB, 1, (-1)); (0x430, 0x44F, 1, (-32));
   (0x450, 0x45F, 1, (-80)); (0x461, 0x481, 2, (-1));
   (0x48B, 0x4BF, 2, (-1)); (0x4C2, 0x4CE, 2, (-1));
   (0x4CF, 0x4CF, 1, (-15)); (0x4D1, 0x52F, 2, (-1));
   (0x561, 0x586, 1, (-48)); (0x10D0, 0x10FA, 1, 3008);
   (0x10FD, 0x10FF, 1, 3008); (0x13F8, 0x13FD, 1, (-8));
   (0x1C80, 0x1C80, 1, (-6254)); (0x1C81, 0x1C81, 1, (-6253));
   (0x1C82, 0x1C82, 1, (-6244)); (0x1C83, 0x1C84, 1, (-6242));
   (0x1C85, 0x1C85, 1, (-6243)); (0x1C86, 0x1C86, 1, (-6236));
   (0x1C87, 0x1C87, 1, (-6181)); (0x1C88, 0x1C88, 1, 35266);
   (0x1D79, 0x1D79, 1, 35332); (0x1D7D, 0x1D7D, 1, 3814);
   (0x1D8E, 0x1D8E, 1, 35384); (0x1E01, 0x1E95, 2, (-1));
   (0x1E9B, 0x1E9B, 1, (-59)); (0x1EA1, 0x1EFF, 2, (-1));
   (0x1F00, 0x1F07, 1, 8); (0x1F10, 0x1F15, 1, 8); (0x1F20, 0x1F27, 1, 8);
   (0x1F30, 0x1F37, 1, 8); (0x1F40, 0x1F45, 1, 8); (0x1F51, 0x1F57, 2, 8);
   (0x1F60, 0x1F67, 1, 8); (0x1F70, 0x1F71, 1, 74); (0x1F72, 0x1F75, 1, 86);
   (0x1F76, 0x1F77, 1, 100); (0x1F78, 0x1F79, 1, 128);
   (0x1F7A, 0x1F7B, 1, 112); (0x1F7C, 0x1F7D, 1, 126);
   (0x1F80, 0x1F87, 1, 8); (0x1F90, 0x1F97, 1, 8); (0x1FA0, 0x1FA7, 1, 8);
   (0x1FB0, 0x1FB1, 1, 8); (0x1FB3, 0x1FB3, 1, 9);
   (0x1FBE, 0x1FBE, 1, (-7205)); (0x1FC3, 0x1FC3, 1, 9);
   (0x1FD0, 0x1FD1, 1, 8); (0x1FE0, 0x1FE1, 1, 8); (0x1FE5, 0x1FE5, 1, 7);
   (0x1FF3, 0x1FF3, 1, 9); (0x214E, 0x214E, 1, (-28));
   (0x2170, 0x217F, 1, (-16)); (0x2184, 0x2184, 1, (-1));
   (0x24D0, 0x24E9, 1, (-26)); (0x2C30, 0x2C5F, 1, (-48));
   (0x2C61, 0x2C61, 1, (-1)); (0x2C65, 0x2C65, 1, (-10795));
   (0x2C66, 0x2C66, 1, (-10792)); (0x2C68, 0x2C6C, 2, (-1));
   (0x2C73, 0x2C73, 1, (-1)); (0x2C76, 0x2C76, 1, (-1));
   (0x2C81, 0x2CE3, 2, (-1)); (0x2CEC, 0x2CEE, 2, (-1));
   (0x2CF3, 0x2CF3, 1, (-1)); (0x2D00, 0x2D25, 1, (-7264));
   (0x2D27, 0x2D27, 1, (-7264)); (0x2D2D, 0x2D2D, 1, (-7264));
   (0xA641, 0xA66D, 2, (-1)); (0xA681, 0xA69B, 2, (-1));
   (0xA723, 0xA72F, 2, (-1)); (0xA733, 0xA76F, 2, (-1));
   (0xA77A, 0xA77C, 2, (-1)); (0xA77F, 0xA787, 2, (-1));
   (0xA78C, 0xA78C, 1, (-1)); (0xA791, 0xA793, 2, (-1));
   (0xA794, 0xA794, 1, 48); (0xA797, 0xA7A9, 2, (-1));
   (0xA7B5, 0xA7C3, 2, (-1)); (0xA7C8, 0xA7CA, 2, (-1));
   (0xA7D1, 0xA7D1, 1, (-1)); (0xA7D7, 0xA7D9, 2, (-1));
   (0xA7F6, 0xA7F6, 1, (-1)); (0xAB53, 0xAB53, 1, (-928));
   (0xAB70, 0xABBF, 1, (-38864)); (0xFF41, 0xFF5A, 1, (-32));
   (0x10428, 0x1044F, 1, (-40)); (0x104D8, 0x104FB, 1, (-40));
   (0x10597, 0x105A1, 1, (-39)); (0x105A3, 0x105B1, 1, (-39));
   (0x105B3, 0x105B9, 1, (-39)); (0x105BB, 0x105BC, 1, (-39));
   (0x10CC0, 0x10CF2, 1, (-64)); (0x118C0, 0x118DF, 1, (-32));
   (0x16E60, 0x16E7F, 1, (-32)); (0x1E922, 0x1E943, 1, (-34))].

(** Simple lower-case mappings, in the same form. *)
Definition lowerRanges : list (Z * Z * Z * Z) :=
  [(0x41, 0x5A, 1, 32); (0xC0, 0xD6, 1, 32); (0xD8, 0xDE, 1, 32);
   (0x100, 0x12E, 2, 1); (0x130, 0x130, 1, (-199)); (0x132, 0x136, 2, 1);
   (0x139, 0x147, 2, 1); (0x14A, 0x176, 2, 1); (0x178, 0x178, 1, (-121));
   (0x179, 0x17D, 2, 1); (0x181, 0x181, 1, 210); (0x182, 0x184, 2, 1);
   (0x186, 0x186, 1, 206); (0x187, 0x187, 1, 1); (0x189, 0x18A, 1, 205);
   (0x18B, 0x18B, 1, 1); (0x18E, 0x18E, 1, 79); (0x18F, 0x18F, 1, 202);
   (0x190, 0x190, 1, 203); (0x191, 0x191, 1, 1); (0x193, 0x193, 1, 205);
   (0x194, 0x194, 1, 207); (0x196, 0x196, 1, 211); (0x197, 0x197, 1, 209);
   (0x198, 0x198, 1, 1); (0x19C, 0x19C, 1, 211); (0x19D, 0x19D, 1, 213);
   (0x19F, 0x19F, 1, 214); (0x1A0, 0x1A4, 2, 1); (0x1A6, 0x1A6, 1, 218);
   (0x1A7, 0x1A7, 1, 1); (0x1A9, 0x1A9, 1, 218); (0x1AC, 0x1AC, 1, 1);
   (0x1AE, 0x1AE, 1, 218); (0x1AF, 0x1AF, 1, 1); (0x1B1, 0x1B2, 1, 217);
   (0x1B3, 0x1B5, 2, 1); (0x1B7, 0x1B7, 1, 219); (0x1B8, 0x1B8, 1, 1);
   (0x1BC, 0x1BC, 1, 1); (0x1C4, 0x1C4, 1, 2); (0x1C5, 0x1C5, 1, 1);
   (0x1C7, 0x1C7, 1, 2); (0x1C8, 0x1C8, 1, 1); (0x1CA, 0x1CA, 1, 2);
   (0x1CB, 0x1DB, 2, 1); (0x1DE, 0x1EE, 2, 1); (0x1F1, 0x1F1, 1, 2);
   (0x1F2, 0x1F4, 2, 1); (0x1F6, 0x1F6, 1, (-97)); (0x1F7, 0x1F7, 1, (-56));
   (0x1F8, 0x21E, 2, 1); (0x220, 0x220, 1, (-130)); (0x222, 0x232, 2, 1);
   (0x23A, 0x23A, 1, 10795); (0x23B, 0x23B, 1, 1); (0x23D, 0x23D, 1, (-163));
   (0x23E, 0x23E, 1, 10792); (0x241, 0x241, 1, 1); (0x243, 0x243, 1, (-195));
   (0x244, 0x244, 1, 69); (0x245, 0x245, 1, 71); (0x246, 0x24E, 2, 1);
   (0x370, 0x372, 2, 1); (0x376, 0x376, 1, 1); (0x37F, 0x37F, 1, 116);
   (0x386, 0x386, 1, 38); (0x388, 0x38A, 1, 37); (0x38C, 0x38C, 1, 64);
   (0x38E, 0x38F, 1, 63); (0x391, 0x3A1, 1, 32); (0x3A3, 0x3AB, 1, 32);
   (0x3CF, 0x3CF, 1, 8); (0x3D8, 0x3EE, 2, 1); (0x3F4, 0x3F4, 1, (-60));
   (0x3F7, 0x3F7, 1, 1); (0x3F9, 0x3F9, 1, (-7)); (0x3FA, 0x3FA, 1, 1);
   (0x3FD, 0x3FF, 1, (-130)); (0x400, 0x40F, 1, 80); (0x410, 0x42F, 1, 32);
   (0x460, 0x480, 2, 1); (0x48A, 0x4BE, 2, 1); (0x4C0, 0x4C0, 1, 15);
   (0x4C1, 0x4CD, 2, 1); (0x4D0, 0x52E, 2, 1); (0x531, 0x556, 1, 48);
   (0x10A0, 0x10C5, 1, 7264); (0x10C7, 0x10C7, 1, 7264);
   (0x10CD, 0x10CD, 1, 7264); (0x13A0, 0x13EF, 1, 38864);
   (0x13F0, 0x13F5, 1, 8); (0x1C90, 0x1CBA, 1, (-3008));
   (0x1CBD, 0x1CBF, 1, (-3008)); (0x1E00, 0x1E94, 2, 1);
   (0x1E9E, 0x1E9E, 1, (-7615)); (0x1EA0, 0x1EFE, 2, 1);
   (0x1F08, 0x1F0F, 1, (-8)); (0x1F18, 0x1F1D, 1, (-8));
   (0x1F28, 0x1F2F, 1, (-8)); (0x1F38, 0x1F3F, 1, (-8));
   (0x1F48, 0x1F4D, 1, (-8)); (0x1F59, 0x1F5F, 2, (-8));
   (0x1F68, 0x1F6F, 1, (-8)); (0x1F88, 0x1F8F, 1, (-8));
   (0x1F98, 0x1F9F, 1, (-8)); (0x1FA8, 0x1FAF, 1, (-8));
   (0x1FB8, 0x1FB9, 1, (-8)); (0x1FBA, 0x1FBB, 1, (-74));
   (0x1FBC, 0x1FBC, 1, (-9)); (0x1FC8, 0x1FCB, 1, (-86));
   (0x1FCC, 0x1FCC, 1, (-9)); (0x1FD8, 0x1FD9, 1, (-8));
   (0x1FDA, 0x1FDB, 1, (-100)); (0x1FE8, 0x1FE9, 1, (-8));
   (0x1FEA, 0x1FEB, 1, (-112)); (0x1FEC, 0x1FEC, 1, (-7));
   (0x1FF8, 0x1FF9, 1, (-128)); (0x1FFA, 0x1FFB, 1, (-126));
   (0x1FFC, 0x1FFC, 1, (-9)); (0x2126, 0x2126, 1, (-7517));
   (0x212A, 0x212A, 1, (-8383)); (0x212B, 0x212B, 1, (-8262));
   (0x2132, 0x2132, 1, 28); (0x2160, 0x216F, 1, 16); (0x2183, 0x2183, 1, 1);
   (0x24B6, 0x24CF, 1, 26); (0x2C00, 0x2C2F, 1, 48); (0x2C60, 0x2C60, 1, 1);
   (0x2C62, 0x2C62, 1, (-10743)); (0x2C63, 0x2C63, 1, (-3814));
   (0x2C64, 0x2C64, 1, (-10727)); (0x2C67, 0x2C6B, 2, 1);
   (0x2C6D, 0x2C6D, 1, (-10780)); (0x2C6E, 0x2C6E, 1, (-10749));
   (0x2C6F, 0x2C6F, 1, (-10783)); (0x2C70, 0x2C70, 1, (-10782));
   (0x2C72, 0x2C72, 1, 1); (0x2C75, 0x2C75, 1, 1);
   (0x2C7E, 0x2C7F, 1, (-10815)); (0x2C80, 0x2CE2, 2, 1);
   (0x2CEB, 0x2CED, 2, 1); (0x2CF2, 0x2CF2, 1, 1); (0xA640, 0xA66C, 2, 1);
   (0xA680, 0xA69A, 2, 1); (0xA722, 0xA72E, 2, 1); (0xA732, 0xA76E, 2, 1);
   (0xA779, 0xA77B, 2, 1); (0xA77D, 0xA77D, 1, (-35332));
   (0xA77E, 0xA786, 2, 1); (0xA78B, 0xA78B, 1, 1);
   (0xA78D, 0xA78D, 1, (-42280)); (0xA790, 0xA792, 2, 1);
   (0xA796, 0xA7A8, 2, 1); (0xA7AA, 0xA7AA, 1, (-42308));
   (0xA7AB, 0xA7AB, 1, (-42319)); (0xA7AC, 0xA7AC, 1, (-42315));
   (0xA7AD, 0xA7AD, 1, (-42305)); (0xA7AE, 0xA7AE, 1, (-42308));
   (0xA7B0, 0xA7B0, 1, (-42258)); (0xA7B1, 0xA7B1, 1, (-42282));
   (0xA7B2, 0xA7B2, 1, (-42261)); (0xA7B3, 0xA7B3, 1, 928);
   (0xA7B4, 0xA7C2, 2, 1); (0xA7C4, 0xA7C4, 1, (-48));
   (0xA7C5, 0xA7C5, 1, (-42307)); (0xA7C6, 0xA7C6, 1, (-35384));
   (0xA7C7, 0xA7C9, 2, 1); (0xA7D0, 0xA7D0, 1, 1); (0xA7D6, 0xA7D8, 2, 1);
   (0xA7F5, 0xA7F5, 1, 1); (0xFF21, 0xFF3A, 1, 32);
   (0x10400, 0x10427, 1, 40); (0x104B0, 0x104D3, 1, 40);
   (0x10570, 0x1057A, 1, 39); (0x1057C, 0x1058A, 1, 39);
   (0x1058C, 0x10592, 1, 39); (0x10594, 0x10595, 1, 39);
   (0x10C80, 0x10CB2, 1, 64); (0x118A0, 0x118BF, 1, 32);
   (0x16E40, 0x16E5F, 1, 32); (0x1E900, 0x1E921, 1, 34)].

(** Membership in a range table. *)
Definition Is (table : list (Z * Z)) (r : Z) : bool :=
  existsb (fun '(lo, hi) => (lo <=? r) && (r <=? hi)) table.

Definition IsLetter (r : Z) : bool := Is L r.
Definition IsDigit (r : Z) : bool := Is Nd r.
Definition IsSpace (r : Z) : bool := Is White_Space r.

(** Case mapping through a table of [(lo, hi, stride, delta)]. *)
Fixpoint To (ranges : list (Z * Z * Z * Z)) (r : Z) : Z :=
  match ranges with
  | [] => r
  | (lo, hi, stride, delta) :: rest =>
    if (lo <=? r) && (r <=? hi) && ((r - lo) mod stride =? 0)
    then r + delta
    else To rest r
  end.

Definition ToUpper (r : Z) : Z := To upperRanges r.
Definition ToLower (r : Z) : Z := To lowerRanges r.

End unicode.
(** ** Go standard library: package strings *)

Module strings.

(** [a == b] on strings. *)
Fixpoint eqb (a b : gostring) : bool :=
  match a, b with
  | [], [] => true
  | x :: a', y :: b' => Ascii.eqb x y && eqb a' b'
  | _, _ => false
  end.

Fixpoint HasPrefix (s prefix : gostring) : bool :=
  match prefix, s with
  | [], _ => true
  | p :: prefix', c :: s' => Ascii.eqb c p && HasPrefix s' prefix'
  | _ :: _, [] => false
  end.

Definition TrimPrefix (s prefix : gostring) : gostring :=
  if HasPrefix s prefix then skipn (length prefix) s else s.

(** [Index]: the byte index of the first occurrence of [substr], or -1. *)
Fixpoint Index (s substr : gostring) : Z :=
  if HasPrefix s substr then 0
  else match s with
       | [] => -1
       | _ :: s' => let i := Index s' substr in
                    if i =? -1 then -1 else i + 1
       end.

Definition Contains (s substr : gostring) : bool := 0 <=? Index s substr.

(** [Split(s, sep)] for a separator of one byte. *)
Fixpoint Split (s : gostring) (sep : ascii) : list gostring :=
  match s with
  | [] => [[]]
  | c :: s' =>
    if Ascii.eqb c sep then [] :: Split s' sep
    else match Split s' sep with
         | piece :: pieces => (c :: piece) :: pieces
         | [] => [[c]]
         end
  end.

(** The code points of a range table, one by one. *)
Definition points (table : list (Z * Z)) : list Z :=
  flat_map (fun '(lo, hi) =>
              map (fun k => lo + Z.of_nat k) (seq 0 (Z.to_nat (hi - lo + 1))))
           table.

(** The UTF-8 encodings of the white space code points. *)
Definition spaceEncodings : list gostring :=
  map utf8.EncodeRune (points unicode.White_Space).

(** Remove one of [encs] from the front of [s], if one is there. *)
Fixpoint stripOne (encs : list gostring) (s : gostring) : option gostring :=
  match encs with
  | [] => None
  | enc :: encs' =>
    if HasPrefix s enc then Some (skipn (length enc) s) else stripOne encs' s
  end.

Fixpoint stripAll (steps : nat) (encs : list gostring) (s : gostring)
  : gostring :=
  match steps with
  | O => s
  | S steps' =>
    match stripOne encs s with
    | Some s' => stripAll steps' encs s'
    | None => s
    end
  end.

(** [TrimSpace]: [s] without its leading and trailing white space, as
    defined by Unicode.  Go finds the runes with [DecodeRuneInString] from
    the front and [DecodeLastRuneInString] from the back, and a rune found
    either way satisfies [unicode.IsSpace] exactly when its bytes are the
    UTF-8 encoding of a White_Space code point (a malformed sequence decodes
    to [RuneError], which is no space); the model looks for those encodings. *)
Definition TrimLeft (s : gostring) : gostring :=
  stripAll (length s) spaceEncodings s.

Definition TrimRight (s : gostring) : gostring :=
  rev (stripAll (length s) (map (@rev ascii) spaceEncodings) (rev s)).

Definition TrimSpace (s : gostring) : gostring := TrimRight (TrimLeft s).

(** [Map]: every rune replaced by its image, re-encoded; a byte that
    starts no valid sequence counts as [RuneError], and a negative image
    drops the rune. *)
Definition Map (mapping : Z -> Z) (s : gostring) : gostring :=
  flat_map (fun '(_, c) => let r := mapping c in
                           if 0 <=? r then utf8.EncodeRune r else [])
           (utf8.range s).

Definition ToUpper (s : gostring) : gostring := Map unicode.ToUpper s.
Definition ToLower (s : gostring) : gostring := Map unicode.ToLower s.

End strings.
(** ** Package model: entries and documents (model.go, validation.go) *)

Module model.

Inductive EntryType : Type :=
| KeyValueEntry
| CommentEntry
| BlankEntry.

Definition EntryType_eqb (a b : EntryType) : bool :=
  match a, b with
  | KeyValueEntry, KeyValueEntry => true
  | CommentEntry, CommentEntry => true
  | BlankEntry, BlankEntry => true
  | _, _ => false
  end.

Record Entry : Type := mkEntry {
  Type_ : EntryType;
  Key : gostring;
  Value : gostring;
  Comment : gostring;
  Line : Z;
  Exported : bool;
  IsSecret : bool
}.

(** [Entries []*Entry]: the document holds pointers, and the entries live
    in the store. *)
Record EnvFile : Type := mkEnvFile {
  Path : gostring;
  Entries : list loc;
  originalHash : gostring;
  isModified : bool
}.

(** The store of entries: what each location holds, and the next location
    that [&Entry{...}] will hand out. *)
Definition Heap := loc -> Entry.

Record Store : Type := mkStore {
  cells : Heap;
  fresh : loc
}.

Definition write (h : Heap) (p : loc) (e : Entry) : Heap :=
  fun q => if Nat.eqb q p then e else h q.

(** [&Entry{...}] *)
Definition new (e : Entry) (st : Store) : loc * Store :=
  (fresh st, {| cells := write (cells st) (fresh st) e;
                fresh := S (fresh st) |}).

Definition with_Value (e : Entry) (value : gostring) : Entry :=
  {| Type_ := Type_ e; Key := Key e; Value := value; Comment := Comment e;
     Line := Line e; Exported := Exported e; IsSecret := IsSecret e |}.

Definition with_Entries (ef : EnvFile) (entries : list loc) : EnvFile :=
  {| Path := Path ef; Entries := entries; originalHash := originalHash ef;
     isModified := isModified ef |}.

(** [Entry.String]: the text of one line. *)
Definition String (e : Entry) : gostring :=
  match Type_ e with
  | KeyValueEntry =>
    let prefix := if Exported e then str "export " else [] in
    let suffix := if negb (strings.eqb (Comment e) [])
                  then str " " ++ Comment e else [] in
    prefix ++ Key e ++ str "=" ++ Value e ++ suffix
  | CommentEntry => Comment e
  | BlankEntry => []
  end.

(** The test of the three key-based loops:
    [entry.Type == KeyValueEntry && entry.Key == key]. *)
Definition matches (h : Heap) (key : gostring) (entry : loc) : bool :=
  EntryType_eqb (Type_ (h entry)) KeyValueEntry &&
  strings.eqb (Key (h entry)) key.

(** GetEntry: [nil] is [None]. *)
Fixpoint GetEntry_loop (h : Heap) (entries : list loc) (key : gostring)
  : option loc :=
  match entries with
  | [] => None
  | entry :: rest =>
    if matches h key entry then Some entry else GetEntry_loop h rest key
  end.

Definition GetEntry (h : Heap) (ef : EnvFile) (key : gostring) : option loc :=
  GetEntry_loop h (Entries ef) key.

Definition AddEntry (ef : EnvFile) (entry : loc) : EnvFile :=
  with_Entries ef (Entries ef ++ [entry]).

(** UpdateEntry writes through the pointer: the store changes, the
    document does not. *)
Fixpoint UpdateEntry_loop (h : Heap) (entries : list loc) (key value : gostring)
  : Heap * bool :=
  match entries with
  | [] => (h, false)
  | entry :: rest =>
    if matches h key entry
    then (write h entry (with_Value (h entry) value), true)
    else UpdateEntry_loop h rest key value
  end.

Definition UpdateEntry (h : Heap) (ef : EnvFile) (key value : gostring)
  : Heap * bool :=
  UpdateEntry_loop h (Entries ef) key value.

(** DeleteEntry: at the first match, at index [i],
    [ef.Entries = append(ef.Entries[:i], ef.Entries[i+1:]...)]. *)
Fixpoint DeleteEntry_loop (h : Heap) (all rest : list loc) (i : nat)
         (key : gostring) : option (list loc) :=
  match rest with
  | [] => None
  | entry :: rest' =>
    if matches h key entry
    then Some (firstn i all ++ skipn (i + 1) all)
    else DeleteEntry_loop h all rest' (S i) key
  end.

Definition DeleteEntry (h : Heap) (ef : EnvFile) (key : gostring)
  : EnvFile * bool :=
  match DeleteEntry_loop h (Entries ef) (Entries ef) 0 key with
  | Some entries => (with_Entries ef entries, true)
  | None => (ef, false)
  end.

(** fuzzyMatch: [loop] is the [for] over [ti], carrying [pi]; it returns
    the final [pi]. *)
Fixpoint fuzzyMatch_loop (text pattern : gostring) (pi : nat) : nat :=
  match text with
  | [] => pi
  | t :: text' =>
    match nth_error pattern pi with
    | None => pi
    | Some p =>
      if Ascii.eqb t p then fuzzyMatch_loop text' pattern (S pi)
      else fuzzyMatch_loop text' pattern pi
    end
  end.

Definition fuzzyMatch (text pattern : gostring) : bool :=
  if strings.eqb pattern [] then true
  else Nat.eqb (fuzzyMatch_loop text pattern 0) (length pattern).

Definition FilterEntries (h : Heap) (ef : EnvFile) (query : gostring)
  : list loc :=
  let kvEntries :=
    filter (fun entry => EntryType_eqb (Type_ (h entry)) KeyValueEntry)
           (Entries ef) in
  if strings.eqb query [] then kvEntries
  else
    let query := strings.ToLower query in
    filter (fun entry =>
              let key := strings.ToLower (Key (h entry)) in
              let value := strings.ToLower (Value (h entry)) in
              fuzzyMatch key query || fuzzyMatch value query)
           kvEntries.

(** Clone: [&Entry{...}] for each entry in turn, field by field. *)
Fixpoint Clone_loop (entries : list loc) (st : Store) : list loc * Store :=
  match entries with
  | [] => ([], st)
  | entry :: rest =>
    let e := cells st entry in
    let (p, st1) := new {| Type_ := Type_ e; Key := Key e; Value := Value e;
                           Comment := Comment e; Line := Line e;
                           Exported := Exported e; IsSecret := IsSecret e |}
                        st in
    let (ps, st2) := Clone_loop rest st1 in
    (p :: ps, st2)
  end.

Definition Clone (ef : EnvFile) (st : Store) : EnvFile * Store :=
  let (entries, st') := Clone_loop (Entries ef) st in
  ({| Path := Path ef; Entries := entries; originalHash := originalHash ef;
      isModified := isModified ef |}, st').

End model.


(** ** Package model: validation (validation.go) *)

Module validation.
Import model.

Inductive ValidationLevel : Type :=
| ValidationError
| ValidationWarning
| ValidationInfo.

Record ValidationIssue : Type := mkIssue {
  Level : ValidationLevel;
  Message : gostring;
  Line : Z;
  Key : gostring
}.

(** The three issues of [Entry.Validate] and the one of
    [EnvFile.Validate], as the literals of the source build them. *)
Definition emptyKey (e : Entry) : ValidationIssue :=
  {| Level := ValidationError;
     Message := str "Key cannot be empty";
     Line := model.Line e;
     Key := [] |}.

Definition spacesInValue (e : Entry) : ValidationIssue :=
  {| Level := ValidationWarning;
     Message := str "Value contains spaces, consider quoting: " ++ model.Key e;
     Line := model.Line e;
     Key := model.Key e |}.

Definition suspiciousSecret (e : Entry) : ValidationIssue :=
  {| Level := ValidationWarning;
     Message := str "Suspicious secret value: " ++ model.Key e;
     Line := model.Line e;
     Key := model.Key e |}.

Definition duplicateKey (e : Entry) (prevLine : Z) : ValidationIssue :=
  {| Level := ValidationError;
     Message := str "Duplicate key '" ++ model.Key e ++
                str "' (first seen at line " ++ fmt.d prevLine ++ str ")";
     Line := model.Line e;
     Key := model.Key e |}.

(** [Entry.Validate] *)
Definition Entry_Validate (e : Entry) : list ValidationIssue :=
  let issues := [] in
  if negb (EntryType_eqb (Type_ e) KeyValueEntry) then issues
  else
    let issues :=
      if strings.eqb (model.Key e) [] then issues ++ [emptyKey e]
      else issues in
    let issues :=
      if strings.Contains (Value e) (str " ") && negb (Exported e)
      then issues ++ [spacesInValue e]
      else issues in
    let issues :=
      if IsSecret e && (strings.eqb (Value e) [] ||
                        strings.eqb (Value e) (str "changeme") ||
                        strings.eqb (Value e) (str "password"))
      then issues ++ [suspiciousSecret e]
      else issues in
    issues.

(** [keysSeen map[string]int] *)
Definition keysSeen_t := gostring -> option Z.

Definition make : keysSeen_t := fun _ => None.

Definition set (m : keysSeen_t) (key : gostring) (line : Z) : keysSeen_t :=
  fun k => if strings.eqb k key then Some line else m k.

(** The [for _, entry := range ef.Entries] of [EnvFile.Validate]: the
    issues and the map after the loop. *)
Fixpoint Validate_loop (h : Heap) (entries : list loc)
         (issues : list ValidationIssue) (keysSeen : keysSeen_t)
  : list ValidationIssue * keysSeen_t :=
  match entries with
  | [] => (issues, keysSeen)
  | entry :: rest =>
    let issues := issues ++ Entry_Validate (h entry) in
    if EntryType_eqb (Type_ (h entry)) KeyValueEntry then
      let issues :=
        match keysSeen (model.Key (h entry)) with
        | Some prevLine => issues ++ [duplicateKey (h entry) prevLine]
        | None => issues
        end in
      Validate_loop h rest issues
                    (set keysSeen (model.Key (h entry)) (model.Line (h entry)))
    else Validate_loop h rest issues keysSeen
  end.

(** [EnvFile.Validate] *)
Definition Validate (h : Heap) (ef : EnvFile) : list ValidationIssue :=
  fst (Validate_loop h (Entries ef) [] make).

End validation.
(** ** Package model: the change history (changestack.go) *)

Module ChangeStack.

Inductive ChangeType : Type :=
| ChangeTypeAdd
| ChangeTypeUpdate
| ChangeTypeDelete.

Record Change : Type := mkChange {
  Type_ : ChangeType;
  FilePath : gostring;
  Entry : loc;
  OldValue : gostring
}.

Record ChangeStack : Type := mkChangeStack {
  changes : list Change;
  current : Z;
  maxSize : Z
}.

Definition NewChangeStack (maxSize : Z) : ChangeStack :=
  {| changes := []; current := -1; maxSize := maxSize |}.

(** [s[:n]]; panics unless [0 <= n <= len(s)].  (Go allows [n] up to the
    capacity; the code only slices inside the length.) *)
Definition slice_to {A : Type} (s : list A) (n : Z) : outcome (list A) :=
  if (0 <=? n) && (n <=? len s) then Done (firstn (Z.to_nat n) s) else Panic.

(** [s[n:]]; panics unless [0 <= n <= len(s)]. *)
Definition slice_from {A : Type} (s : list A) (n : Z) : outcome (list A) :=
  if (0 <=? n) && (n <=? len s) then Done (skipn (Z.to_nat n) s) else Panic.

(** [s[i]]; panics unless [0 <= i < len(s)]. *)
Definition index {A : Type} (s : list A) (i : Z) : outcome A :=
  if (0 <=? i) && (i <? len s) then
    match nth_error s (Z.to_nat i) with
    | Some a => Done a
    | None => Panic
    end
  else Panic.

Definition bind {A B : Type} (m : outcome A) (k : A -> outcome B) : outcome B :=
  match m with
  | Done a => k a
  | Panic => Panic
  end.

Notation "x <- m ;; k" := (bind m (fun x => k))
  (at level 61, m at next level, right associativity).

(** Push: drop the redo history, append, advance, trim to [maxSize]. *)
Definition Push (change : Change) (cs : ChangeStack) : outcome ChangeStack :=
  kept <- (if current cs <? len (changes cs) - 1
           then slice_to (changes cs) (current cs + 1)
           else Done (changes cs)) ;;
  let changes1 := kept ++ [change] in
  let current1 := current cs + 1 in
  if len changes1 >? maxSize cs then
    trimmed <- slice_from changes1 1 ;;
    Done {| changes := trimmed; current := current1 - 1; maxSize := maxSize cs |}
  else
    Done {| changes := changes1; current := current1; maxSize := maxSize cs |}.

(** Undo: [(nil, false)] is [None], [(&change, true)] is [Some change]. *)
Definition Undo (cs : ChangeStack) : outcome (ChangeStack * option Change) :=
  if current cs <? 0 then Done (cs, None)
  else
    change <- index (changes cs) (current cs) ;;
    Done ({| changes := changes cs; current := current cs - 1;
             maxSize := maxSize cs |}, Some change).

Definition Redo (cs : ChangeStack) : outcome (ChangeStack * option Change) :=
  if current cs >=? len (changes cs) - 1 then Done (cs, None)
  else
    let current1 := current cs + 1 in
    change <- index (changes cs) current1 ;;
    Done ({| changes := changes cs; current := current1;
             maxSize := maxSize cs |}, Some change).

Definition CanUndo (cs : ChangeStack) : bool := current cs >=? 0.

Definition CanRedo (cs : ChangeStack) : bool :=
  current cs <? len (changes cs) - 1.

Definition GetHistory (cs : ChangeStack) : list Change := changes cs.

(** The cursor invariant of the specification: [current] lies in
    [[-1, len-1]]. *)
Definition cursor_ok (cs : ChangeStack) : Prop :=
  -1 <= current cs <= len (changes cs) - 1.

(** Clear: [cs.changes = cs.changes[:0]; cs.current = -1]. *)
Definition Clear (cs : ChangeStack) : outcome ChangeStack :=
  emptied <- slice_to (changes cs) 0 ;;
  Done {| changes := emptied; current := -1; maxSize := maxSize cs |}.

Definition GetCurrentPosition (cs : ChangeStack) : Z := current cs.

End ChangeStack.

(** ** Package parser: the production parser (production.go) *)

Module parser.
Import model.

(** isSecretKey (parser.go). *)
Definition secretKeywords : list gostring :=
  [str "PASSWORD"; str "SECRET"; str "TOKEN"; str "KEY"; str "PRIVATE";
   str "API_KEY"; str "AUTH"; str "CREDENTIAL"; str "CERT"].

Definition isSecretKey (key : gostring) : bool :=
  let upperKey := strings.ToUpper key in
  existsb (fun keyword => strings.Contains upperKey keyword) secretKeywords.

Definition underscore : Z := 0x5F.

(** The [for i, ch := range key] of isValidKey; [false] is the early
    [return false]. *)
Fixpoint isValidKey_loop (runes : list (Z * Z)) : bool :=
  match runes with
  | [] => true
  | (i, ch) :: rest =>
    if (i =? 0) && negb (unicode.IsLetter ch) && negb (ch =? underscore)
    then false
    else if negb (unicode.IsLetter ch) && negb (unicode.IsDigit ch)
            && negb (ch =? underscore)
    then false
    else isValidKey_loop rest
  end.

Definition isValidKey (key : gostring) : bool :=
  if len key =? 0 then false else isValidKey_loop (utf8.range key).

Definition backslash : ascii := "\"%char.
Definition dquote : ascii := "034"%char.
Definition squote : ascii := "'"%char.
Definition newline : ascii := "010"%char.
Definition tab : ascii := "009"%char.
Definition cr : ascii := "013"%char.

(** The [switch next] of parseQuotedValue: the byte written for [\next]. *)
Definition unescape (next : ascii) : ascii :=
  if Ascii.eqb next "n" then newline
  else if Ascii.eqb next "t" then tab
  else if Ascii.eqb next "r" then cr
  else if Ascii.eqb next backslash then backslash
  else if Ascii.eqb next dquote || Ascii.eqb next squote then next
  else next.

(** The inner [for i < len(currentLineStr)] of parseQuotedValue, from
    index [i] on: [cur] is [currentLineStr[i:]].  It returns the result so
    far and whether the closing quote was met. *)
Fixpoint scanQuoted (quote : ascii) (cur : gostring) (result : gostring)
  : gostring * bool :=
  match cur with
  | [] => (result, false)
  | ch :: rest =>
    match rest with
    | next :: rest' =>
      if Ascii.eqb ch backslash
      then scanQuoted quote rest' (result ++ [unescape next])
      else if Ascii.eqb ch quote then (result, true)
      else scanQuoted quote rest (result ++ [ch])
    | [] =>
      (* [i+1 < len(currentLineStr)] fails: no escape at the end of a line *)
      if Ascii.eqb ch quote then (result, true)
      else scanQuoted quote rest (result ++ [ch])
    end
  end.

(** The outer [for] of parseQuotedValue: [following] are the lines after
    [lines[currentLine+linesConsumed]]. *)
Fixpoint quotedLines (quote : ascii) (cur : gostring)
         (following : list gostring) (result : gostring) (linesConsumed : nat)
  : gostring * nat :=
  match scanQuoted quote cur result with
  | (result, true) => (result, linesConsumed)
  | (result, false) =>
    match following with
    | next :: following' =>
      quotedLines quote next following' (result ++ [newline])
                  (S linesConsumed)
    | [] => (result, linesConsumed)
    end
  end.

Definition parseQuotedValue (valueStr : gostring) (quote : ascii)
           (lines : list gostring) (currentLine : nat) : gostring * nat :=
  quotedLines quote (skipn 1 valueStr) (skipn (currentLine + 1) lines) [] 0.

Definition parseValue (valueStr : gostring) (lines : list gostring)
           (currentLine : nat) : gostring * nat :=
  let valueStr := strings.TrimSpace valueStr in
  match valueStr with
  | [] => ([], 0%nat)
  | c :: _ =>
    if Ascii.eqb c dquote || Ascii.eqb c squote then
      parseQuotedValue valueStr c lines currentLine
    else
      let idx := strings.Index valueStr (str "#") in
      let valueStr := if negb (idx =? -1)
                      then strings.TrimSpace (firstn (Z.to_nat idx) valueStr)
                      else valueStr in
      (valueStr, 0%nat)
  end.

(** One turn of the loop of Parse at index [i], on [line = lines[i]]: the
    entry it appends, if any, and by how much it moves [i] forward on top of
    the loop's own [i++]. *)
Definition parseLine (lines : list gostring) (i : nat) (line : gostring)
  : option Entry * nat :=
  let trimmed := strings.TrimSpace line in
  if strings.eqb trimmed [] then
    (Some {| Type_ := BlankEntry; Key := []; Value := []; Comment := [];
             Line := Z.of_nat i + 1; Exported := false; IsSecret := false |},
     0%nat)
  else if strings.HasPrefix trimmed (str "#") then
    (Some {| Type_ := CommentEntry; Key := []; Value := []; Comment := line;
             Line := Z.of_nat i + 1; Exported := false; IsSecret := false |},
     0%nat)
  else
    let exported := strings.HasPrefix trimmed (str "export ") in
    let trimmed :=
      if exported
      then strings.TrimSpace (strings.TrimPrefix trimmed (str "export "))
      else trimmed in
    let eqIdx := strings.Index trimmed (str "=") in
    if eqIdx =? -1 then (None, 0%nat)
    else
      let key := strings.TrimSpace (firstn (Z.to_nat eqIdx) trimmed) in
      if strings.eqb key [] || negb (isValidKey key) then (None, 0%nat)
      else
        let valueStr := skipn (Z.to_nat (eqIdx + 1)) trimmed in
        let (value, consumed) := parseValue valueStr lines i in
        let i := (i + consumed)%nat in
        (Some {| Type_ := KeyValueEntry; Key := key; Value := value;
                 Comment := []; Line := Z.of_nat i + 1; Exported := exported;
                 IsSecret := isSecretKey key |},
         consumed).

(** The [for i := 0; i < len(lines); i++] of Parse, from index [i] on with
    [rest = lines[i:]].  A turn moves on by [1 + consumed] lines, so
    [steps = len(lines) - i] turns are enough. *)
Fixpoint parseLoop (steps : nat) (lines : list gostring) (i : nat)
         (rest : list gostring) : list Entry :=
  match steps, rest with
  | S steps', line :: rest' =>
    let (entry, consumed) := parseLine lines i line in
    let entries := parseLoop steps' lines (i + consumed + 1)
                             (skipn consumed rest') in
    match entry with
    | Some e => e :: entries
    | None => entries
    end
  | _, _ => []
  end.

(** The entries Parse appends, in order. *)
Definition parseEntries (input : gostring) : list Entry :=
  let lines := strings.Split input newline in
  parseLoop (length lines) lines 0 lines.

(** [&model.Entry{...}] for each entry in turn. *)
Fixpoint allocate (entries : list Entry) (st : Store) : list loc * Store :=
  match entries with
  | [] => ([], st)
  | e :: entries' =>
    let (p, st1) := new e st in
    let (ps, st2) := allocate entries' st1 in
    (p :: ps, st2)
  end.

(** Go's [error]: a message. *)
Inductive error : Type :=
| errorString (msg : gostring).

(** Parse: the document and the [error] result, which is always [nil]. *)
Definition Parse (input : gostring) (st : Store)
  : (EnvFile * option error) * Store :=
  let (ptrs, st') := allocate (parseEntries input) st in
  (({| Path := []; Entries := ptrs; originalHash := [];
       isModified := false |}, None), st').

End parser.

(** ** Package storage: writing a document (file.go, backup.go)

    The file system is a map from paths to contents.  Every operation
    whose error the code inspects can fail; which ones do is decided by
    the environment, as is the clock.  [os.Remove], whose error the code
    discards, and [Close] are taken to take effect. *)

Module storage.
Import model.

Definition FS := gostring -> option gostring.

Definition put (fs : FS) (path content : gostring) : FS :=
  fun p => if strings.eqb p path then Some content else fs p.

Definition remove (fs : FS) (path : gostring) : FS :=
  fun p => if strings.eqb p path then None else fs p.

Record Env : Type := mkEnv {
  (** [time.Now().Format("20060102-150405")] *)
  now : gostring;
  (** [os.Stat] fails with something other than "does not exist" *)
  stat_fails : bool;
  (** [os.Open] of the file to back up fails *)
  open_fails : bool;
  (** [os.Create] of the backup fails *)
  create_backup_fails : bool;
  (** [io.Copy] into the backup fails, after this many bytes *)
  copy_fails : option nat;
  (** [os.Create] of the temporary file fails *)
  create_temp_fails : bool;
  (** [WriteString] of the entry with this index fails, after this many
      bytes of it *)
  write_fails : option (nat * nat);
  sync_fails : bool;
  rename_fails : bool
}.

Inductive error : Type :=
| failed_to_create_backup
| failed_to_create_temp_file
| failed_to_write_entry
| failed_to_sync_temp_file
| failed_to_rename_temp_file.

(** copyFile(src, dst): [None] is a [nil] error. *)
Definition copyFile (env : Env) (fs : FS) (src dst : gostring)
  : FS * option unit :=
  match (if open_fails env then None else fs src) with
  | None => (fs, Some tt)
  | Some content =>
    if create_backup_fails env then (fs, Some tt)
    else
      match copy_fails env with
      | Some n => (put fs dst (firstn n content), Some tt)
      | None => (put fs dst content, None)
      end
  end.

(** CreateBackup(path): nothing to do when [os.Stat] says that the file
    does not exist. *)
Definition CreateBackup (env : Env) (fs : FS) (path : gostring)
  : FS * option unit :=
  let notExist := match fs path with
                  | None => negb (stat_fails env)
                  | Some _ => false
                  end in
  if notExist then (fs, None)
  else
    let backupPath := path ++ str ".backup." ++ now env in
    copyFile env fs path backupPath.

Definition createBackup := CreateBackup.

(** The [for _, entry := range envFile.Entries] of WriteFile, at index
    [i]: the content of the temporary file grows by a line per entry. *)
Fixpoint writeEntries (env : Env) (h : Heap) (entries : list loc) (i : nat)
         (content : gostring) : gostring * bool :=
  match entries with
  | [] => (content, true)
  | entry :: rest =>
    let text := String (h entry) ++ [parser.newline] in
    match write_fails env with
    | Some (j, n) =>
      if Nat.eqb i j then (content ++ firstn n text, false)
      else writeEntries env h rest (S i) (content ++ text)
    | None => writeEntries env h rest (S i) (content ++ text)
    end
  end.

(** The text WriteFile writes: a line per entry. *)
Definition serialize (h : Heap) (ef : EnvFile) : gostring :=
  flat_map (fun entry => String (h entry) ++ [parser.newline]) (Entries ef).

Definition WriteFile (env : Env) (h : Heap) (fs : FS) (envFile : EnvFile)
  : FS * option error :=
  match createBackup env fs (Path envFile) with
  | (fs, Some _) => (fs, Some failed_to_create_backup)
  | (fs, None) =>
    let tempPath := Path envFile ++ str ".tmp" in
    if create_temp_fails env then (fs, Some failed_to_create_temp_file)
    else
      let fs := put fs tempPath [] in
      match writeEntries env h (Entries envFile) 0 [] with
      | (content, false) => (put fs tempPath content, Some failed_to_write_entry)
      | (content, true) =>
        let fs := put fs tempPath content in
        if sync_fails env then (fs, Some failed_to_sync_temp_file)
        else if rename_fails env then
          let fs := remove fs tempPath in
          (fs, Some failed_to_rename_temp_file)
        else
          (put (remove fs tempPath) (Path envFile) content, None)
      end
  end.

(** ReadFile: [read_fails] says that [os.ReadFile] fails on a file that is
    there; on a file that is not there it always fails. *)
Inductive read_error : Type :=
| failed_to_read_file
| failed_to_parse_file (err : parser.error).

Definition ReadFile (read_fails : bool) (fs : FS) (path : gostring)
           (st : Store) : (option EnvFile * option read_error) * Store :=
  match (if read_fails then None else fs path) with
  | None => ((None, Some failed_to_read_file), st)
  | Some data =>
    match parser.Parse data st with
    | ((_, Some err), st') => ((None, Some (failed_to_parse_file err)), st')
    | ((envFile, None), st') =>
      ((Some {| Path := path; Entries := Entries envFile;
                originalHash := originalHash envFile;
                isModified := isModified envFile |}, None), st')
    end
  end.

(** RestoreBackup(backupPath, originalPath).  The operations of its own
    that can fail, beside those of copyFile: *)
Record RestoreFaults : Type := mkRestoreFaults {
  (** [os.Open] of the backup fails *)
  open_backup_fails : bool;
  (** [os.Stat] of the original fails although the file is there *)
  stat_original_fails : bool;
  (** [os.Create] of the original fails *)
  create_target_fails : bool;
  (** [io.Copy] into the original fails, after this many bytes *)
  copy_backup_fails : option nat
}.

Inductive restore_error : Type :=
| failed_to_open_backup_file
| failed_to_create_safety_backup
| failed_to_create_target_file
| failed_to_copy_backup.

(** The backup is opened first and read last: [io.Copy] reads what the
    file holds then, after the safety backup was written and the original
    was truncated by [os.Create]. *)
Definition RestoreBackup (env : Env) (faults : RestoreFaults) (fs : FS)
           (backupPath originalPath : gostring) : FS * option restore_error :=
  match (if open_backup_fails faults then None else fs backupPath) with
  | None => (fs, Some failed_to_open_backup_file)
  | Some _ =>
    let statOk := match fs originalPath with
                  | Some _ => negb (stat_original_fails faults)
                  | None => false
                  end in
    let (fs, err) :=
      if statOk then
        let safetyBackupPath :=
          originalPath ++ str ".backup.pre-restore." ++ now env in
        copyFile env fs originalPath safetyBackupPath
      else (fs, None) in
    match err with
    | Some _ => (fs, Some failed_to_create_safety_backup)
    | None =>
      if create_target_fails faults
      then (fs, Some failed_to_create_target_file)
      else
        let fs := put fs originalPath [] in
        let content := match fs backupPath with
                       | Some content => content
                       | None => []
                       end in
        match copy_backup_fails faults with
        | Some n => (put fs originalPath (firstn n content),
                     Some failed_to_copy_backup)
        | None => (put fs originalPath content, None)
        end
    end
  end.

End storage.

(** * Notions used to state the properties *)

Module ChangeStackSpec.
Import ChangeStack.

(** The changes kept by a push: everything up to and including the cursor. *)
Definition kept (cs : ChangeStack) : list Change :=
  firstn (Z.to_nat (current cs + 1)) (changes cs).

(** What a push leaves behind, as a function of the stack before it. *)
Definition pushed (c : Change) (cs : ChangeStack) : ChangeStack :=
  if len (kept cs ++ [c]) >? maxSize cs
  then {| changes := tl (kept cs ++ [c]); current := current cs + 1 - 1;
          maxSize := maxSize cs |}
  else {| changes := kept cs ++ [c]; current := current cs + 1;
          maxSize := maxSize cs |}.

(** A stack with two changes, the cursor on the second. *)
Definition change_a : Change :=
  {| Type_ := ChangeTypeAdd; FilePath := str ".env"; Entry := 0%nat;
     OldValue := [] |}.
Definition change_b : Change :=
  {| Type_ := ChangeTypeUpdate; FilePath := str ".env"; Entry := 1%nat;
     OldValue := str "old" |}.
Definition change_c : Change :=
  {| Type_ := ChangeTypeDelete; FilePath := str ".env"; Entry := 2%nat;
     OldValue := [] |}.
Definition stack_ab : ChangeStack :=
  {| changes := [change_a; change_b]; current := 1; maxSize := 100 |}.

(** The history is no longer than the capacity. *)
Definition within_capacity (cs : ChangeStack) : Prop :=
  len (changes cs) <= maxSize cs.

(** A caller that pushes the changes of a list, one after the other. *)
Fixpoint pushAll (l : list Change) (cs : ChangeStack) : outcome ChangeStack :=
  match l with
  | [] => Done cs
  | c :: l' =>
    match Push c cs with
    | Done cs' => pushAll l' cs'
    | Panic => Panic
    end
  end.

(** A caller that undoes, or redoes, up to [n] times in a row and collects
    the changes it is handed; it stops at the first time it is handed
    nothing. *)
Fixpoint undoN (n : nat) (cs : ChangeStack)
  : outcome (ChangeStack * list Change) :=
  match n with
  | O => Done (cs, [])
  | S n' =>
    match Undo cs with
    | Done (cs1, Some c) =>
      match undoN n' cs1 with
      | Done (cs2, cs') => Done (cs2, c :: cs')
      | Panic => Panic
      end
    | Done (cs1, None) => Done (cs1, [])
    | Panic => Panic
    end
  end.

Fixpoint redoN (n : nat) (cs : ChangeStack)
  : outcome (ChangeStack * list Change) :=
  match n with
  | O => Done (cs, [])
  | S n' =>
    match Redo cs with
    | Done (cs1, Some c) =>
      match redoN n' cs1 with
      | Done (cs2, cs') => Done (cs2, c :: cs')
      | Panic => Panic
      end
    | Done (cs1, None) => Done (cs1, [])
    | Panic => Panic
    end
  end.

End ChangeStackSpec.

Module stringsSpec.

(** The white space encodings, read from the back. *)
Definition revEncodings : list gostring :=
  map (@rev ascii) strings.spaceEncodings.

(** No white space at the front, none at the back. *)
Definition trimmed (s : gostring) : Prop :=
  strings.stripOne strings.spaceEncodings s = None /\
  strings.stripOne revEncodings (rev s) = None.

End stringsSpec.

Module modelSpec.
Import model.

(** [Subseq p t]: the elements of [p] occur in [t], in order, not
    necessarily next to each other. *)
Inductive Subseq {A : Type} : list A -> list A -> Prop :=
| Subseq_nil : forall t, Subseq [] t
| Subseq_take : forall x p t, Subseq p t -> Subseq (x :: p) (x :: t)
| Subseq_skip : forall x p t, Subseq p t -> Subseq p (x :: t).

(** Whether the entry at [p] is a key-value entry. *)
Definition isKV (h : Heap) (p : loc) : bool :=
  EntryType_eqb (Type_ (h p)) KeyValueEntry.

(** The fuzzy match of the specification on one entry: the lower-cased
    query is a subsequence of the lower-cased key or of the lower-cased
    value. *)
Definition fuzzy (h : Heap) (query : gostring) (p : loc) : Prop :=
  Subseq (strings.ToLower query) (strings.ToLower (Key (h p))) \/
  Subseq (strings.ToLower query) (strings.ToLower (Value (h p))).

(** A document with a comment whose [Key] field is set, a blank line and
    two entries for the same key. *)
Definition sample_heap : Heap :=
  fun p =>
    match p with
    | 0%nat => {| Type_ := CommentEntry; Key := str "A"; Value := [];
                  Comment := str "# A"; Line := 1; Exported := false;
                  IsSecret := false |}
    | 1%nat => {| Type_ := KeyValueEntry; Key := str "A"; Value := str "1";
                  Comment := []; Line := 2; Exported := false;
                  IsSecret := false |}
    | 2%nat => {| Type_ := BlankEntry; Key := str "A"; Value := [];
                  Comment := []; Line := 3; Exported := false;
                  IsSecret := false |}
    | _ => {| Type_ := KeyValueEntry; Key := str "A"; Value := str "2";
              Comment := []; Line := 4; Exported := true;
              IsSecret := false |}
    end.

Definition sample_file : EnvFile :=
  {| Path := str ".env"; Entries := [0; 1; 2; 3]%nat; originalHash := [];
     isModified := false |}.

(** The store that holds the four entries of [sample_file] and nothing
    else yet. *)
Definition sample_store : Store :=
  {| cells := sample_heap; fresh := 4%nat |}.

(** Every entry of the document has been allocated. *)
Definition allocated (st : Store) (ef : EnvFile) : Prop :=
  forall p, In p (Entries ef) -> (p < fresh st)%nat.

(** How many entries of the document the key-based operations would take
    for [key]. *)
Definition occurrences (h : Heap) (ef : EnvFile) (key : gostring) : nat :=
  length (filter (matches h key) (Entries ef)).

End modelSpec.


Module validationSpec.
Import model validation.

(** The nearest entry of [pre], from its end, that is a key-value entry
    with the key. *)
Definition previous (h : Heap) (pre : list loc) (key : gostring)
  : option loc :=
  find (matches h key) (rev pre).

(** The duplicate-key error that an entry gets when it comes after the
    entries [pre]. *)
Definition duplicateOf (h : Heap) (pre : list loc) (p : loc)
  : list ValidationIssue :=
  match Type_ (h p) with
  | KeyValueEntry =>
    match previous h pre (model.Key (h p)) with
    | Some q => [duplicateKey (h p) (model.Line (h q))]
    | None => []
    end
  | _ => []
  end.

(** The keys of the key-value entries of a list of entries, in order. *)
Definition keysOf (h : Heap) (entries : list loc) : list gostring :=
  map (fun p => model.Key (h p))
      (filter (fun p => EntryType_eqb (Type_ (h p)) KeyValueEntry) entries).

End validationSpec.
Module parserSpec.
Import model parser.

(** A quoted value, as the text between the quotes is read: plain bytes
    and backslash escapes. *)
Inductive token : Type :=
| Plain (c : ascii)
| Esc (c : ascii).

(** The text of a token, and of a sequence of tokens. *)
Definition render1 (t : token) : gostring :=
  match t with
  | Plain c => [c]
  | Esc c => [backslash; c]
  end.

Definition render (toks : list token) : gostring := flat_map render1 toks.

(** What the specification says an escape stands for: [\n] a newline, [\t]
    a tab, [\r] a carriage return, and any other [\x] the byte [x] itself
    (so an escaped backslash is a backslash and an escaped quote the
    quote). *)
Definition escaped (c : ascii) : ascii :=
  if Ascii.eqb c "n" then "010"%char
  else if Ascii.eqb c "t" then "009"%char
  else if Ascii.eqb c "r" then "013"%char
  else c.

Definition decode1 (t : token) : ascii :=
  match t with
  | Plain c => c
  | Esc c => escaped c
  end.

(** A plain byte inside quotes is neither a backslash nor the quote. *)
Definition plain_ok (quote : ascii) (t : token) : Prop :=
  match t with
  | Plain c => c <> backslash /\ c <> quote
  | Esc _ => True
  end.

(** The identifier shape [[A-Za-z_][A-Za-z0-9_]*] of the specification. *)
Definition asciiLetter (c : ascii) : bool :=
  let n := utf8.byteZ c in
  ((0x41 <=? n) && (n <=? 0x5A)) || ((0x61 <=? n) && (n <=? 0x7A)).

Definition asciiDigit (c : ascii) : bool :=
  let n := utf8.byteZ c in (0x30 <=? n) && (n <=? 0x39).

Definition asciiIdentifier (s : gostring) : bool :=
  match s with
  | [] => false
  | c :: s' =>
    (asciiLetter c || Ascii.eqb c "_") &&
    forallb (fun c => asciiLetter c || asciiDigit c || Ascii.eqb c "_") s'
  end.

(** The shape the code accepts: Unicode letters, Unicode decimal digits
    and the underscore, the first rune no digit. *)
Definition identifierStart (r : Z) : bool :=
  unicode.IsLetter r || (r =? underscore).

Definition identifierPart (r : Z) : bool :=
  unicode.IsLetter r || unicode.IsDigit r || (r =? underscore).

Definition unicodeIdentifier (s : gostring) : bool :=
  match map snd (utf8.range s) with
  | [] => false
  | r :: rs => identifierStart r && forallb identifierPart rs
  end.

(** The three kinds of line that Parse tells apart. *)
Definition blankLine (line : gostring) : bool :=
  strings.eqb (strings.TrimSpace line) [].

Definition commentLine (line : gostring) : bool :=
  strings.HasPrefix (strings.TrimSpace line) (str "#").

(** The line without its surrounding white space and its [export ]
    keyword, and what it has to the left of its first [=]. *)
Definition assignment (line : gostring) : gostring :=
  let trimmed := strings.TrimSpace line in
  if strings.HasPrefix trimmed (str "export ")
  then strings.TrimSpace (strings.TrimPrefix trimmed (str "export "))
  else trimmed.

Definition hasEquals (line : gostring) : bool :=
  negb (strings.Index (assignment line) (str "=") =? -1).

Definition leftHandSide (line : gostring) : gostring :=
  firstn (Z.to_nat (strings.Index (assignment line) (str "=")))
         (assignment line).

(** The bytes a key accepted by isValidKey is made of: a byte of a
    multi-byte sequence, or an ASCII letter, digit or underscore. *)
Definition keyByte (b : ascii) : bool :=
  (0x80 <=? utf8.byteZ b) || identifierPart (utf8.byteZ b).

(** A value that a line [key=value] gives back as it is: no white space
    at either end, no [#], no newline, no quote at the front. *)
Definition plainValue (v : gostring) : Prop :=
  strings.TrimSpace v = v /\
  ~ In "#"%char v /\
  ~ In newline v /\
  match v with
  | [] => True
  | c :: _ => c <> dquote /\ c <> squote
  end.

(** What the entries that Parse builds have in common. *)
Definition parsedEntry (e : Entry) : Prop :=
  match Type_ e with
  | BlankEntry => True
  | CommentEntry =>
    blankLine (Comment e) = false /\ commentLine (Comment e) = true /\
    ~ In newline (Comment e)
  | KeyValueEntry =>
    isValidKey (Key e) = true /\ strings.TrimSpace (Key e) = Key e /\
    Comment e = []
  end.

(** The key-value entries of a list of entries, as (key, value, exported). *)
Definition kvOf (es : list Entry) : list (gostring * gostring * bool) :=
  map (fun e => (Key e, Value e, Exported e))
      (filter (fun e => EntryType_eqb (Type_ e) KeyValueEntry) es).

(** The same of a document. *)
Definition kvTuples (h : Heap) (ef : EnvFile)
  : list (gostring * gostring * bool) :=
  kvOf (map h (Entries ef)).

(** The text of a list of entries: a line per entry. *)
Definition textOf (es : list Entry) : gostring :=
  flat_map (fun e => String e ++ [newline]) es.

(** A store with nothing in it yet. *)
Definition blank_entry : Entry :=
  {| Type_ := BlankEntry; Key := []; Value := []; Comment := []; Line := 0;
     Exported := false; IsSecret := false |}.

Definition empty_store : Store :=
  {| cells := fun _ => blank_entry; fresh := 0%nat |}.

(** A file with a comment, a blank line and two plain assignments. *)
Definition plain_input : gostring :=
  str "# settings" ++ [newline] ++ [newline] ++
  str "export NODE_ENV=production" ++ [newline] ++
  str "  GREETING =  hello world  ".

(** A file with a quoted value that holds a [#]. *)
Definition quoted_input : gostring :=
  str "K=" ++ [dquote] ++ str "a#b" ++ [dquote].

(** Lines put together with a newline between them:
    [strings.Join(lines, "\n")]. *)
Definition joinLines (lines : list gostring) : gostring :=
  match lines with
  | [] => []
  | l :: ls => l ++ flat_map (fun l => newline :: l) ls
  end.

(** A line that a quoted value takes as it is and that does not end the
    value: no closing quote, no backslash, no newline. *)
Definition openLine (quote : ascii) (line : gostring) : Prop :=
  ~ In quote line /\ ~ In backslash line /\ ~ In newline line.

(** Bytes below [utf8.RuneSelf] only. *)
Definition asciiOnly (s : gostring) : Prop :=
  Forall (fun c => utf8.byteZ c < utf8.RuneSelf) s.

End parserSpec.

Module storageSpec.
Import model storage.

(** Every step of WriteFile before the rename succeeds. *)
Definition reaches_rename (env : Env) (h : Heap) (fs : FS) (ef : EnvFile)
  : Prop :=
  snd (createBackup env fs (Path ef)) = None /\
  create_temp_fails env = false /\
  snd (writeEntries env h (Entries ef) 0 []) = true /\
  sync_fails env = false.

(** An environment in which the rename fails, and nothing before it. *)
Definition rename_fault : Env :=
  {| now := str "20260203-003318"; stat_fails := false; open_fails := false;
     create_backup_fails := false; copy_fails := None;
     create_temp_fails := false; write_fails := None; sync_fails := false;
     rename_fails := true |}.

(** A directory that holds [.env]. *)
Definition sample_fs : FS :=
  fun p => if strings.eqb p (str ".env") then Some (str "A=0") else None.

(** The paths WriteFile and RestoreBackup write beside the file. *)
Definition tempPath (path : gostring) : gostring := path ++ str ".tmp".

Definition backupPath (env : Env) (path : gostring) : gostring :=
  path ++ str ".backup." ++ now env.

Definition safetyBackupPath (env : Env) (path : gostring) : gostring :=
  path ++ str ".backup.pre-restore." ++ now env.

(** [a] is the beginning of [b]. *)
Definition prefixOf (a b : gostring) : Prop := exists rest, b = a ++ rest.

(** An environment in which nothing fails. *)
Definition no_fault : Env :=
  {| now := str "20260203-003318"; stat_fails := false; open_fails := false;
     create_backup_fails := false; copy_fails := None;
     create_temp_fails := false; write_fails := None; sync_fails := false;
     rename_fails := false |}.

(** An environment in which the write of the second entry breaks off
    after two bytes. *)
Definition write_fault : Env :=
  {| now := str "20260203-003318"; stat_fails := false; open_fails := false;
     create_backup_fails := false; copy_fails := None;
     create_temp_fails := false; write_fails := Some (1%nat, 2%nat);
     sync_fails := false; rename_fails := false |}.

(** A restore in which the copy into the original breaks off at once. *)
Definition copy_fault : RestoreFaults :=
  {| open_backup_fails := false; stat_original_fails := false;
     create_target_fails := false; copy_backup_fails := Some 0%nat |}.

Definition no_restore_fault : RestoreFaults :=
  {| open_backup_fails := false; stat_original_fails := false;
     create_target_fails := false; copy_backup_fails := None |}.

(** A directory that holds [.env] and an older backup of it. *)
Definition backup_fs : FS :=
  fun p => if strings.eqb p (str ".env") then Some (str "A=0")
           else if strings.eqb p (str ".env.backup.20260101-120000")
                then Some (str "A=old")
                else None.

End storageSpec.

(** * Properties *)

(** ** The change history *)

Section ChangeStackProperties.
Import ChangeStack ChangeStackSpec.

Lemma len_app {A : Type} (l1 l2 : list A) : len (l1 ++ l2) = len l1 + len l2.
Proof. unfold len. rewrite length_app. lia. Qed.

Lemma len_nonneg {A : Type} (l : list A) : 0 <= len l.
Proof. unfold len. lia. Qed.

Lemma len_firstn {A : Type} (l : list A) (n : Z) :
  0 <= n <= len l -> len (firstn (Z.to_nat n) l) = n.
Proof. unfold len. intros H. rewrite length_firstn. lia. Qed.

Lemma len_kept cs : cursor_ok cs -> len (kept cs) = current cs + 1.
Proof. intros H. unfold kept. apply len_firstn. unfold cursor_ok in H. lia. Qed.

Lemma slice_from_1 {A : Type} (l : list A) :
  l <> [] -> slice_from l 1 = Done (tl l).
Proof.
  destruct l as [|a l]; [congruence|]. intros _. unfold slice_from.
  replace ((0 <=? 1) && (1 <=? len (a :: l))) with true; [reflexivity|].
  symmetry. apply andb_true_iff. split; apply Z.leb_le; unfold len;
    cbn [length]; lia.
Qed.

Lemma Push_pushed c cs : cursor_ok cs -> Push c cs = Done (pushed c cs).
Proof.
  intros H. pose proof (len_kept cs H) as Hk.
  unfold Push, pushed, cursor_ok in *.
  assert (Hkept : (if current cs <? len (changes cs) - 1
                   then slice_to (changes cs) (current cs + 1)
                   else Done (changes cs)) = Done (kept cs)).
  { destruct (Z.ltb_spec (current cs) (len (changes cs) - 1)) as [Hlt|Hge].
    - unfold slice_to.
      replace ((0 <=? current cs + 1) && (current cs + 1 <=? len (changes cs)))
        with true; [reflexivity|].
      symmetry. apply andb_true_iff. split; apply Z.leb_le; lia.
    - unfold kept. rewrite firstn_all2; [reflexivity|]. unfold len in *. lia. }
  rewrite Hkept. cbn [bind].
  destruct (len (kept cs ++ [c]) >? maxSize cs); [|reflexivity].
  rewrite slice_from_1 by (destruct (kept cs); discriminate). reflexivity.
Qed.

Lemma firstn_length_app {A : Type} (l l' : list A) :
  firstn (length l) (l ++ l') = l.
Proof. induction l as [|a l IH]; cbn; [now destruct l'|now rewrite IH]. Qed.

(** The changes strictly before the cursor after a push are changes that the
    push kept. *)
Lemma pushed_before_cursor c cs x :
  cursor_ok cs ->
  In x (firstn (Z.to_nat (current (pushed c cs))) (changes (pushed c cs))) ->
  In x (kept cs).
Proof.
  intros H. pose proof (len_kept cs H) as Hk. unfold pushed.
  destruct (len (kept cs ++ [c]) >? maxSize cs); cbn [changes current].
  - destruct (kept cs) as [|k0 ks] eqn:Ek.
    + cbn [app tl]. rewrite firstn_nil. easy.
    + cbn [app tl]. unfold len in Hk. cbn [length] in Hk.
      replace (Z.to_nat (current cs + 1 - 1)) with (length ks) by lia.
      rewrite firstn_length_app. intros Hin. now right.
  - unfold len in Hk.
    replace (Z.to_nat (current cs + 1)) with (length (kept cs)) by lia.
    now rewrite firstn_length_app.
Qed.

Lemma len_tl {A : Type} (l : list A) : l <> [] -> len (tl l) = len l - 1.
Proof. destruct l; [congruence|]. intros _. unfold len. cbn [tl length]. lia. Qed.

(** After a push the cursor is on the last change. *)
Lemma pushed_cursor_last c cs :
  cursor_ok cs -> current (pushed c cs) = len (changes (pushed c cs)) - 1.
Proof.
  intros H. pose proof (len_kept cs H) as Hk. unfold pushed.
  destruct (len (kept cs ++ [c]) >? maxSize cs); cbn [changes current].
  - rewrite len_tl by (destruct (kept cs); discriminate).
    rewrite len_app, Hk. cbn. lia.
  - rewrite len_app, Hk. cbn. lia.
Qed.

Lemma pushed_cursor_ok c cs : cursor_ok cs -> cursor_ok (pushed c cs).
Proof.
  intros H. unfold cursor_ok. rewrite (pushed_cursor_last c cs H).
  pose proof (len_nonneg (changes (pushed c cs))). lia.
Qed.

Lemma In_tl {A : Type} (x : A) (l : list A) : In x (tl l) -> In x l.
Proof. destruct l; [easy|]. cbn. auto. Qed.

Lemma pushed_changes_incl c cs x :
  In x (changes (pushed c cs)) -> In x (kept cs) \/ x = c.
Proof.
  unfold pushed. destruct (len (kept cs ++ [c]) >? maxSize cs); cbn [changes];
    intros Hin; [apply In_tl in Hin|]; apply in_app_or in Hin;
    destruct Hin as [?|[?|[]]]; auto.
Qed.

Lemma In_firstn {A : Type} (x : A) (n : nat) (l : list A) :
  In x (firstn n l) -> In x l.
Proof.
  intros H. rewrite <- (firstn_skipn n l). apply in_or_app. now left.
Qed.

(** An undo moves the cursor only. *)
Lemma Undo_spec cs :
  cursor_ok cs ->
  (current cs = -1 /\ Undo cs = Done (cs, None)) \/
  (exists c, 0 <= current cs /\
     nth_error (changes cs) (Z.to_nat (current cs)) = Some c /\
     Undo cs = Done ({| changes := changes cs; current := current cs - 1;
                        maxSize := maxSize cs |}, Some c)).
Proof.
  intros H. unfold cursor_ok in H. unfold Undo.
  destruct (Z.ltb_spec (current cs) 0) as [Hlt|Hge].
  - left. split; [lia|reflexivity].
  - right. unfold index.
    replace ((0 <=? current cs) && (current cs <? len (changes cs))) with true
      by (symmetry; apply andb_true_iff; split;
          [apply Z.leb_le|apply Z.ltb_lt]; lia).
    destruct (nth_error (changes cs) (Z.to_nat (current cs))) as [c|] eqn:E.
    + exists c. cbn [bind]. auto.
    + apply nth_error_None in E. unfold len in H. lia.
Qed.

Lemma Redo_spec cs :
  cursor_ok cs ->
  (current cs = len (changes cs) - 1 /\ Redo cs = Done (cs, None)) \/
  (exists c, current cs < len (changes cs) - 1 /\
     nth_error (changes cs) (Z.to_nat (current cs + 1)) = Some c /\
     Redo cs = Done ({| changes := changes cs; current := current cs + 1;
                        maxSize := maxSize cs |}, Some c)).
Proof.
  intros H. unfold cursor_ok in H. unfold Redo.
  destruct (Z.geb_spec (current cs) (len (changes cs) - 1)) as [Hge|Hlt].
  - left. split; [lia|reflexivity].
  - right. unfold index.
    replace ((0 <=? current cs + 1) && (current cs + 1 <? len (changes cs)))
      with true
      by (symmetry; apply andb_true_iff; split;
          [apply Z.leb_le|apply Z.ltb_lt]; lia).
    destruct (nth_error (changes cs) (Z.to_nat (current cs + 1))) as [c|] eqn:E.
    + exists c. cbn [bind]. auto.
    + apply nth_error_None in E. unfold len in H, Hlt. lia.
Qed.

(** C4: a push keeps the changes up to the cursor, appends the new one and
    moves the cursor onto it; when the list is then longer than [maxSize]
    the oldest change goes and the cursor steps back by one.  After
    [Push A; Push B; Undo; Push C] nothing can be redone, and [B] is gone
    from the history (as long as [B] is not also one of the changes that
    stay: the kept prefix, [A] and [C]). *)
Theorem C4_push_truncates_and_evicts :
  forall cs : ChangeStack,
    cursor_ok cs ->
    (forall c,
        let appended := firstn (Z.to_nat (current cs + 1)) (changes cs) ++ [c] in
        Push c cs =
        Done (if len appended >? maxSize cs
              then {| changes := tl appended; current := current cs + 1 - 1;
                      maxSize := maxSize cs |}
              else {| changes := appended; current := current cs + 1;
                      maxSize := maxSize cs |})) /\
    (forall A B C,
        exists cs1 cs2 cs3 r cs4,
          Push A cs = Done cs1 /\ Push B cs1 = Done cs2 /\
          Undo cs2 = Done (cs3, r) /\ Push C cs3 = Done cs4 /\
          CanRedo cs4 = false /\
          (B <> A -> B <> C ->
           ~ In B (firstn (Z.to_nat (current cs + 1)) (changes cs)) ->
           ~ In B (GetHistory cs4))).
Proof.
  intros cs Hok. split.
  - intros c. cbv zeta. apply (Push_pushed c cs Hok).
  - intros A B C.
    set (cs1 := pushed A cs). set (cs2 := pushed B cs1).
    assert (Hok1 : cursor_ok cs1) by (apply pushed_cursor_ok, Hok).
    assert (Hok2 : cursor_ok cs2) by (apply pushed_cursor_ok, Hok1).
    assert (Hundo : exists cs3 r, Undo cs2 = Done (cs3, r) /\ cursor_ok cs3 /\
               forall x, In x (kept cs3) -> In x (kept cs1)).
    { destruct (Undo_spec cs2 Hok2) as [[Hc Hu]|[c [Hc [Hn Hu]]]].
      - exists cs2, None. split; [exact Hu|]. split; [exact Hok2|].
        intros x Hx. unfold kept in Hx. rewrite Hc in Hx. destruct Hx.
      - eexists _, _. split; [exact Hu|]. split.
        + unfold cursor_ok in *. cbn [current changes] in *. lia.
        + intros x Hx. unfold kept in Hx. cbn [current changes] in Hx.
          replace (current cs2 - 1 + 1) with (current cs2) in Hx by lia.
          exact (pushed_before_cursor B cs1 x Hok1 Hx). }
    destruct Hundo as [cs3 [r [Hu [Hok3 Hk3]]]].
    exists cs1, cs2, cs3, r, (pushed C cs3).
    repeat split.
    + apply Push_pushed, Hok.
    + apply Push_pushed, Hok1.
    + exact Hu.
    + apply Push_pushed, Hok3.
    + unfold CanRedo. rewrite (pushed_cursor_last C cs3 Hok3). apply Z.ltb_irrefl.
    + intros HBA HBC HBk Hin. unfold GetHistory in Hin.
      apply pushed_changes_incl in Hin. destruct Hin as [Hin|Heq]; [|congruence].
      apply Hk3 in Hin. unfold kept in Hin. apply In_firstn in Hin.
      apply pushed_changes_incl in Hin. destruct Hin as [Hin|Heq]; [|congruence].
      exact (HBk Hin).
Qed.

Lemma C4_push_truncates_and_evicts_witness :
  cursor_ok (NewChangeStack 100) /\
  exists cs1 cs2 cs3 r cs4,
    Push change_a (NewChangeStack 100) = Done cs1 /\
    Push change_b cs1 = Done cs2 /\
    Undo cs2 = Done (cs3, r) /\ Push change_c cs3 = Done cs4 /\
    CanRedo cs4 = false /\ ~ In change_b (GetHistory cs4).
Proof.
  assert (H : cursor_ok (NewChangeStack 100)) by (unfold cursor_ok; cbn; lia).
  split; [exact H|].
  destruct (proj2 (C4_push_truncates_and_evicts (NewChangeStack 100) H)
              change_a change_b change_c)
    as (cs1 & cs2 & cs3 & r & cs4 & H1 & H2 & H3 & H4 & H5 & H6).
  exists cs1, cs2, cs3, r, cs4. repeat split; try assumption.
  apply H6; [discriminate|discriminate|].
  cbn. intros [].
Defined.

(** C5: undo does nothing and returns nothing at cursor -1, and otherwise
    returns the change under the cursor and moves the cursor down by one;
    redo does nothing and returns nothing with the cursor on the last change,
    and otherwise moves the cursor up by one and returns the change it then
    points to.  So a redo right after a successful undo returns the same
    change and puts the cursor back; neither touches the stored changes. *)
Theorem C5_undo_redo_inverse :
  forall cs : ChangeStack,
    cursor_ok cs ->
    (current cs = -1 -> Undo cs = Done (cs, None)) /\
    (current cs <> -1 ->
     exists c, nth_error (changes cs) (Z.to_nat (current cs)) = Some c /\
       Undo cs = Done ({| changes := changes cs; current := current cs - 1;
                          maxSize := maxSize cs |}, Some c)) /\
    (current cs = len (changes cs) - 1 -> Redo cs = Done (cs, None)) /\
    (current cs <> len (changes cs) - 1 ->
     exists c, nth_error (changes cs) (Z.to_nat (current cs + 1)) = Some c /\
       Redo cs = Done ({| changes := changes cs; current := current cs + 1;
                          maxSize := maxSize cs |}, Some c)) /\
    (forall cs1 c, Undo cs = Done (cs1, Some c) ->
       Redo cs1 = Done (cs, Some c) /\ current cs1 = current cs - 1) /\
    (forall cs1 r, Undo cs = Done (cs1, r) -> changes cs1 = changes cs) /\
    (forall cs1 r, Redo cs = Done (cs1, r) -> changes cs1 = changes cs).
Proof.
  intros cs Hok.
  destruct (Undo_spec cs Hok) as [[Hc Hu]|[c [Hc [Hn Hu]]]];
  destruct (Redo_spec cs Hok) as [[Hc' Hr]|[c' [Hc' [Hn' Hr]]]];
  (split; [intros ?; try lia; assumption|]);
  (split; [intros ?; try lia; eauto|]);
  (split; [intros ?; try lia; assumption|]);
  (split; [intros ?; try lia; eauto|]);
  (split; [|split; intros cs1 r E; rewrite ?Hu, ?Hr in E;
              injection E as <- _; reflexivity]);
  intros cs1 c1 E; rewrite Hu in E; try discriminate;
  injection E as <- <-; (split; [|reflexivity]).
  all: assert (Hok1 : cursor_ok {| changes := changes cs;
                                   current := current cs - 1;
                                   maxSize := maxSize cs |})
       by (unfold cursor_ok in *; cbn [changes current]; lia).
  all: destruct (Redo_spec _ Hok1) as [[Hx _]|[cx [_ [Hnx Hrx]]]];
       cbn [changes current maxSize] in *; [lia|].
  all: rewrite Hrx; replace (current cs - 1 + 1) with (current cs) in * by lia.
  all: rewrite Hn in Hnx; injection Hnx as <-; destruct cs; reflexivity.
Qed.

Lemma C5_undo_redo_inverse_witness :
  cursor_ok stack_ab /\
  forall cs1 c, Undo stack_ab = Done (cs1, Some c) ->
    Redo cs1 = Done (stack_ab, Some c) /\ current cs1 = current stack_ab - 1.
Proof.
  assert (H : cursor_ok stack_ab) by (unfold cursor_ok; cbn; lia).
  split; [exact H|].
  exact (proj1 (proj2 (proj2 (proj2 (proj2
           (C5_undo_redo_inverse stack_ab H)))))).
Defined.

End ChangeStackProperties.
(** ** Strings *)

Section StringFacts.

Lemma strings_eqb_eq (a b : gostring) : strings.eqb a b = true <-> a = b.
Proof.
  revert b. induction a as [|x a IH]; intros [|y b]; cbn; try easy.
  rewrite andb_true_iff, Ascii.eqb_eq, IH. split.
  - intros [-> ->]. reflexivity.
  - intros E. injection E as -> ->. auto.
Qed.

Lemma strings_eqb_refl (a : gostring) : strings.eqb a a = true.
Proof. now apply strings_eqb_eq. Qed.

Lemma strings_eqb_neq (a b : gostring) : strings.eqb a b = false <-> a <> b.
Proof.
  rewrite <- strings_eqb_eq. destruct (strings.eqb a b); split; congruence.
Qed.

Lemma strings_eqb_nil (a : gostring) : strings.eqb a [] = true <-> a = [].
Proof. apply strings_eqb_eq. Qed.

End StringFacts.

(** ** The document model *)

Section ModelProperties.
Import model modelSpec.

Lemma EntryType_eqb_eq (a b : EntryType) : EntryType_eqb a b = true <-> a = b.
Proof. destruct a, b; cbn; split; congruence. Qed.

Lemma matches_spec h key p :
  matches h key p = true <-> Type_ (h p) = KeyValueEntry /\ Key (h p) = key.
Proof.
  unfold matches. now rewrite andb_true_iff, EntryType_eqb_eq, strings_eqb_eq.
Qed.

Lemma write_same h p e : write h p e p = e.
Proof. unfold write. now rewrite Nat.eqb_refl. Qed.

Lemma write_other h p e q : q <> p -> write h p e q = h q.
Proof. unfold write. intros H. apply Nat.eqb_neq in H. now rewrite H. Qed.

(** *** Subsequences and the greedy scan of fuzzyMatch *)

Lemma Subseq_nil_r {A : Type} (p : list A) : Subseq p [] -> p = [].
Proof. inversion 1; reflexivity. Qed.

Lemma Subseq_tail {A : Type} (x : A) (p t : list A) :
  Subseq (x :: p) t -> Subseq p t.
Proof.
  intros H. remember (x :: p) as xp eqn:E. revert x p E.
  induction H as [t|y p' t H IH|y p' t H IH]; intros x p E.
  - discriminate.
  - injection E as -> ->. now apply Subseq_skip.
  - apply Subseq_skip. eapply IH. exact E.
Qed.

(** Taking the first occurrence loses nothing. *)
Lemma Subseq_cons_same {A : Type} (x : A) (p t : list A) :
  Subseq (x :: p) (x :: t) <-> Subseq p t.
Proof.
  split.
  - inversion 1; subst; [assumption|]. eapply Subseq_tail; eassumption.
  - apply Subseq_take.
Qed.

Lemma Subseq_cons_diff {A : Type} (x y : A) (p t : list A) :
  x <> y -> (Subseq (x :: p) (y :: t) <-> Subseq (x :: p) t).
Proof.
  intros Hxy. split.
  - inversion 1; subst; [congruence|assumption].
  - apply Subseq_skip.
Qed.

Lemma skipn_nth_error {A : Type} (l : list A) (n : nat) (x : A) :
  nth_error l n = Some x -> skipn n l = x :: skipn (S n) l.
Proof.
  revert l. induction n as [|n IH]; intros [|a l]; cbn; try discriminate.
  - now intros [= ->].
  - apply IH.
Qed.

Lemma fuzzyMatch_loop_spec (text pattern : gostring) (pi : nat) :
  (pi <= length pattern)%nat ->
  (fuzzyMatch_loop text pattern pi = length pattern <->
   Subseq (skipn pi pattern) text).
Proof.
  revert pi. induction text as [|t text IH]; intros pi Hpi; cbn [fuzzyMatch_loop].
  - split.
    + intros ->. rewrite skipn_all. constructor.
    + intros H. apply Subseq_nil_r in H.
      apply (f_equal (@length ascii)) in H. rewrite length_skipn in H.
      cbn in H. lia.
  - destruct (nth_error pattern pi) as [p|] eqn:E.
    + assert (Hlt : (pi < length pattern)%nat)
        by (apply nth_error_Some; congruence).
      rewrite (skipn_nth_error _ _ _ E).
      destruct (Ascii.eqb_spec t p) as [->|Hne].
      * rewrite IH by lia. now rewrite Subseq_cons_same.
      * rewrite IH by lia. rewrite (skipn_nth_error _ _ _ E).
        rewrite Subseq_cons_diff by congruence. reflexivity.
    + apply nth_error_None in E. assert (pi = length pattern) by lia. subst pi.
      rewrite skipn_all. split; [constructor|reflexivity].
Qed.

Lemma fuzzyMatch_spec (text pattern : gostring) :
  fuzzyMatch text pattern = true <-> Subseq pattern text.
Proof.
  unfold fuzzyMatch. destruct (strings.eqb pattern []) eqn:E.
  - apply strings_eqb_eq in E. subst. split; [constructor|reflexivity].
  - rewrite Nat.eqb_eq. apply (fuzzyMatch_loop_spec text pattern 0). lia.
Qed.

Lemma filter_filter {A : Type} (f g : A -> bool) (l : list A) :
  filter g (filter f l) = filter (fun x => f x && g x) l.
Proof.
  induction l as [|a l IH]; cbn; [reflexivity|].
  destruct (f a); cbn; [destruct (g a)|]; now rewrite IH.
Qed.

(** C8: with an empty query the filter returns the key-value entries of the
    document, in document order; with a non-empty one it returns, in
    document order, exactly the key-value entries for which the lower-cased
    query is a subsequence of the lower-cased key or of the lower-cased
    value (the elements compared are the bytes of the strings). *)
Theorem C8_filter_is_fuzzy_subsequence :
  forall (h : Heap) (ef : EnvFile) (query : gostring),
    (query = [] ->
     FilterEntries h ef query = filter (isKV h) (Entries ef)) /\
    (query <> [] ->
     forall f : loc -> bool,
       (forall p, f p = true <->
                  Type_ (h p) = KeyValueEntry /\ fuzzy h query p) ->
       FilterEntries h ef query = filter f (Entries ef)).
Proof.
  intros h ef query. unfold FilterEntries. split.
  - intros ->. reflexivity.
  - intros Hq f Hf. apply strings_eqb_neq in Hq. rewrite Hq.
    rewrite filter_filter. apply filter_ext. intros p.
    apply eq_true_iff_eq. rewrite Hf, andb_true_iff, orb_true_iff.
    rewrite EntryType_eqb_eq, !fuzzyMatch_spec. reflexivity.
Qed.

(** *** Update, get and delete *)

Lemma UpdateEntry_loop_spec h es key value :
  ((forall q, In q es -> matches h key q = false) /\
   UpdateEntry_loop h es key value = (h, false)) \/
  (exists pre p post,
      es = pre ++ p :: post /\
      (forall q, In q pre -> matches h key q = false) /\
      matches h key p = true /\
      UpdateEntry_loop h es key value =
      (write h p (with_Value (h p) value), true)).
Proof.
  induction es as [|e es IH]; cbn [UpdateEntry_loop].
  - left. split; [intros q []|reflexivity].
  - destruct (matches h key e) eqn:E.
    + right. exists [], e, es. repeat split; [intros q []|assumption].
    + destruct IH as [[Hno Hr]|(pre & p & post & -> & Hno & Hp & Hr)].
      * left. split; [|assumption]. intros q [<-|Hq]; auto.
      * right. exists (e :: pre), p, post. repeat split; try assumption.
        intros q [<-|Hq]; auto.
Qed.

(** C9: an update changes the value of the first key-value entry with the
    given key, and nothing else: that entry keeps its other fields, every
    other entry of the store is as it was, and the document lists the same
    entries.  It returns true exactly when there is such an entry, and when
    it returns false nothing has changed. *)
Theorem C9_update_first_match_only :
  forall (h : Heap) (ef : EnvFile) (key value : gostring),
    let (h', found) := UpdateEntry h ef key value in
    (found = true <->
     exists p, In p (Entries ef) /\
               Type_ (h p) = KeyValueEntry /\ Key (h p) = key) /\
    (found = false -> h' = h) /\
    (found = true ->
     exists pre p post,
       Entries ef = pre ++ p :: post /\
       (forall q, In q pre ->
                  ~ (Type_ (h q) = KeyValueEntry /\ Key (h q) = key)) /\
       Type_ (h p) = KeyValueEntry /\ Key (h p) = key /\
       Value (h' p) = value /\
       Type_ (h' p) = Type_ (h p) /\ Key (h' p) = Key (h p) /\
       Comment (h' p) = Comment (h p) /\ Line (h' p) = Line (h p) /\
       Exported (h' p) = Exported (h p) /\
       IsSecret (h' p) = IsSecret (h p) /\
       (forall q, q <> p -> h' q = h q)).
Proof.
  intros h ef key value. unfold UpdateEntry.
  destruct (UpdateEntry_loop_spec h (Entries ef) key value)
    as [[Hno ->]|(pre & p & post & Hes & Hno & Hp & ->)].
  - split; [|split; [reflexivity|discriminate]].
    split; [discriminate|]. intros (p & Hin & Hp).
    apply matches_spec in Hp. rewrite (Hno p Hin) in Hp. discriminate.
  - split; [|split; [discriminate|]].
    + split; [|reflexivity]. intros _. exists p. split.
      * rewrite Hes. apply in_or_app. right. now left.
      * now apply matches_spec.
    + intros _. exists pre, p, post. apply matches_spec in Hp as Hp'.
      destruct Hp' as [Hty Hk]. rewrite write_same. cbn.
      repeat split; try assumption; try reflexivity.
      * intros q Hq Hm. apply matches_spec in Hm.
        rewrite (Hno q Hq) in Hm. discriminate.
      * intros q Hq. now apply write_other.
Qed.

Lemma GetEntry_loop_matches h es key p :
  GetEntry_loop h es key = Some p -> In p es /\ matches h key p = true.
Proof.
  induction es as [|e es IH]; cbn; [discriminate|].
  destruct (matches h key e) eqn:E.
  - intros [= <-]. auto.
  - intros H. destruct (IH H). auto.
Qed.

Lemma DeleteEntry_loop_spec h done rest key :
  ((forall q, In q rest -> matches h key q = false) /\
   DeleteEntry_loop h (done ++ rest) rest (length done) key = None) \/
  (exists pre p post,
      rest = pre ++ p :: post /\
      (forall q, In q pre -> matches h key q = false) /\
      matches h key p = true /\
      DeleteEntry_loop h (done ++ rest) rest (length done) key =
      Some (done ++ pre ++ post)).
Proof.
  revert done. induction rest as [|e rest IH]; intros done;
    cbn [DeleteEntry_loop].
  - left. split; [intros q []|reflexivity].
  - destruct (matches h key e) eqn:E.
    + right. exists [], e, rest. repeat split; [intros q []|assumption|].
      f_equal. rewrite firstn_app, firstn_all, Nat.sub_diag. cbn [firstn].
      rewrite app_nil_r. f_equal.
      rewrite skipn_app, skipn_all2 by lia.
      replace (length done + 1 - length done)%nat with 1%nat by lia.
      reflexivity.
    + specialize (IH (done ++ [e])). rewrite <- app_assoc in IH.
      cbn [app] in IH. rewrite length_app in IH. cbn [length] in IH.
      replace (length done + 1)%nat with (S (length done)) in IH by lia.
      destruct IH as [[Hno Hr]|(pre & p & post & -> & Hno & Hp & Hr)].
      * left. split; [|assumption]. intros q [<-|Hq]; auto.
      * right. exists (e :: pre), p, post. repeat split; try assumption.
        -- intros q [<-|Hq]; auto.
        -- rewrite Hr. now rewrite <- app_assoc.
Qed.

Lemma filter_drop_one {A : Type} (f : A -> bool) (pre post : list A) (p : A) :
  f p = false -> filter f (pre ++ p :: post) = filter f (pre ++ post).
Proof. intros H. rewrite !filter_app. cbn. now rewrite H. Qed.

(** C10: the key-based operations leave comments and blank lines alone,
    whatever their [Key] field holds: a lookup returns a key-value entry or
    nothing; an update writes to no comment and no blank line, changes the
    variant of no entry and leaves the list of entries as it is; a delete
    removes a key-value entry or nothing, so the comments and blank lines
    of the document are the same, in the same order. *)
Theorem C10_comments_and_blanks_untouched :
  forall (h : Heap) (ef : EnvFile) (key value : gostring),
    (forall p, GetEntry h ef key = Some p ->
               In p (Entries ef) /\ Type_ (h p) = KeyValueEntry) /\
    (forall q, Type_ (h q) <> KeyValueEntry ->
               fst (UpdateEntry h ef key value) q = h q) /\
    (forall q, Type_ (fst (UpdateEntry h ef key value) q) = Type_ (h q)) /\
    filter (fun p => negb (isKV h p)) (Entries (fst (DeleteEntry h ef key))) =
    filter (fun p => negb (isKV h p)) (Entries ef) /\
    (forall p, In p (Entries ef) -> Type_ (h p) <> KeyValueEntry ->
               In p (Entries (fst (DeleteEntry h ef key)))).
Proof.
  intros h ef key value.
  assert (Hupd : forall q,
             fst (UpdateEntry h ef key value) q = h q \/
             (Type_ (h q) = KeyValueEntry /\
              fst (UpdateEntry h ef key value) q = with_Value (h q) value)).
  { intros q. unfold UpdateEntry.
    destruct (UpdateEntry_loop_spec h (Entries ef) key value)
      as [[_ ->]|(pre & p & post & _ & _ & Hp & ->)]; cbn [fst].
    - now left.
    - destruct (Nat.eq_dec q p) as [->|Hne].
      + right. rewrite write_same. apply matches_spec in Hp. tauto.
      + left. now apply write_other. }
  assert (Hdel : Entries (fst (DeleteEntry h ef key)) = Entries ef \/
                 exists pre p post, Entries ef = pre ++ p :: post /\
                   isKV h p = true /\
                   Entries (fst (DeleteEntry h ef key)) = pre ++ post).
  { unfold DeleteEntry.
    destruct (DeleteEntry_loop_spec h [] (Entries ef) key)
      as [[_ Hr]|(pre & p & post & Hes & _ & Hp & Hr)];
      cbn [app length] in Hr; rewrite Hr; cbn [fst].
    - now left.
    - right. exists pre, p, post. repeat split; try assumption.
      unfold matches in Hp. apply andb_true_iff in Hp. apply Hp. }
  repeat split.
  - apply (GetEntry_loop_matches h _ key p H).
  - apply GetEntry_loop_matches in H as [_ H]. now apply matches_spec in H.
  - intros q Hq. destruct (Hupd q) as [E|[E _]]; [exact E|contradiction].
  - intros q. destruct (Hupd q) as [->|[_ ->]]; reflexivity.
  - destruct Hdel as [->|(pre & p & post & -> & Hp & ->)]; [reflexivity|].
    symmetry. apply filter_drop_one. now rewrite Hp.
  - intros p Hin Hty.
    destruct Hdel as [->|(pre & p' & post & E & Hp & ->)]; [assumption|].
    rewrite E in Hin. apply in_app_or in Hin. apply in_or_app.
    destruct Hin as [Hin|[<-|Hin]]; auto.
    unfold isKV in Hp. apply EntryType_eqb_eq in Hp. contradiction.
Qed.

End ModelProperties.

(** ** Prefixes, indices and lines *)

Section StringsProperties.
Import stringsSpec.

Lemma HasPrefix_spec (s p : gostring) :
  strings.HasPrefix s p = true <-> exists t, s = p ++ t.
Proof.
  revert s. induction p as [|x p IH]; intros s.
  - destruct s; cbn; split; eauto.
  - destruct s as [|c s]; cbn [strings.HasPrefix].
    + split; [discriminate|]. intros [t E]. discriminate.
    + rewrite andb_true_iff, Ascii.eqb_eq, IH. split.
      * intros [-> [t ->]]. now exists t.
      * intros [t E]. injection E as -> ->. eauto.
Qed.

Lemma HasPrefix_app (p t : gostring) : strings.HasPrefix (p ++ t) p = true.
Proof. apply HasPrefix_spec. now exists t. Qed.

(** A prefix of [a ++ x :: b] lies inside [a] or holds [x]. *)
Lemma HasPrefix_app_cons (a b p : gostring) (x : ascii) :
  strings.HasPrefix (a ++ x :: b) p = true ->
  strings.HasPrefix a p = true \/ In x p.
Proof.
  revert p. induction a as [|c a IH]; intros [|y p]; cbn; auto.
  - rewrite andb_true_iff, Ascii.eqb_eq. intros [-> _]. auto.
  - rewrite !andb_true_iff. intros [Hc H]. destruct (IH p H); auto.
Qed.

(** A prefix of a prefix. *)
Lemma HasPrefix_app_l (a b p : gostring) :
  strings.HasPrefix a p = true -> strings.HasPrefix (a ++ b) p = true.
Proof.
  rewrite !HasPrefix_spec. intros [t ->]. exists (t ++ b).
  now rewrite app_assoc.
Qed.

Lemma Index_cons_absent (a b : gostring) (x : ascii) :
  ~ In x a -> strings.Index (a ++ x :: b) [x] = len a.
Proof.
  induction a as [|c a IH]; intros Hx.
  - cbn. rewrite Ascii.eqb_refl. destruct b; reflexivity.
  - cbn [app strings.Index strings.HasPrefix].
    destruct (Ascii.eqb_spec c x) as [->|Hne]; [exfalso; apply Hx; now left|].
    cbn [andb]. rewrite IH by (intros H; apply Hx; now right).
    unfold len. cbn [length].
    replace (Z.of_nat (length a) =? -1) with false
      by (symmetry; apply Z.eqb_neq; lia). lia.
Qed.

Lemma Index_absent (s : gostring) (x : ascii) :
  ~ In x s -> strings.Index s [x] = -1.
Proof.
  induction s as [|c s IH]; intros Hx; [reflexivity|].
  cbn [strings.Index strings.HasPrefix].
  destruct (Ascii.eqb_spec c x) as [->|Hne]; [exfalso; apply Hx; now left|].
  cbn [andb]. rewrite IH by (intros H; apply Hx; now right). reflexivity.
Qed.

(** *** Lines *)

Lemma Split_nonempty (s : gostring) (sep : ascii) : strings.Split s sep <> [].
Proof.
  induction s as [|c s IH]; cbn; [discriminate|].
  destruct (Ascii.eqb c sep); [discriminate|].
  destruct (strings.Split s sep); [congruence|discriminate].
Qed.

Lemma Split_no_sep (s : gostring) (sep : ascii) :
  Forall (fun piece => ~ In sep piece) (strings.Split s sep).
Proof.
  induction s as [|c s IH]; cbn [strings.Split].
  - constructor; [intros []|constructor].
  - destruct (Ascii.eqb_spec c sep) as [->|Hne].
    + constructor; [intros []|exact IH].
    + destruct (strings.Split s sep) as [|piece pieces].
      * constructor; [|constructor]. intros [E|[]]. congruence.
      * inversion IH; subst. constructor; [|assumption].
        intros [E|Hin]; [congruence|contradiction].
Qed.

(** Lines, each ended by a newline, split back into themselves and the
    empty string after the last newline. *)
Lemma Split_lines (ls : list gostring) (sep : ascii) :
  Forall (fun l => ~ In sep l) ls ->
  strings.Split (flat_map (fun l => l ++ [sep]) ls) sep = ls ++ [[]].
Proof.
  induction 1 as [|l ls Hl Hls IH]; [reflexivity|].
  cbn [flat_map app]. rewrite <- app_assoc. cbn [app].
  induction l as [|c l IHl]; cbn [app strings.Split].
  - rewrite Ascii.eqb_refl, IH. reflexivity.
  - destruct (Ascii.eqb_spec c sep) as [->|Hne];
      [exfalso; apply Hl; now left|].
    rewrite IHl by (intros H; apply Hl; now right). reflexivity.
Qed.

(** *** Trimming *)

Lemma stripOne_Some (encs : list gostring) (s s' : gostring) :
  strings.stripOne encs s = Some s' ->
  exists enc, In enc encs /\ s = enc ++ s'.
Proof.
  induction encs as [|enc encs IH]; cbn [strings.stripOne]; [discriminate|].
  destruct (strings.HasPrefix s enc) eqn:E.
  - intros [= <-]. exists enc. split; [now left|].
    apply HasPrefix_spec in E as [t ->].
    now rewrite skipn_app, skipn_all, Nat.sub_diag.
  - intros H. destruct (IH H) as [enc' [Hin ->]]. exists enc'.
    split; [now right|reflexivity].
Qed.

Lemma stripOne_None (encs : list gostring) (s : gostring) :
  strings.stripOne encs s = None <->
  forall enc, In enc encs -> strings.HasPrefix s enc = false.
Proof.
  induction encs as [|enc encs IH]; cbn [strings.stripOne].
  - split; [intros _ enc []|reflexivity].
  - destruct (strings.HasPrefix s enc) eqn:E.
    + split; [discriminate|]. intros H. rewrite (H enc) in E; [discriminate|].
      now left.
    + rewrite IH. split.
      * intros H enc' [<-|Hin]; auto.
      * intros H enc' Hin. apply H. now right.
Qed.

Lemma stripAll_fixed (steps : nat) (encs : list gostring) (s : gostring) :
  strings.stripOne encs s = None -> strings.stripAll steps encs s = s.
Proof. destruct steps; cbn; [reflexivity|]. now intros ->. Qed.

(** What is left is a suffix. *)
Lemma stripAll_suffix (steps : nat) (encs : list gostring) (s : gostring) :
  exists pre, s = pre ++ strings.stripAll steps encs s.
Proof.
  revert s. induction steps as [|steps IH]; intros s; cbn [strings.stripAll].
  - now exists [].
  - destruct (strings.stripOne encs s) as [s'|] eqn:E; [|now exists []].
    apply stripOne_Some in E as [enc [_ ->]].
    destruct (IH s') as [pre Hpre]. exists (enc ++ pre).
    rewrite <- app_assoc. now rewrite <- Hpre.
Qed.

(** With as many steps as bytes, nothing more can be stripped. *)
Lemma stripAll_done (steps : nat) (encs : list gostring) (s : gostring) :
  Forall (fun enc => enc <> []) encs ->
  (length s <= steps)%nat ->
  strings.stripOne encs (strings.stripAll steps encs s) = None.
Proof.
  intros Hne. revert s. induction steps as [|steps IH]; intros s Hlen.
  - destruct s; [|cbn in Hlen; lia]. cbn [strings.stripAll].
    apply stripOne_None. intros enc Hin.
    rewrite Forall_forall in Hne. specialize (Hne enc Hin).
    destruct enc; [congruence|reflexivity].
  - cbn [strings.stripAll].
    destruct (strings.stripOne encs s) as [s'|] eqn:E; [|exact E].
    apply IH. apply stripOne_Some in E as [enc [Hin ->]].
    rewrite Forall_forall in Hne. specialize (Hne enc Hin).
    rewrite length_app in Hlen. destruct enc; [congruence|cbn in *; lia].
Qed.

(** Stripping leaves the string alone only when there is nothing to strip. *)
Lemma stripAll_id (encs : list gostring) (s : gostring) :
  Forall (fun enc => enc <> []) encs ->
  strings.stripAll (length s) encs s = s ->
  strings.stripOne encs s = None.
Proof.
  intros Hne H.
  pose proof (stripAll_done (length s) encs s Hne (le_n _)) as D.
  now rewrite H in D.
Qed.

Lemma spaceEncodings_check (f : gostring -> bool) :
  forallb f strings.spaceEncodings = true ->
  forall enc, In enc strings.spaceEncodings -> f enc = true.
Proof. intros H. now apply forallb_forall. Qed.

Lemma revEncodings_check (f : gostring -> bool) :
  forallb f revEncodings = true ->
  forall enc, In enc revEncodings -> f enc = true.
Proof. intros H. now apply forallb_forall. Qed.

Lemma spaceEncodings_nonempty :
  Forall (fun enc : gostring => enc <> []) strings.spaceEncodings.
Proof.
  apply Forall_forall. intros enc Hin.
  apply (spaceEncodings_check (fun enc => negb (strings.eqb enc [])))
    in Hin; [|vm_compute; reflexivity].
  intros ->. discriminate.
Qed.

Lemma revEncodings_nonempty :
  Forall (fun enc : gostring => enc <> []) revEncodings.
Proof.
  apply Forall_forall. intros enc Hin.
  apply (revEncodings_check (fun enc => negb (strings.eqb enc [])))
    in Hin; [|vm_compute; reflexivity].
  intros ->. discriminate.
Qed.

Lemma TrimLeft_suffix (s : gostring) : exists pre, s = pre ++ strings.TrimLeft s.
Proof. apply stripAll_suffix. Qed.

Lemma TrimRight_prefix (s : gostring) :
  exists post, s = strings.TrimRight s ++ post.
Proof.
  unfold strings.TrimRight.
  destruct (stripAll_suffix (length s) revEncodings (rev s)) as [pre H].
  exists (rev pre). fold revEncodings. rewrite <- rev_app_distr, <- H.
  now rewrite rev_involutive.
Qed.

Lemma TrimLeft_done (s : gostring) :
  strings.stripOne strings.spaceEncodings (strings.TrimLeft s) = None.
Proof. apply stripAll_done; [apply spaceEncodings_nonempty|lia]. Qed.

Lemma TrimRight_done (s : gostring) :
  strings.stripOne revEncodings (rev (strings.TrimRight s)) = None.
Proof.
  unfold strings.TrimRight. rewrite rev_involutive.
  apply stripAll_done; [apply revEncodings_nonempty|].
  rewrite length_rev. lia.
Qed.

(** A string without white space at either end is left as it is... *)
Lemma TrimSpace_trimmed (s : gostring) : trimmed s -> strings.TrimSpace s = s.
Proof.
  intros [Hl Hr]. unfold strings.TrimSpace, strings.TrimLeft.
  rewrite (stripAll_fixed _ _ _ Hl). unfold strings.TrimRight.
  fold revEncodings. rewrite (stripAll_fixed _ _ _ Hr).
  apply rev_involutive.
Qed.

(** ... and only such a string is. *)
Lemma TrimSpace_fixed (s : gostring) : strings.TrimSpace s = s -> trimmed s.
Proof.
  intros H. unfold strings.TrimSpace in H.
  destruct (TrimLeft_suffix s) as [pre Hpre].
  destruct (TrimRight_prefix (strings.TrimLeft s)) as [post Hpost].
  rewrite H in Hpost.
  assert (Hlen : length s = (length pre + (length s + length post))%nat).
  { rewrite Hpre at 1. rewrite Hpost. now rewrite !length_app. }
  assert (pre = []) by (destruct pre; [reflexivity|cbn in Hlen; lia]).
  subst pre. cbn [app] in Hpre. rewrite <- Hpre in H.
  split.
  - apply stripAll_id; [apply spaceEncodings_nonempty|]. now symmetry.
  - apply stripAll_id; [apply revEncodings_nonempty|].
    rewrite length_rev. unfold strings.TrimRight in H. fold revEncodings in H.
    apply (f_equal (@rev ascii)) in H. now rewrite rev_involutive in H.
Qed.

Lemma TrimSpace_is_trimmed (s : gostring) : trimmed (strings.TrimSpace s).
Proof.
  split; [|apply TrimRight_done].
  unfold strings.TrimSpace. apply stripOne_None. intros enc Hin.
  destruct (strings.HasPrefix (strings.TrimRight (strings.TrimLeft s)) enc)
    eqn:E; [|reflexivity].
  destruct (TrimRight_prefix (strings.TrimLeft s)) as [post Hpost].
  apply (HasPrefix_app_l _ post) in E. rewrite <- Hpost in E.
  pose proof (TrimLeft_done s) as D. rewrite stripOne_None in D.
  rewrite (D enc Hin) in E. discriminate.
Qed.

Lemma TrimSpace_idempotent (s : gostring) :
  strings.TrimSpace (strings.TrimSpace s) = strings.TrimSpace s.
Proof. apply TrimSpace_trimmed, TrimSpace_is_trimmed. Qed.

Lemma TrimSpace_nil : strings.TrimSpace [] = [].
Proof. reflexivity. Qed.

End StringsProperties.
(** ** The parser *)

Section ParserProperties.
Import model parser parserSpec.

(** *** Quoted values *)

Lemma unescape_escaped (c : ascii) : unescape c = escaped c.
Proof.
  unfold unescape, escaped, newline, tab, cr.
  destruct (Ascii.eqb c "n"); [reflexivity|].
  destruct (Ascii.eqb c "t"); [reflexivity|].
  destruct (Ascii.eqb c "r"); [reflexivity|].
  destruct (Ascii.eqb_spec c backslash) as [->|_]; [reflexivity|].
  destruct (Ascii.eqb c dquote || Ascii.eqb c squote); reflexivity.
Qed.

Lemma scanQuoted_tokens (quote : ascii) (toks : list token)
      (rest result : gostring) :
  quote <> backslash ->
  Forall (plain_ok quote) toks ->
  scanQuoted quote (render toks ++ quote :: rest) result =
  (result ++ map decode1 toks, true).
Proof.
  intros Hq Hok. revert result.
  induction Hok as [|t toks Ht Hok IH]; intros result.
  - cbn [render flat_map app map]. rewrite app_nil_r. cbn [scanQuoted].
    apply Ascii.eqb_neq in Hq. rewrite Hq, Ascii.eqb_refl.
    destruct rest; reflexivity.
  - destruct t as [c|c]; cbn [render flat_map render1 app map decode1].
    + destruct Ht as [Hc1 Hc2]. fold (render toks).
      change (scanQuoted quote (c :: (render toks ++ quote :: rest)) result =
              (result ++ c :: map decode1 toks, true)).
      apply Ascii.eqb_neq in Hc1, Hc2.
      destruct (render toks ++ quote :: rest) as [|n l] eqn:E.
      * destruct (render toks); discriminate.
      * cbn [scanQuoted]. rewrite Hc1, Hc2.
        change (scanQuoted quote (n :: l) (result ++ [c]) =
                (result ++ c :: map decode1 toks, true)).
        rewrite IH, <- app_assoc. reflexivity.
    + fold (render toks).
      change (scanQuoted quote
                (backslash :: c :: (render toks ++ quote :: rest)) result =
              (result ++ escaped c :: map decode1 toks, true)).
      cbn [scanQuoted]. rewrite Ascii.eqb_refl, IH, <- app_assoc.
      now rewrite unescape_escaped.
Qed.

(** C3, as the code has it: in a value that begins with a double quote or
    with a single quote alike, the reader decodes the backslash escapes up
    to the matching closing quote ([\n] newline, [\t] tab, [\r] carriage
    return, any other [\x] the byte [x], so an escaped backslash is a
    backslash and an escaped quote the quote) and takes every other byte as
    it is. *)
Theorem C3_quoted_value_escapes :
  forall (quote : ascii) (toks : list token) (rest : gostring)
         (lines : list gostring) (currentLine : nat),
    quote = dquote \/ quote = squote ->
    Forall (plain_ok quote) toks ->
    parseQuotedValue (quote :: render toks ++ quote :: rest) quote
                     lines currentLine
    = (map decode1 toks, 0%nat).
Proof.
  intros quote toks rest lines currentLine Hq Hok.
  unfold parseQuotedValue. cbn [skipn].
  assert (Hb : quote <> backslash) by (destruct Hq; subst; discriminate).
  destruct (skipn (currentLine + 1) lines);
    cbn [quotedLines]; now rewrite (scanQuoted_tokens quote toks rest [] Hb Hok).
Qed.

(** The value ['a\nb'], in single quotes, and its tokens. *)
Lemma C3_quoted_value_escapes_witness :
  parseQuotedValue (str "'a\nb' # x") squote [str "K='a\nb' # x"] 0
  = (["a"; "010"; "b"]%char, 0%nat).
Proof.
  apply (C3_quoted_value_escapes squote [Plain "a"; Esc "n"; Plain "b"]
           (str " # x") [str "K='a\nb' # x"] 0%nat).
  - right. reflexivity.
  - repeat constructor; discriminate.
Defined.

(** The claim C3 reads a single-quoted value verbatim; the reader decodes
    its escapes. *)
Lemma C3_single_quotes_decoded :
  fst (parseValue (str "'a\nb'") [str "K='a\nb'"] 0)
  = ["a"; "010"; "b"]%char /\
  fst (parseValue (str "'a\nb'") [str "K='a\nb'"] 0)
  <> ["a"; "\"; "n"; "b"]%char.
Proof. split; [vm_compute; reflexivity|vm_compute; discriminate]. Qed.

(** *** Runes *)

(** Case analysis along [DecodeRuneInString]. *)
Ltac decode_cases :=
  unfold utf8.DecodeRuneInString;
  repeat match goal with
         | |- context [match ?l with [] => _ | _ :: _ => _ end] =>
           is_var l; destruct l
         | |- context [if ?b then _ else _] => destruct b eqn:?
         | |- context [match utf8.first ?x with _ => _ end] =>
           destruct (utf8.first x) as [[[? ?] ?]|] eqn:?
         end.

Lemma decode_size (s : gostring) :
  s <> [] ->
  (1 <= snd (utf8.DecodeRuneInString s) <= 4)%nat.
Proof.
  intros Hs. destruct s as [|c0 s]; [congruence|]. clear Hs.
  decode_cases; cbn [snd]; lia.
Qed.

Lemma first_spec (s0 : Z) (sz : nat) (lo hi : Z) :
  utf8.first s0 = Some (sz, lo, hi) ->
  0x80 <= lo /\ (2 <= sz <= 4)%nat.
Proof.
  unfold utf8.first.
  repeat match goal with
         | |- context [if ?b then _ else _] => destruct b
         end; intros [= <- <- <-] || discriminate; lia.
Qed.

Lemma decode_bytes (c0 : ascii) (s : gostring) (r : Z) (n : nat) :
  utf8.DecodeRuneInString (c0 :: s) = (r, n) ->
  (n = 1%nat /\ r = utf8.byteZ c0 /\ utf8.byteZ c0 < 0x80) \/
  (n = 1%nat /\ r = utf8.RuneError) \/
  ((2 <= n <= length (c0 :: s))%nat /\
   Forall (fun b => 0x80 <= utf8.byteZ b) (firstn n (c0 :: s))).
Proof.
  unfold utf8.DecodeRuneInString.
  destruct (utf8.byteZ c0 <? utf8.RuneSelf) eqn:E0.
  { intros [= <- <-]. left. apply Z.ltb_lt in E0. unfold utf8.RuneSelf in E0. auto. }
  apply Z.ltb_ge in E0. unfold utf8.RuneSelf in E0.
  destruct (utf8.first (utf8.byteZ c0)) as [[[sz lo] hi]|] eqn:F;
    [|intros [= <- <-]; auto].
  apply first_spec in F as [Hlo Hsz].
  destruct (length (c0 :: s) <? sz)%nat eqn:El; [intros [= <- <-]; auto|].
  apply Nat.ltb_ge in El.
  destruct s as [|c1 s]; [intros [= <- <-]; auto|].
  destruct ((utf8.byteZ c1 <? lo) || (hi <? utf8.byteZ c1)) eqn:E1;
    [intros [= <- <-]; auto|].
  apply orb_false_iff in E1 as [E1 _]. apply Z.ltb_ge in E1.
  destruct (sz <=? 2)%nat eqn:S2.
  { intros [= <- <-]. right. right. split; [cbn [length] in *; lia|].
    cbn [firstn]. repeat constructor; lia. }
  destruct s as [|c2 s]; [intros [= <- <-]; auto|].
  destruct ((utf8.byteZ c2 <? utf8.locb) || (utf8.hicb <? utf8.byteZ c2)) eqn:E2;
    [intros [= <- <-]; auto|].
  apply orb_false_iff in E2 as [E2 _]. apply Z.ltb_ge in E2. unfold utf8.locb in E2.
  destruct (sz <=? 3)%nat eqn:S3.
  { intros [= <- <-]. right. right. split; [cbn [length] in *; lia|].
    cbn [firstn]. repeat constructor; lia. }
  destruct s as [|c3 s]; [intros [= <- <-]; auto|].
  destruct ((utf8.byteZ c3 <? utf8.locb) || (utf8.hicb <? utf8.byteZ c3)) eqn:E3;
    [intros [= <- <-]; auto|].
  apply orb_false_iff in E3 as [E3 _]. apply Z.ltb_ge in E3. unfold utf8.locb in E3.
  intros [= <- <-]. right. right. split; [cbn [length] in *; lia|].
  cbn [firstn]. repeat constructor; lia.
Qed.

Lemma decode_app (s t : gostring) (r : Z) (n : nat) :
  utf8.DecodeRuneInString s = (r, n) ->
  r <> utf8.RuneError ->
  utf8.DecodeRuneInString (s ++ t) = (r, n).
Proof.
  intros H Hr.
  assert (Hcontra : forall k, utf8.DecodeRuneInString s <> (utf8.RuneError, k))
    by (intros k E; rewrite E in H; congruence).
  clear Hr. revert H Hcontra.
  unfold utf8.DecodeRuneInString.
  destruct s as [|c0 s]; [intros _ Hc; now destruct (Hc 0%nat)|].
  cbn [app].
  destruct (utf8.byteZ c0 <? utf8.RuneSelf); [auto|].
  destruct (utf8.first (utf8.byteZ c0)) as [[[sz lo] hi]|];
    [|intros _ Hc; now destruct (Hc 1%nat)].
  destruct (length (c0 :: s) <? sz)%nat eqn:El;
    [intros _ Hc; now destruct (Hc 1%nat)|].
  apply Nat.ltb_ge in El.
  replace (length (c0 :: s ++ t) <? sz)%nat with false
    by (symmetry; apply Nat.ltb_ge; cbn [length] in *; rewrite length_app; lia).
  destruct s as [|c1 s]; [intros _ Hc; now destruct (Hc 1%nat)|]. cbn [app].
  destruct ((utf8.byteZ c1 <? lo) || (hi <? utf8.byteZ c1)); [auto|].
  destruct (sz <=? 2)%nat; [auto|].
  destruct s as [|c2 s]; [intros _ Hc; now destruct (Hc 1%nat)|]. cbn [app].
  destruct ((utf8.byteZ c2 <? utf8.locb) || (utf8.hicb <? utf8.byteZ c2)); [auto|].
  destruct (sz <=? 3)%nat; [auto|].
  destruct s as [|c3 s]; [intros _ Hc; now destruct (Hc 1%nat)|]. cbn [app].
  auto.
Qed.

Lemma rangeFrom_indices (steps : nat) (i : Z) (s : gostring) :
  Forall (fun p => i <= fst p) (utf8.rangeFrom steps i s).
Proof.
  revert i s. induction steps as [|steps IH]; intros i [|c s];
    cbn [utf8.rangeFrom]; try constructor.
  destruct (utf8.DecodeRuneInString (c :: s)) as [ch size].
  constructor; [cbn; lia|].
  eapply Forall_impl; [|apply IH]. cbn. intros p Hp. lia.
Qed.

Lemma isValidKey_loop_later (l : list (Z * Z)) :
  Forall (fun p => 0 < fst p) l ->
  isValidKey_loop l = forallb identifierPart (map snd l).
Proof.
  induction 1 as [|[i ch] l Hi Hl IH]; [reflexivity|].
  cbn [isValidKey_loop map snd forallb]. cbn [fst] in Hi.
  replace (i =? 0) with false by (symmetry; apply Z.eqb_neq; lia).
  cbn [andb]. rewrite IH. unfold identifierPart.
  destruct (unicode.IsLetter ch), (unicode.IsDigit ch), (ch =? underscore);
    reflexivity.
Qed.

(** isValidKey accepts the identifiers made of Unicode letters, Unicode
    digits and underscores that do not start with a digit. *)
Lemma isValidKey_unicodeIdentifier (key : gostring) :
  isValidKey key = unicodeIdentifier key.
Proof.
  unfold isValidKey, unicodeIdentifier, utf8.range.
  destruct key as [|c key]; [reflexivity|].
  replace (len (c :: key) =? 0) with false
    by (symmetry; apply Z.eqb_neq; unfold len; cbn [length]; lia).
  cbn [length utf8.rangeFrom].
  pose proof (decode_size (c :: key) ltac:(discriminate)) as Hsize.
  destruct (utf8.DecodeRuneInString (c :: key)) as [ch size].
  cbn [snd] in Hsize. cbn [map snd isValidKey_loop].
  rewrite Z.eqb_refl. cbn [andb].
  rewrite <- isValidKey_loop_later.
  - unfold identifierStart.
    destruct (unicode.IsLetter ch), (unicode.IsDigit ch), (ch =? underscore);
      reflexivity.
  - eapply Forall_impl; [|apply rangeFrom_indices]. cbn. intros p Hp. lia.
Qed.

(** A key accepted by isValidKey consists of key bytes. *)
Lemma isValidKey_loop_cons (i ch : Z) (rest : list (Z * Z)) :
  isValidKey_loop ((i, ch) :: rest) = true ->
  identifierPart ch = true /\ isValidKey_loop rest = true.
Proof.
  cbn [isValidKey_loop]. unfold identifierPart.
  destruct (unicode.IsLetter ch), (unicode.IsDigit ch), (ch =? underscore),
    (i =? 0); cbn; intros H; auto; discriminate.
Qed.

Lemma isValidKey_loop_bytes (steps : nat) (i : Z) (s : gostring) :
  (length s <= steps)%nat ->
  isValidKey_loop (utf8.rangeFrom steps i s) = true ->
  Forall (fun b => keyByte b = true) s.
Proof.
  revert i s. induction steps as [|steps IH]; intros i s Hlen H.
  - destruct s; [constructor|cbn in Hlen; lia].
  - destruct s as [|c0 s]; [constructor|]. cbn [utf8.rangeFrom] in H.
    destruct (utf8.DecodeRuneInString (c0 :: s)) as [ch size] eqn:E.
    apply isValidKey_loop_cons in H as [Hch H].
    assert (Hskip : (length (skipn size (c0 :: s)) <= steps)%nat).
    { pose proof (decode_size (c0 :: s) ltac:(discriminate)) as Hs.
      rewrite E in Hs. cbn [snd] in Hs. rewrite length_skipn.
      cbn [length] in *. lia. }
    specialize (IH _ _ Hskip H).
    rewrite <- (firstn_skipn size (c0 :: s)). apply Forall_app. split; [|exact IH].
    apply decode_bytes in E as [(-> & -> & Hlt)|[(-> & ->)|(Hn & Hall)]].
    + cbn [firstn]. constructor; [|constructor].
      unfold keyByte. rewrite Hch. apply orb_true_r.
    + vm_compute in Hch. discriminate.
    + eapply Forall_impl; [|exact Hall]. cbn. intros b Hb. unfold keyByte.
      apply Z.leb_le in Hb. now rewrite Hb.
Qed.

Lemma isValidKey_bytes (key : gostring) :
  isValidKey key = true -> Forall (fun b => keyByte b = true) key.
Proof.
  unfold isValidKey. destruct (len key =? 0); [discriminate|].
  apply isValidKey_loop_bytes. lia.
Qed.

Lemma isValidKey_not_In (key : gostring) (c : ascii) :
  isValidKey key = true -> keyByte c = false -> ~ In c key.
Proof.
  intros H Hc Hin. apply isValidKey_bytes in H.
  rewrite Forall_forall in H. specialize (H c Hin). congruence.
Qed.

Lemma isValidKey_nonempty (key : gostring) :
  isValidKey key = true -> key <> [].
Proof. intros H ->. discriminate. Qed.

(** A key accepted by isValidKey starts with no white space. *)
Lemma isValidKey_no_space_prefix (key : gostring) :
  isValidKey key = true ->
  forall enc, In enc strings.spaceEncodings ->
              strings.HasPrefix key enc = false.
Proof.
  intros H enc Hin.
  destruct (strings.HasPrefix key enc) eqn:E; [exfalso|reflexivity].
  apply HasPrefix_spec in E as [tail ->].
  apply (spaceEncodings_check
           (fun enc => let (r, n) := utf8.DecodeRuneInString enc in
                       negb (identifierStart r) &&
                       negb (r =? utf8.RuneError) &&
                       negb (strings.eqb enc []))) in Hin;
    [|vm_compute; reflexivity].
  destruct (utf8.DecodeRuneInString enc) as [r n] eqn:D.
  apply andb_true_iff in Hin as [Hin Hne].
  apply andb_true_iff in Hin as [Hstart Herr].
  apply negb_true_iff in Hstart, Herr, Hne. apply Z.eqb_neq in Herr.
  apply (decode_app enc tail) in D; [|exact Herr].
  rewrite isValidKey_unicodeIdentifier in H.
  unfold unicodeIdentifier, utf8.range in H.
  destruct enc as [|c enc]; [discriminate|].
  cbn [app length utf8.rangeFrom] in H. cbn [app] in D. rewrite D in H.
  cbn [map snd] in H. rewrite Hstart in H. discriminate.
Qed.

(** *** Lines *)

(** C7, as the code has it: Parse never returns an error, and a turn of its
    loop on a line that is not blank and no comment appends no entry when
    the line has no [=], or when what stands left of the first [=], with its
    surrounding white space trimmed, is not an identifier of Unicode letters,
    Unicode digits and underscores that starts with no digit. *)
Theorem C7_invalid_lines_dropped :
  forall (input : gostring) (st : Store),
    snd (fst (Parse input st)) = None /\
    forall (lines : list gostring) (i : nat) (line : gostring),
      blankLine line = false ->
      commentLine line = false ->
      hasEquals line = false \/
      unicodeIdentifier (strings.TrimSpace (leftHandSide line)) = false ->
      parseLine lines i line = (None, 0%nat).
Proof.
  intros input st. split.
  - unfold Parse. destruct (allocate (parseEntries input) st). reflexivity.
  - intros lines i line Hblank Hcomment Hbad.
    unfold blankLine, commentLine, hasEquals, leftHandSide, assignment in *.
    unfold parseLine. rewrite Hblank, Hcomment.
    set (trimmed := if strings.HasPrefix (strings.TrimSpace line) (str "export ")
                    then _ else _) in *.
    destruct (strings.Index trimmed (str "=") =? -1); [reflexivity|].
    destruct Hbad as [Hbad|Hbad]; [discriminate|].
    rewrite isValidKey_unicodeIdentifier, Hbad. cbn [negb].
    rewrite orb_true_r. reflexivity.
Qed.

(** The lines [junk] and [1A=2] produce nothing. *)
Lemma C7_invalid_lines_dropped_witness :
  parseLine [str "junk"; str "1A=2"] 0 (str "junk") = (None, 0%nat) /\
  parseLine [str "junk"; str "1A=2"] 1 (str "1A=2") = (None, 0%nat).
Proof.
  split;
    apply (proj2 (C7_invalid_lines_dropped [] empty_store));
    try (vm_compute; reflexivity).
  - left. vm_compute. reflexivity.
  - right. vm_compute. reflexivity.
Defined.

(** The claim C7 keeps only the lines whose left-hand side has the shape
    [[A-Za-z_][A-Za-z0-9_]*]; the code also keeps a key with letters outside
    ASCII (here U+00E9), and a key followed by blanks. *)
Lemma C7_non_ascii_key_kept :
  (let line := map utf8.byte [0xC3; 0xA9; 0x3D; 0x31] in
   blankLine line = false /\ commentLine line = false /\
   hasEquals line = true /\
   asciiIdentifier (leftHandSide line) = false /\
   exists e, parseLine [line] 0 line = (Some e, 0%nat)) /\
  (let line := str "KEY =v" in
   blankLine line = false /\ commentLine line = false /\
   hasEquals line = true /\
   asciiIdentifier (leftHandSide line) = false /\
   exists e, parseLine [line] 0 line = (Some e, 0%nat)).
Proof.
  split; cbv zeta; repeat split; try (vm_compute; reflexivity);
    eexists; vm_compute; reflexivity.
Qed.

(** C6 at the line [NAME=value # note]: the entry holds the value, and the
    text of the trailing comment is nowhere in it. *)
Lemma C6_inline_comment_lost :
  parseEntries (str "NAME=value # note") =
  [{| Type_ := KeyValueEntry; Key := str "NAME"; Value := str "value";
      Comment := []; Line := 1; Exported := false; IsSecret := false |}].
Proof. vm_compute. reflexivity. Qed.

End ParserProperties.

(** ** Writing a document *)

Section StorageProperties.
Import model storage storageSpec.

Lemma app_neq_self {A : Type} (a x : list A) : x <> [] -> a ++ x <> a.
Proof.
  intros Hx E. apply Hx. apply (app_inv_head a). now rewrite app_nil_r.
Qed.

Lemma put_other fs path content p :
  p <> path -> put fs path content p = fs p.
Proof. unfold put. intros H. apply strings_eqb_neq in H. now rewrite H. Qed.

Lemma put_same fs path content : put fs path content path = Some content.
Proof. unfold put. now rewrite strings_eqb_refl. Qed.

Lemma remove_other fs path p : p <> path -> remove fs path p = fs p.
Proof. unfold remove. intros H. apply strings_eqb_neq in H. now rewrite H. Qed.

Lemma remove_same fs path : remove fs path path = None.
Proof. unfold remove. now rewrite strings_eqb_refl. Qed.

(** A backup is written beside the file, never over it. *)
Lemma createBackup_keeps_file env fs path :
  fst (createBackup env fs path) path = fs path.
Proof.
  unfold createBackup, CreateBackup, copyFile.
  destruct (match fs path with
            | Some _ => false
            | None => negb (stat_fails env)
            end); [reflexivity|].
  destruct (if open_fails env then None else fs path); [|reflexivity].
  destruct (create_backup_fails env); [reflexivity|].
  assert (Hne : path <> path ++ str ".backup." ++ now env).
  { intros E. symmetry in E. revert E. apply app_neq_self. discriminate. }
  destruct (copy_fails env); cbn [fst]; now apply put_other.
Qed.

(** C2: when WriteFile gets as far as the rename and the rename fails, it
    returns that error, the file at the document's path holds what it held
    before the call, and the temporary [.tmp] file is gone. *)
Theorem C2_rename_failure_leaves_file :
  forall (env : Env) (h : Heap) (fs : FS) (ef : EnvFile),
    reaches_rename env h fs ef ->
    rename_fails env = true ->
    let (fs', err) := WriteFile env h fs ef in
    err = Some failed_to_rename_temp_file /\
    fs' (Path ef) = fs (Path ef) /\
    fs' (Path ef ++ str ".tmp") = None.
Proof.
  intros env h fs ef (Hbackup & Hcreate & Hwrite & Hsync) Hrename.
  unfold WriteFile.
  pose proof (createBackup_keeps_file env fs (Path ef)) as Hkeep.
  destruct (createBackup env fs (Path ef)) as [fs1 e1].
  cbn [fst snd] in *. subst e1. rewrite Hcreate.
  destruct (writeEntries env h (Entries ef) 0 []) as [content ok].
  cbn [snd] in Hwrite. subst ok. rewrite Hsync, Hrename.
  assert (Hne : Path ef <> Path ef ++ str ".tmp").
  { intros E. symmetry in E. revert E. apply app_neq_self. discriminate. }
  repeat split.
  - rewrite remove_other, !put_other by exact Hne. exact Hkeep.
  - apply remove_same.
Qed.

Lemma C2_rename_failure_leaves_file_witness :
  let (fs', err) :=
    WriteFile rename_fault modelSpec.sample_heap sample_fs
              modelSpec.sample_file in
  err = Some failed_to_rename_temp_file /\
  fs' (str ".env") = Some (str "A=0") /\
  fs' (str ".env.tmp") = None.
Proof.
  apply (C2_rename_failure_leaves_file rename_fault modelSpec.sample_heap
           sample_fs modelSpec.sample_file).
  - repeat split; vm_compute; reflexivity.
  - reflexivity.
Defined.

End StorageProperties.

(** ** Parsing what was written *)

Section RoundTrip.
Import model parser parserSpec stringsSpec.

(** A line [key=value], with or without [export ], has no white space at
    either end. *)
Lemma trimmed_assignment (pre key value : gostring) :
  pre = [] \/ pre = str "export " ->
  isValidKey key = true ->
  trimmed value ->
  trimmed (pre ++ key ++ "="%char :: value).
Proof.
  intros Hpre Hkey [_ Hright]. split.
  - apply stripOne_None. intros enc Hin.
    destruct Hpre as [->| ->].
    + cbn [app].
      destruct (strings.HasPrefix (key ++ "="%char :: value) enc) eqn:E;
        [exfalso|reflexivity].
      apply HasPrefix_app_cons in E as [E|E].
      * now rewrite (isValidKey_no_space_prefix key Hkey enc Hin) in E.
      * apply (spaceEncodings_check
                 (fun enc => negb (existsb (Ascii.eqb "=") enc))) in Hin;
          [|vm_compute; reflexivity].
        apply negb_true_iff in Hin.
        assert (existsb (Ascii.eqb "=") enc = true); [|congruence].
        apply existsb_exists. exists "="%char. split; [assumption|].
        apply Ascii.eqb_refl.
    + apply (spaceEncodings_check
               (fun enc => match enc with
                           | c :: _ => negb (Ascii.eqb "e" c)
                           | [] => false
                           end)) in Hin; [|vm_compute; reflexivity].
      destruct enc as [|c enc]; [discriminate|].
      apply negb_true_iff in Hin.
      change (str "export ") with ("e"%char :: str "xport ").
      cbn [app strings.HasPrefix]. now rewrite Hin.
  - apply stripOne_None. intros enc Hin.
    rewrite app_assoc, rev_app_distr. cbn [rev]. rewrite <- app_assoc.
    cbn [app].
    destruct (strings.HasPrefix
                (rev value ++ "="%char :: rev (pre ++ key)) enc) eqn:E;
      [exfalso|reflexivity].
    apply HasPrefix_app_cons in E as [E|E].
    + rewrite stripOne_None in Hright. now rewrite (Hright enc Hin) in E.
    + apply (revEncodings_check
               (fun enc => negb (existsb (Ascii.eqb "=") enc))) in Hin;
        [|vm_compute; reflexivity].
      apply negb_true_iff in Hin.
      assert (existsb (Ascii.eqb "=") enc = true); [|congruence].
      apply existsb_exists. exists "="%char. split; [assumption|].
      apply Ascii.eqb_refl.
Qed.

Lemma firstn_len_app {A : Type} (a b : list A) :
  firstn (Z.to_nat (len a)) (a ++ b) = a.
Proof.
  unfold len. rewrite Nat2Z.id, firstn_app, firstn_all, Nat.sub_diag.
  cbn [firstn]. apply app_nil_r.
Qed.

Lemma skipn_len_app {A : Type} (a b : list A) (x : A) :
  skipn (Z.to_nat (len a + 1)) (a ++ x :: b) = b.
Proof.
  unfold len. replace (Z.to_nat (Z.of_nat (length a) + 1)) with (S (length a))
    by lia.
  induction a as [|y a IH]; [reflexivity|exact IH].
Qed.

(** The value reader returns a plain value as it is. *)
Lemma parseValue_plain (value : gostring) (lines : list gostring) (i : nat) :
  plainValue value -> parseValue value lines i = (value, 0%nat).
Proof.
  intros (Htrim & Hhash & _ & Hquote). unfold parseValue. rewrite Htrim.
  destruct value as [|c value]; [reflexivity|].
  destruct Hquote as [Hd Hs]. apply Ascii.eqb_neq in Hd, Hs.
  rewrite Hd, Hs. cbn [orb].
  change (str "#") with ["#"%char]. rewrite (Index_absent _ _ Hhash).
  reflexivity.
Qed.

(** Parsing the line written for a key-value entry. *)
Lemma parseLine_assignment (lines : list gostring) (i : nat)
      (key value : gostring) (exported : bool) :
  isValidKey key = true ->
  strings.TrimSpace key = key ->
  plainValue value ->
  parseLine lines i
    ((if exported then str "export " else []) ++ key ++ str "=" ++ value) =
  (Some {| Type_ := KeyValueEntry; Key := key; Value := value; Comment := [];
           Line := Z.of_nat i + 1; Exported := exported;
           IsSecret := isSecretKey key |}, 0%nat).
Proof.
  intros Hkey Hktrim Hplain.
  assert (Hvtrim : trimmed value) by (apply TrimSpace_fixed, Hplain).
  assert (Heq : ~ In "="%char key)
    by (apply isValidKey_not_In; [assumption|vm_compute; reflexivity]).
  assert (Hsp : ~ In " "%char key)
    by (apply isValidKey_not_In; [assumption|vm_compute; reflexivity]).
  assert (Hhash : ~ In "#"%char key)
    by (apply isValidKey_not_In; [assumption|vm_compute; reflexivity]).
  assert (Hkv : strings.TrimSpace (key ++ "="%char :: value)
                = key ++ "="%char :: value).
  { apply TrimSpace_trimmed.
    apply (trimmed_assignment [] key value); auto. }
  assert (Hnotexport :
            strings.HasPrefix (key ++ "="%char :: value) (str "export ")
            = false).
  { destruct (strings.HasPrefix (key ++ "="%char :: value) (str "export "))
             eqn:E; [exfalso|reflexivity].
    apply HasPrefix_app_cons in E as [E|E].
    - apply HasPrefix_spec in E as [t ->]. apply Hsp.
      apply in_or_app. left. cbn. tauto.
    - cbn in E. repeat destruct E as [E|E]; try discriminate; exact E. }
  assert (Hnotcomment :
            strings.HasPrefix (key ++ "="%char :: value) (str "#") = false).
  { destruct (strings.HasPrefix (key ++ "="%char :: value) (str "#"))
             eqn:E; [exfalso|reflexivity].
    apply HasPrefix_app_cons in E as [E|E].
    - apply HasPrefix_spec in E as [t ->]. apply Hhash. now left.
    - cbn in E. destruct E as [E|[]]. discriminate. }
  assert (Hnonempty : strings.eqb (key ++ "="%char :: value) [] = false)
    by (destruct key; reflexivity).
  change (str "=" ++ value) with ("="%char :: value).
  unfold parseLine.
  assert (Htail :
    (let trimmed := key ++ "="%char :: value in
     let eqIdx := strings.Index trimmed (str "=") in
     if eqIdx =? -1 then (None, 0%nat)
     else
       let key0 := strings.TrimSpace (firstn (Z.to_nat eqIdx) trimmed) in
       if strings.eqb key0 [] || negb (isValidKey key0) then (None, 0%nat)
       else
         let valueStr := skipn (Z.to_nat (eqIdx + 1)) trimmed in
         let (value0, consumed) := parseValue valueStr lines i in
         let i0 := (i + consumed)%nat in
         (Some {| Type_ := KeyValueEntry; Key := key0; Value := value0;
                  Comment := []; Line := Z.of_nat i0 + 1;
                  Exported := exported; IsSecret := isSecretKey key0 |},
          consumed)) =
    (Some {| Type_ := KeyValueEntry; Key := key; Value := value; Comment := [];
             Line := Z.of_nat i + 1; Exported := exported;
             IsSecret := isSecretKey key |}, 0%nat)).
  { cbv zeta. change (str "=") with ["="%char].
    rewrite (Index_cons_absent key value "=" Heq).
    replace (len key =? -1) with false
      by (symmetry; apply Z.eqb_neq; unfold len; lia).
    rewrite firstn_len_app, Hktrim, Hkey, skipn_len_app.
    replace (strings.eqb key []) with false
      by (symmetry; apply strings_eqb_neq, isValidKey_nonempty, Hkey).
    cbn [orb negb]. rewrite (parseValue_plain value lines i Hplain).
    now rewrite Nat.add_0_r. }
  destruct exported.
  - assert (Hl : strings.TrimSpace (str "export " ++ key ++ "="%char :: value)
                 = str "export " ++ key ++ "="%char :: value).
    { apply TrimSpace_trimmed.
      apply (trimmed_assignment (str "export ") key value); auto. }
    rewrite Hl.
    replace (strings.eqb (str "export " ++ key ++ "="%char :: value) [])
      with false by reflexivity.
    replace (strings.HasPrefix (str "export " ++ key ++ "="%char :: value)
                               (str "#")) with false by reflexivity.
    rewrite HasPrefix_app.
    replace (strings.TrimPrefix (str "export " ++ key ++ "="%char :: value)
                                (str "export "))
      with (key ++ "="%char :: value)
      by (unfold strings.TrimPrefix; now rewrite HasPrefix_app).
    rewrite Hkv. exact Htail.
  - cbn [app]. rewrite Hkv, Hnonempty, Hnotcomment, Hnotexport. exact Htail.
Qed.

(** What Parse builds: every entry is a [parsedEntry]. *)
Lemma parseLine_parsed (lines : list gostring) (i : nat) (line : gostring)
      (e : Entry) (consumed : nat) :
  ~ In newline line ->
  parseLine lines i line = (Some e, consumed) ->
  parsedEntry e.
Proof.
  intros Hnl. unfold parseLine.
  destruct (strings.eqb (strings.TrimSpace line) []) eqn:Eb.
  { intros [= <- <-]. exact I. }
  destruct (strings.HasPrefix (strings.TrimSpace line) (str "#")) eqn:Ec.
  { intros [= <- <-]. unfold parsedEntry, blankLine, commentLine.
    cbn [Type_ Comment]. auto. }
  set (trimmed := if strings.HasPrefix (strings.TrimSpace line) (str "export ")
                  then _ else _).
  destruct (strings.Index trimmed (str "=") =? -1); [discriminate|].
  set (key := strings.TrimSpace _).
  destruct (strings.eqb key []); [discriminate|]. cbn [orb].
  destruct (isValidKey key) eqn:Ek; [|discriminate]. cbn [negb].
  destruct (parseValue _ lines i) as [value c].
  intros [= <- <-]. unfold parsedEntry. cbn [Type_ Key Comment].
  split; [assumption|]. split; [|reflexivity]. apply TrimSpace_idempotent.
Qed.

Lemma Forall_skipn {A : Type} (P : A -> Prop) (n : nat) (l : list A) :
  Forall P l -> Forall P (skipn n l).
Proof.
  intros H. rewrite <- (firstn_skipn n l) in H.
  now apply Forall_app in H.
Qed.

Lemma parseLoop_parsed (steps : nat) (lines : list gostring) (i : nat)
      (rest : list gostring) :
  Forall (fun line => ~ In newline line) rest ->
  Forall parsedEntry (parseLoop steps lines i rest).
Proof.
  revert i rest. induction steps as [|steps IH]; intros i rest Hrest;
    [constructor|].
  destruct rest as [|line rest]; [constructor|]. cbn [parseLoop].
  inversion Hrest as [|? ? Hline Hrest']; subst.
  destruct (parseLine lines i line) as [[e|] consumed] eqn:E.
  - constructor.
    + eapply parseLine_parsed; eassumption.
    + apply IH. now apply Forall_skipn.
  - apply IH. now apply Forall_skipn.
Qed.

Lemma parseEntries_parsed (input : gostring) :
  Forall parsedEntry (parseEntries input).
Proof. apply parseLoop_parsed, Split_no_sep. Qed.

(** No entry of Parse holds an inline comment. *)
Lemma parseEntries_no_inline_comment (input : gostring) (e : Entry) :
  In e (parseEntries input) -> Type_ e = KeyValueEntry -> Comment e = [].
Proof.
  intros Hin Hty. pose proof (parseEntries_parsed input) as H.
  rewrite Forall_forall in H. specialize (H e Hin).
  unfold parsedEntry in H. rewrite Hty in H. apply H.
Qed.

(** The line written for an entry is read back as an entry with the same
    variant, key, value and export mark. *)
Lemma parseLine_String (lines : list gostring) (i : nat) (e : Entry) :
  parsedEntry e ->
  (Type_ e = KeyValueEntry -> plainValue (Value e)) ->
  exists e', parseLine lines i (String e) = (Some e', 0%nat) /\
             kvOf [e'] = kvOf [e].
Proof.
  intros Hp Hv. unfold parsedEntry in Hp. unfold String.
  destruct (Type_ e) eqn:Hty.
  - destruct Hp as (Hkey & Htrim & Hc). cbv beta iota zeta. rewrite Hc.
    cbn [strings.eqb negb]. rewrite (app_nil_r (Value e)).
    eexists. split.
    + apply (parseLine_assignment lines i (Key e) (Value e) (Exported e)
               Hkey Htrim (Hv eq_refl)).
    + unfold kvOf. cbn. now rewrite Hty.
  - destruct Hp as (Hb & Hc & _). unfold blankLine, commentLine in *.
    eexists. split.
    + unfold parseLine. rewrite Hb, Hc. reflexivity.
    + unfold kvOf. cbn. now rewrite Hty.
  - eexists. split; [reflexivity|]. unfold kvOf. cbn. now rewrite Hty.
Qed.

Lemma kvOf_cons (e : Entry) (es : list Entry) :
  kvOf (e :: es) = kvOf [e] ++ kvOf es.
Proof.
  unfold kvOf. cbn [filter].
  destruct (EntryType_eqb (Type_ e) KeyValueEntry); reflexivity.
Qed.

Lemma parseLoop_nil (steps : nat) (lines : list gostring) (i : nat) :
  parseLoop steps lines i [] = [].
Proof. destruct steps; reflexivity. Qed.

Lemma parseLoop_written (es : list Entry) :
  Forall parsedEntry es ->
  Forall (fun e => Type_ e = KeyValueEntry -> plainValue (Value e)) es ->
  forall (steps : nat) (lines : list gostring) (i : nat),
    (length es < steps)%nat ->
    kvOf (parseLoop steps lines i (map String es ++ [[]])) = kvOf es.
Proof.
  intros Hp Hv. induction Hp as [|e es He Hp IH];
    intros steps lines i Hsteps.
  - destruct steps as [|steps]; [cbn in Hsteps; lia|]. cbn [map app parseLoop].
    replace (parseLine lines i []) with
      (Some {| Type_ := BlankEntry; Key := []; Value := []; Comment := [];
               Line := Z.of_nat i + 1; Exported := false;
               IsSecret := false |}, 0%nat) by reflexivity.
    cbn [skipn]. now rewrite parseLoop_nil.
  - destruct steps as [|steps]; [cbn in Hsteps; lia|].
    inversion Hv as [|? ? Hve Hv']; subst.
    cbn [map app parseLoop].
    destruct (parseLine_String lines i e He Hve) as [e' [-> Hkv]].
    cbn [skipn]. rewrite kvOf_cons, Hkv, (kvOf_cons e es).
    rewrite IH; [reflexivity|assumption|cbn [length] in Hsteps; lia].
Qed.

(** The text written for plain entries has a line per entry. *)
Lemma String_no_newline (e : Entry) :
  parsedEntry e ->
  (Type_ e = KeyValueEntry -> plainValue (Value e)) ->
  ~ In newline (String e).
Proof.
  intros Hp Hv. unfold parsedEntry in Hp. unfold String.
  destruct (Type_ e) eqn:Hty.
  - destruct Hp as (Hkey & _ & Hc). cbv beta iota zeta. rewrite Hc.
    cbn [strings.eqb negb]. rewrite (app_nil_r (Value e)).
    destruct (Hv eq_refl) as (_ & _ & Hnl & _).
    intros Hin. apply in_app_or in Hin as [Hin|Hin].
    { destruct (Exported e); cbn in Hin;
        repeat destruct Hin as [Hin|Hin]; try discriminate; exact Hin. }
    apply in_app_or in Hin as [Hin|Hin].
    { revert Hin. apply isValidKey_not_In; [assumption|].
      vm_compute. reflexivity. }
    destruct Hin as [Hin|Hin]; [discriminate|contradiction].
  - apply Hp.
  - intros [].
Qed.

(** Reading back the text written for the entries of a parse whose values
    are plain gives the same key-value entries. *)
Lemma parseEntries_textOf (es : list Entry) :
  Forall parsedEntry es ->
  Forall (fun e => Type_ e = KeyValueEntry -> plainValue (Value e)) es ->
  kvOf (parseEntries (textOf es)) = kvOf es.
Proof.
  intros Hp Hv. unfold parseEntries, textOf.
  assert (Hlines : strings.Split
                     (flat_map (fun e => String e ++ [newline]) es) newline
                   = map String es ++ [[]]).
  { rewrite <- (Split_lines (map String es) newline).
    - f_equal. clear. induction es as [|e es IH]; [reflexivity|].
      cbn [map flat_map]. now rewrite IH.
    - apply Forall_forall. intros l Hl. apply in_map_iff in Hl as [e [<- He]].
      rewrite Forall_forall in Hp, Hv. apply String_no_newline; auto. }
  rewrite Hlines. apply parseLoop_written; try assumption.
  rewrite length_app, length_map. cbn. lia.
Qed.

(** *** Documents in the store *)

Lemma allocate_spec (es : list Entry) (st : Store) :
  map (cells (snd (allocate es st))) (fst (allocate es st)) = es /\
  (forall q, (q < fresh st)%nat ->
             cells (snd (allocate es st)) q = cells st q) /\
  (fresh st <= fresh (snd (allocate es st)))%nat.
Proof.
  revert st. induction es as [|e es IH]; intros st.
  - cbn. auto.
  - cbn [allocate]. unfold new.
    set (st1 := {| cells := write (cells st) (fresh st) e;
                   fresh := S (fresh st) |}).
    destruct (IH st1) as (Hmap & Hold & Hfresh).
    destruct (allocate es st1) as [ps st2]. cbn [fst snd] in *.
    repeat split.
    + cbn [map]. rewrite Hmap. f_equal.
      rewrite Hold by (unfold st1; cbn; lia).
      unfold st1. cbn [cells]. apply write_same.
    + intros q Hq. rewrite Hold by (unfold st1; cbn; lia).
      unfold st1. cbn [cells]. apply write_other. lia.
    + unfold st1 in Hfresh. cbn [fresh] in Hfresh. lia.
Qed.

Lemma Parse_entries (input : gostring) (st : Store) :
  map (cells (snd (Parse input st))) (Entries (fst (fst (Parse input st))))
  = parseEntries input.
Proof.
  unfold Parse. pose proof (allocate_spec (parseEntries input) st) as [H _].
  destruct (allocate (parseEntries input) st) as [ps st']. exact H.
Qed.

Lemma serialize_textOf (h : Heap) (ef : EnvFile) :
  storage.serialize h ef = textOf (map h (Entries ef)).
Proof.
  unfold storage.serialize, textOf.
  induction (Entries ef) as [|p ps IH]; [reflexivity|].
  cbn [map flat_map]. now rewrite IH.
Qed.

(** C1, as the code has it: take a document [D] that Parse produced, in
    which every value has no white space at either end, holds no [#] and no
    newline, and starts with no quote.  Parsing the text WriteFile writes for
    [D] (each entry by [String], a newline after every line) gives a
    document whose key-value entries have the same (key, value, exported),
    in the same order. *)
Theorem C1_round_trip_of_plain_values :
  forall (input : gostring) (st : Store),
    let D := fst (fst (Parse input st)) in
    let st1 := snd (Parse input st) in
    (forall p, In p (Entries D) ->
               Type_ (cells st1 p) = KeyValueEntry ->
               plainValue (Value (cells st1 p))) ->
    let text := storage.serialize (cells st1) D in
    kvTuples (cells (snd (Parse text st1))) (fst (fst (Parse text st1)))
    = kvTuples (cells st1) D.
Proof.
  intros input st D st1 Hplain text. unfold kvTuples.
  rewrite Parse_entries. unfold text. rewrite serialize_textOf.
  unfold D, st1 in *. rewrite Parse_entries in *.
  apply parseEntries_textOf; [apply parseEntries_parsed|].
  rewrite <- (Parse_entries input st). apply Forall_forall.
  intros e He. apply in_map_iff in He as [p [<- Hp]]. now apply Hplain.
Qed.

Lemma C1_round_trip_of_plain_values_witness :
  let D := fst (fst (Parse plain_input empty_store)) in
  let st1 := snd (Parse plain_input empty_store) in
  let text := storage.serialize (cells st1) D in
  kvTuples (cells st1) D =
  [(str "NODE_ENV", str "production", true);
   (str "GREETING", str "hello world", false)] /\
  kvTuples (cells (snd (Parse text st1))) (fst (fst (Parse text st1)))
  = kvTuples (cells st1) D.
Proof.
  cbv zeta. split; [vm_compute; reflexivity|].
  refine (C1_round_trip_of_plain_values plain_input empty_store _).
  refine (proj1 (Forall_forall
    (fun p => Type_ (cells (snd (Parse plain_input empty_store)) p)
              = KeyValueEntry ->
              plainValue
                (Value (cells (snd (Parse plain_input empty_store)) p)))
    (Entries (fst (fst (Parse plain_input empty_store))))) _).
  replace (Entries (fst (fst (Parse plain_input empty_store))))
    with [0; 1; 2; 3]%nat by (vm_compute; reflexivity).
  apply Forall_cons; [|apply Forall_cons; [|apply Forall_cons;
    [|apply Forall_cons; [|apply Forall_nil]]]].
  all: vm_compute.
  all: try (intros H; discriminate H).
  all: intros _; repeat split;
    intros H; repeat destruct H as [H|H]; try discriminate H; exact H.
Defined.

(** The claim C1 holds for no document with a quoted value that needs its
    quotes: [K=(quote)a#b(quote)] is written as [K=a#b] and read back with
    the value [a]. *)
Lemma C1_quoted_value_changes :
  let D := fst (fst (Parse quoted_input empty_store)) in
  let st1 := snd (Parse quoted_input empty_store) in
  let text := storage.serialize (cells st1) D in
  kvTuples (cells st1) D = [(str "K", str "a#b", false)] /\
  text = str "K=a#b" ++ [newline] /\
  kvTuples (cells (snd (Parse text st1))) (fst (fst (Parse text st1)))
  = [(str "K", str "a", false)] /\
  kvTuples (cells (snd (Parse text st1))) (fst (fst (Parse text st1)))
  <> kvTuples (cells st1) D.
Proof.
  cbv zeta. repeat split; try (vm_compute; reflexivity).
  vm_compute. discriminate.
Qed.

End RoundTrip.

(** ** More on the change history *)

Section ChangeStackMore.
Import ChangeStack ChangeStackSpec.

Lemma len_kept_le cs : cursor_ok cs -> len (kept cs) <= len (changes cs).
Proof. intros H. rewrite (len_kept cs H). unfold cursor_ok in H. lia. Qed.

Lemma pushed_within_capacity c cs :
  cursor_ok cs -> within_capacity cs -> within_capacity (pushed c cs).
Proof.
  intros Hok Hcap. pose proof (len_kept_le cs Hok) as Hk.
  unfold within_capacity, pushed in *.
  destruct (Z.gtb_spec (len (kept cs ++ [c])) (maxSize cs)) as [Hgt|Hle];
    cbn [changes maxSize].
  - rewrite len_tl by (destruct (kept cs); discriminate).
    rewrite len_app. cbn. lia.
  - exact Hle.
Qed.

(** Every operation keeps the cursor inside [[-1, len-1]] and the history
    inside the capacity, and none of them panics. *)
Theorem stack_invariants_kept :
  forall (cs : ChangeStack) (c : Change),
    cursor_ok cs -> within_capacity cs ->
    (exists cs', Push c cs = Done cs' /\ cursor_ok cs' /\ within_capacity cs'
                 /\ maxSize cs' = maxSize cs) /\
    (exists cs' r, Undo cs = Done (cs', r) /\ cursor_ok cs'
                   /\ within_capacity cs' /\ maxSize cs' = maxSize cs) /\
    (exists cs' r, Redo cs = Done (cs', r) /\ cursor_ok cs'
                   /\ within_capacity cs' /\ maxSize cs' = maxSize cs) /\
    (exists cs', Clear cs = Done cs' /\ cursor_ok cs' /\ within_capacity cs'
                 /\ maxSize cs' = maxSize cs).
Proof.
  intros cs c Hok Hcap. repeat split.
  - exists (pushed c cs). repeat split.
    + now apply Push_pushed.
    + apply (pushed_cursor_ok c cs Hok).
    + apply (pushed_cursor_ok c cs Hok).
    + now apply pushed_within_capacity.
    + unfold pushed. now destruct (len (kept cs ++ [c]) >? maxSize cs).
  - destruct (Undo_spec cs Hok) as [[Hc Hu]|[x [Hc [Hn Hu]]]].
    + exists cs, None. repeat split; try assumption; apply Hok.
    + eexists _, _. split; [exact Hu|].
      unfold cursor_ok, within_capacity in *. cbn [changes current maxSize].
      repeat split; try assumption; lia.
  - destruct (Redo_spec cs Hok) as [[Hc Hu]|[x [Hc [Hn Hu]]]].
    + exists cs, None. repeat split; try assumption; apply Hok.
    + eexists _, _. split; [exact Hu|].
      unfold cursor_ok, within_capacity in *. cbn [changes current maxSize].
      repeat split; try assumption; lia.
  - unfold Clear, slice_to.
    replace ((0 <=? 0) && (0 <=? len (changes cs))) with true
      by (symmetry; apply andb_true_iff; split; apply Z.leb_le;
          [lia|apply len_nonneg]).
    change (Z.to_nat 0) with 0%nat. cbn [bind firstn].
    eexists. split; [reflexivity|].
    pose proof (len_nonneg (changes cs)).
    unfold cursor_ok, within_capacity, len in *.
    cbn [changes current maxSize length]. repeat split; lia.
Qed.

Lemma stack_invariants_kept_witness :
  cursor_ok stack_ab /\ within_capacity stack_ab /\
  exists cs', Push change_c stack_ab = Done cs' /\ cursor_ok cs'
              /\ within_capacity cs' /\ maxSize cs' = maxSize stack_ab.
Proof.
  assert (H1 : cursor_ok stack_ab) by (unfold cursor_ok; cbn; lia).
  assert (H2 : within_capacity stack_ab) by (unfold within_capacity; cbn; lia).
  split; [exact H1|]. split; [exact H2|].
  exact (proj1 (stack_invariants_kept stack_ab change_c H1 H2)).
Defined.

Lemma nth_error_last_app {A : Type} (l : list A) (x : A) :
  nth_error (l ++ [x]) (length l) = Some x.
Proof. induction l; cbn; auto. Qed.

(** The change under the cursor after a push that keeps something. *)
Lemma pushed_top c cs :
  cursor_ok cs -> 1 <= maxSize cs ->
  0 <= current (pushed c cs) /\
  nth_error (changes (pushed c cs)) (Z.to_nat (current (pushed c cs)))
  = Some c.
Proof.
  intros Hok Hmax. pose proof (len_kept cs Hok) as Hk.
  assert (Hc : -1 <= current cs) by apply Hok.
  unfold pushed.
  destruct (Z.gtb_spec (len (kept cs ++ [c])) (maxSize cs)) as [Hgt|Hle];
    cbn [changes current].
  - rewrite len_app in Hgt. cbn in Hgt.
    destruct (kept cs) as [|k0 ks] eqn:Ek; unfold len in *; cbn [length] in *;
      [lia|]. cbn [app tl]. split; [lia|].
    replace (Z.to_nat (current cs + 1 - 1)) with (length ks) by lia.
    apply nth_error_last_app.
  - split; [lia|]. unfold len in Hk.
    replace (Z.to_nat (current cs + 1)) with (length (kept cs)) by lia.
    apply nth_error_last_app.
Qed.

(** With room for at least one change, an undo right after a push hands
    back the change just pushed, a redo is then possible and hands it back
    again, and leaves the stack as the push left it. *)
Theorem undo_returns_last_push :
  forall (cs : ChangeStack) (c : Change),
    cursor_ok cs -> 1 <= maxSize cs ->
    exists cs1 cs2,
      Push c cs = Done cs1 /\
      CanUndo cs1 = true /\
      Undo cs1 = Done (cs2, Some c) /\
      CanRedo cs2 = true /\
      Redo cs2 = Done (cs1, Some c).
Proof.
  intros cs c Hok Hmax.
  pose proof (pushed_cursor_ok c cs Hok) as Hok1.
  pose proof (pushed_cursor_last c cs Hok) as Hlast.
  destruct (pushed_top c cs Hok Hmax) as [Hpos Hnth].
  set (cs1 := pushed c cs) in *.
  exists cs1, {| changes := changes cs1; current := current cs1 - 1;
                 maxSize := maxSize cs1 |}.
  split; [now apply Push_pushed|].
  split; [unfold CanUndo; apply Z.geb_le; lia|].
  destruct (Undo_spec cs1 Hok1) as [[Hc _]|[x [_ [Hn Hu]]]]; [lia|].
  rewrite Hnth in Hn. injection Hn as <-.
  split; [exact Hu|].
  split; [unfold CanRedo; cbn [changes current]; apply Z.ltb_lt; lia|].
  assert (Hok2 : cursor_ok {| changes := changes cs1; current := current cs1 - 1;
                              maxSize := maxSize cs1 |})
    by (unfold cursor_ok in *; cbn [changes current]; lia).
  destruct (Redo_spec _ Hok2) as [[Hc _]|[x [_ [Hn Hr]]]];
    cbn [changes current maxSize] in *; [lia|].
  rewrite Hr. replace (current cs1 - 1 + 1) with (current cs1) in * by lia.
  rewrite Hnth in Hn. injection Hn as <-. now destruct cs1.
Qed.

Lemma undo_returns_last_push_witness :
  cursor_ok stack_ab /\ 1 <= maxSize stack_ab /\
  exists cs1 cs2,
    Push change_c stack_ab = Done cs1 /\
    CanUndo cs1 = true /\
    Undo cs1 = Done (cs2, Some change_c) /\
    CanRedo cs2 = true /\
    Redo cs2 = Done (cs1, Some change_c).
Proof.
  assert (H1 : cursor_ok stack_ab) by (unfold cursor_ok; cbn; lia).
  assert (H2 : 1 <= maxSize stack_ab) by (cbn; lia).
  split; [exact H1|]. split; [exact H2|].
  exact (undo_returns_last_push stack_ab change_c H1 H2).
Defined.

(** A stack made with a capacity of zero or less records nothing: a push
    leaves it empty, with nothing to undo or redo. *)
Theorem no_capacity_records_nothing :
  forall (m : Z) (c : Change),
    m <= 0 ->
    Push c (NewChangeStack m) = Done (NewChangeStack m) /\
    CanUndo (NewChangeStack m) = false /\
    CanRedo (NewChangeStack m) = false /\
    Undo (NewChangeStack m) = Done (NewChangeStack m, None).
Proof.
  intros m c Hm.
  assert (Hok : cursor_ok (NewChangeStack m)) by (unfold cursor_ok; cbn; lia).
  repeat split.
  rewrite (Push_pushed c _ Hok). unfold pushed, kept, NewChangeStack.
  cbn [changes current maxSize]. change (-1 + 1) with 0.
  change (Z.to_nat 0) with 0%nat. cbn [firstn app tl].
  change (len [c]) with 1.
  replace (1 >? m) with true by (symmetry; apply Z.gtb_lt; lia).
  reflexivity.
Qed.

Lemma no_capacity_records_nothing_witness :
  Push change_a (NewChangeStack 0) = Done (NewChangeStack 0) /\
  CanUndo (NewChangeStack 0) = false /\
  CanRedo (NewChangeStack 0) = false /\
  Undo (NewChangeStack 0) = Done (NewChangeStack 0, None).
Proof. apply (no_capacity_records_nothing 0 change_a). lia. Defined.

(** CanUndo and CanRedo say exactly whether Undo and Redo hand back a
    change. *)
Theorem can_undo_iff_undo_returns :
  forall cs : ChangeStack,
    cursor_ok cs ->
    (CanUndo cs = true <-> exists cs' c, Undo cs = Done (cs', Some c)) /\
    (CanRedo cs = true <-> exists cs' c, Redo cs = Done (cs', Some c)).
Proof.
  intros cs Hok. split.
  - unfold CanUndo. rewrite Z.geb_le.
    destruct (Undo_spec cs Hok) as [[Hc Hu]|[x [Hc [Hn Hu]]]]; rewrite Hu.
    + split; [lia|]. intros (cs' & c & E). discriminate.
    + split; [eauto|lia].
  - unfold CanRedo. rewrite Z.ltb_lt.
    destruct (Redo_spec cs Hok) as [[Hc Hu]|[x [Hc [Hn Hu]]]]; rewrite Hu.
    + split; [lia|]. intros (cs' & c & E). discriminate.
    + split; [eauto|lia].
Qed.

Lemma can_undo_iff_undo_returns_witness :
  cursor_ok stack_ab /\
  (CanUndo stack_ab = true <->
   exists cs' c, Undo stack_ab = Done (cs', Some c)).
Proof.
  assert (H1 : cursor_ok stack_ab) by (unfold cursor_ok; cbn; lia).
  split; [exact H1|].
  exact (proj1 (can_undo_iff_undo_returns stack_ab H1)).
Defined.

(** *** Sequences of pushes, undos and redos *)

Lemma kept_at_end cs :
  current cs = len (changes cs) - 1 -> kept cs = changes cs.
Proof.
  intros H. unfold kept. apply firstn_all2. unfold len in H. lia.
Qed.

Lemma pushAll_at_end (l : list Change) :
  forall cs,
    current cs = len (changes cs) - 1 -> within_capacity cs ->
    exists cs',
      pushAll l cs = Done cs' /\
      changes cs' =
        skipn (length (changes cs ++ l) - Z.to_nat (maxSize cs))
              (changes cs ++ l) /\
      current cs' = len (changes cs') - 1 /\
      maxSize cs' = maxSize cs.
Proof.
  induction l as [|c l IH]; intros cs Hend Hcap.
  - exists cs. cbn [pushAll]. rewrite app_nil_r. repeat split; try assumption.
    unfold within_capacity, len in Hcap.
    replace (length (changes cs) - Z.to_nat (maxSize cs))%nat with 0%nat by lia.
    reflexivity.
  - assert (Hok : cursor_ok cs)
      by (unfold cursor_ok; pose proof (len_nonneg (changes cs)); lia).
    cbn [pushAll]. rewrite (Push_pushed c cs Hok).
    destruct (IH (pushed c cs)) as (cs' & Hp & Hch & Hcur & Hmax).
    { apply pushed_cursor_last, Hok. }
    { now apply pushed_within_capacity. }
    exists cs'. split; [exact Hp|].
    assert (Hm : maxSize (pushed c cs) = maxSize cs)
      by (unfold pushed; now destruct (len (kept cs ++ [c]) >? maxSize cs)).
    rewrite Hm in *. repeat split; try assumption.
    rewrite Hch. clear Hch Hp Hcur Hmax IH.
    unfold pushed. rewrite (kept_at_end cs Hend).
    unfold within_capacity, len in *.
    destruct (Z.gtb_spec (Z.of_nat (length (changes cs ++ [c]))) (maxSize cs))
      as [Hgt|Hle]; cbn [changes].
    + rewrite length_app in Hgt. cbn [length] in Hgt.
      assert (Hlen : length (changes cs) = Z.to_nat (maxSize cs)) by lia.
      replace (changes cs ++ c :: l) with ((changes cs ++ [c]) ++ l)
        by (now rewrite <- app_assoc).
      destruct (changes cs ++ [c]) as [|x T] eqn:E;
        [destruct (changes cs); discriminate|].
      assert (HT : length T = Z.to_nat (maxSize cs)).
      { apply (f_equal (@length Change)) in E. rewrite length_app in E.
        cbn [length] in E. lia. }
      cbn [tl app]. rewrite !length_app. cbn [length]. rewrite length_app.
      rewrite HT.
      replace (Z.to_nat (maxSize cs) + length l - Z.to_nat (maxSize cs))%nat
        with (length l) by lia.
      replace (S (Z.to_nat (maxSize cs) + length l) - Z.to_nat (maxSize cs))%nat
        with (S (length l)) by lia.
      reflexivity.
    + now rewrite <- app_assoc.
Qed.

(** Pushing a list of changes, one after the other, onto a new stack of
    capacity [m] leaves the last [m] of them in the history, oldest first,
    with the cursor on the newest. *)
Theorem pushes_keep_the_newest :
  forall (m : Z) (l : list Change),
    0 <= m ->
    exists cs,
      pushAll l (NewChangeStack m) = Done cs /\
      GetHistory cs = skipn (length l - Z.to_nat m) l /\
      GetCurrentPosition cs = len (GetHistory cs) - 1.
Proof.
  intros m l Hm.
  destruct (pushAll_at_end l (NewChangeStack m)) as (cs & Hp & Hch & Hcur & _).
  - reflexivity.
  - unfold within_capacity. cbn. lia.
  - exists cs. split; [exact Hp|]. split; [exact Hch|exact Hcur].
Qed.

Lemma pushes_keep_the_newest_witness :
  exists cs,
    pushAll [change_a; change_b; change_c] (NewChangeStack 2) = Done cs /\
    GetHistory cs = [change_b; change_c] /\
    GetCurrentPosition cs = 1.
Proof.
  destruct (pushes_keep_the_newest 2 [change_a; change_b; change_c])
    as (cs & H1 & H2 & H3); [lia|].
  exists cs. split; [exact H1|]. split; [exact H2|].
  rewrite H3, H2. reflexivity.
Defined.

Lemma firstn_S_nth_error {A : Type} (l : list A) (n : nat) (x : A) :
  nth_error l n = Some x -> firstn (S n) l = firstn n l ++ [x].
Proof.
  revert l. induction n as [|n IH]; intros [|a l]; cbn [nth_error];
    try discriminate.
  - now intros [= ->].
  - intros H. cbn [firstn app]. f_equal. exact (IH l H).
Qed.

Lemma undoN_spec (n : nat) :
  forall cs,
    current cs = Z.of_nat n - 1 -> (n <= length (changes cs))%nat ->
    undoN n cs =
    Done ({| changes := changes cs; current := -1; maxSize := maxSize cs |},
          rev (firstn n (changes cs))).
Proof.
  induction n as [|n IH]; intros cs Hcur Hlen.
  - cbn [undoN firstn rev]. destruct cs. cbn in Hcur. now subst.
  - assert (Hok : cursor_ok cs) by (unfold cursor_ok, len; lia).
    cbn [undoN].
    destruct (Undo_spec cs Hok) as [[Hc _]|[x [_ [Hn ->]]]]; [lia|].
    replace (Z.to_nat (current cs)) with n in Hn by lia.
    rewrite (IH _); cbn [changes current maxSize]; [|lia|lia].
    rewrite (firstn_S_nth_error _ _ _ Hn), rev_app_distr. reflexivity.
Qed.

Lemma redoN_spec (n : nat) :
  forall cs (k : nat),
    current cs = Z.of_nat k - 1 -> (k + n <= length (changes cs))%nat ->
    redoN n cs =
    Done ({| changes := changes cs; current := Z.of_nat (k + n) - 1;
             maxSize := maxSize cs |},
          firstn n (skipn k (changes cs))).
Proof.
  induction n as [|n IH]; intros cs k Hcur Hlen.
  - cbn [redoN firstn]. rewrite Nat.add_0_r. destruct cs. cbn in Hcur. now subst.
  - assert (Hok : cursor_ok cs) by (unfold cursor_ok, len; lia).
    cbn [redoN].
    destruct (Redo_spec cs Hok) as [[Hc _]|[x [_ [Hn ->]]]];
      [unfold len in Hc; lia|].
    replace (Z.to_nat (current cs + 1)) with k in Hn by lia.
    rewrite (IH _ (S k)); cbn [changes current maxSize]; [|lia|lia].
    rewrite (skipn_nth_error _ _ _ Hn). cbn [firstn].
    replace (S k + n)%nat with (k + S n)%nat by lia. reflexivity.
Qed.

(** From a stack with the cursor on its newest change, undoing as often as
    there are changes hands them back newest first and leaves nothing to
    undo; redoing as often then hands them back oldest first and puts the
    stack back as it was. *)
Theorem undo_all_then_redo_all :
  forall cs : ChangeStack,
    current cs = len (changes cs) - 1 ->
    exists cs0,
      undoN (length (changes cs)) cs = Done (cs0, rev (changes cs)) /\
      CanUndo cs0 = false /\
      changes cs0 = changes cs /\
      redoN (length (changes cs)) cs0 = Done (cs, changes cs).
Proof.
  intros cs Hcur.
  exists {| changes := changes cs; current := -1; maxSize := maxSize cs |}.
  split.
  - rewrite (undoN_spec _ cs Hcur (le_n _)). now rewrite firstn_all.
  - split; [reflexivity|]. split; [reflexivity|].
    rewrite (redoN_spec _ _ 0%nat); cbn [changes current maxSize];
      [|reflexivity|cbn; lia].
    cbn [skipn Nat.add]. rewrite firstn_all.
    unfold len in Hcur. rewrite <- Hcur. now destruct cs.
Qed.

Lemma undo_all_then_redo_all_witness :
  exists cs0,
    undoN 2 stack_ab = Done (cs0, [change_b; change_a]) /\
    CanUndo cs0 = false /\
    changes cs0 = changes stack_ab /\
    redoN 2 cs0 = Done (stack_ab, [change_a; change_b]).
Proof. exact (undo_all_then_redo_all stack_ab eq_refl). Defined.

End ChangeStackMore.


(** ** Lookup, update, delete, add and clone together *)

Section ModelMore.
Import model modelSpec.

Lemma with_Entries_same ef : with_Entries ef (Entries ef) = ef.
Proof. now destruct ef. Qed.

Lemma matches_with_Value h p value key q :
  matches (write h p (with_Value (h p) value)) key q = matches h key q.
Proof.
  unfold matches, write. now destruct (Nat.eqb q p) eqn:E;
    [apply Nat.eqb_eq in E; subst|].
Qed.

Lemma GetEntry_loop_ext h h' es key :
  (forall q, matches h' key q = matches h key q) ->
  GetEntry_loop h' es key = GetEntry_loop h es key.
Proof.
  intros H. induction es as [|e es IH]; cbn; [reflexivity|].
  now rewrite H, IH.
Qed.

Lemma GetEntry_loop_app h pre post key :
  GetEntry_loop h (pre ++ post) key =
  match GetEntry_loop h pre key with
  | Some q => Some q
  | None => GetEntry_loop h post key
  end.
Proof.
  induction pre as [|e pre IH]; cbn; [reflexivity|].
  now destruct (matches h key e).
Qed.

Lemma GetEntry_loop_None h es key :
  GetEntry_loop h es key = None <->
  forall q, In q es -> matches h key q = false.
Proof.
  induction es as [|e es IH]; cbn.
  - split; [intros _ q []|reflexivity].
  - destruct (matches h key e) eqn:E.
    + split; [discriminate|]. intros H. rewrite (H e) in E; [discriminate|auto].
    + rewrite IH. split.
      * intros H q [<-|Hq]; auto.
      * intros H q Hq. apply H. now right.
Qed.

(** The three loops stop at the same entry. *)
Lemma first_match h es key :
  forall done,
    match GetEntry_loop h es key with
    | None =>
      (forall value, UpdateEntry_loop h es key value = (h, false)) /\
      DeleteEntry_loop h (done ++ es) es (length done) key = None
    | Some p =>
      (forall value, UpdateEntry_loop h es key value =
                     (write h p (with_Value (h p) value), true)) /\
      exists pre post,
        es = pre ++ p :: post /\
        GetEntry_loop h pre key = None /\
        DeleteEntry_loop h (done ++ es) es (length done) key =
        Some (done ++ pre ++ post)
    end.
Proof.
  intros done.
  destruct (DeleteEntry_loop_spec h done es key)
    as [[Hno Hd]|(pre & p & post & Hes & Hno & Hp & Hd)].
  - apply GetEntry_loop_None in Hno as Hg. rewrite Hg. split; [|exact Hd].
    intros value.
    destruct (UpdateEntry_loop_spec h es key value)
      as [[_ Hu]|(pre & p & post & Hes & _ & Hp & _)]; [exact Hu|].
    rewrite (Hno p) in Hp; [discriminate|].
    rewrite Hes. apply in_or_app. right. now left.
  - assert (Hg : GetEntry_loop h es key = Some p).
    { rewrite Hes, GetEntry_loop_app.
      apply GetEntry_loop_None in Hno. rewrite Hno. cbn. now rewrite Hp. }
    rewrite Hg. split.
    + intros value. rewrite Hes. clear Hd Hg Hes.
      induction pre as [|e pre IH]; cbn [app UpdateEntry_loop].
      * now rewrite Hp.
      * rewrite (Hno e) by now left. apply IH. intros q Hq. apply Hno.
        now right.
    + exists pre, post. apply GetEntry_loop_None in Hno. auto.
Qed.

(** A lookup, an update and a delete for the same key agree on the entry:
    when the lookup finds nothing, the update and the delete return false
    and change nothing; when it finds an entry, the update writes the value
    of that very entry and the delete takes that occurrence, the first with
    the key, out of the list. *)
Theorem lookup_update_delete_agree :
  forall (h : Heap) (ef : EnvFile) (key value : gostring),
    match GetEntry h ef key with
    | None =>
      UpdateEntry h ef key value = (h, false) /\
      DeleteEntry h ef key = (ef, false)
    | Some p =>
      UpdateEntry h ef key value =
      (write h p (with_Value (h p) value), true) /\
      exists pre post,
        Entries ef = pre ++ p :: post /\
        GetEntry_loop h pre key = None /\
        DeleteEntry h ef key = (with_Entries ef (pre ++ post), true)
    end.
Proof.
  intros h ef key value. unfold GetEntry, UpdateEntry, DeleteEntry.
  pose proof (first_match h (Entries ef) key []) as H.
  cbn [app length] in H.
  destruct (GetEntry_loop h (Entries ef) key) as [p|].
  - destruct H as [Hu (pre & post & Hes & Hpre & Hd)].
    split; [apply Hu|]. exists pre, post. now rewrite Hd.
  - destruct H as [Hu Hd]. now rewrite Hd.
Qed.

(** After an update of a key that the document has, a lookup of any key
    returns the entry it returned before; the entry for the updated key
    holds the new value, the entries for the other keys hold theirs; and a
    second update of the key overwrites the first. *)
Theorem update_then_lookup :
  forall (h : Heap) (ef : EnvFile) (key value : gostring) (p : loc),
    GetEntry h ef key = Some p ->
    let h' := fst (UpdateEntry h ef key value) in
    snd (UpdateEntry h ef key value) = true /\
    (forall key', GetEntry h' ef key' = GetEntry h ef key') /\
    Value (h' p) = value /\
    (forall key' q, key' <> key -> GetEntry h ef key' = Some q ->
                    h' q = h q) /\
    (forall value' q, fst (UpdateEntry h' ef key value') q =
                      fst (UpdateEntry h ef key value') q).
Proof.
  intros h ef key value p Hget h'.
  pose proof (lookup_agree := first_match h (Entries ef) key []).
  unfold GetEntry in Hget. rewrite Hget in lookup_agree.
  destruct lookup_agree as [Hu _].
  assert (Hh' : h' = write h p (with_Value (h p) value))
    by (unfold h', UpdateEntry; now rewrite Hu).
  assert (Hlook : forall key', GetEntry h' ef key' = GetEntry h ef key').
  { intros key'. unfold GetEntry. apply GetEntry_loop_ext. intros q.
    rewrite Hh'. apply matches_with_Value. }
  split; [unfold UpdateEntry; now rewrite Hu|].
  split; [exact Hlook|].
  split; [rewrite Hh', write_same; reflexivity|].
  split.
  - intros key' q Hne Hq. rewrite Hh'. apply write_other. intros ->.
    apply GetEntry_loop_matches in Hq as [_ Hq].
    apply GetEntry_loop_matches in Hget as [_ Hp].
    apply matches_spec in Hq, Hp. destruct Hq, Hp. congruence.
  - intros value' q.
    pose proof (first_match h' (Entries ef) key []) as H2.
    specialize (Hlook key). unfold GetEntry in Hlook.
    rewrite Hlook, Hget in H2. destruct H2 as [Hu2 _].
    unfold UpdateEntry. rewrite Hu2, Hu. cbn [fst]. rewrite Hh'.
    unfold write. destruct (Nat.eqb q p); [|reflexivity].
    rewrite Nat.eqb_refl. reflexivity.
Qed.

Lemma update_then_lookup_witness :
  let h' := fst (UpdateEntry sample_heap sample_file (str "A") (str "9")) in
  GetEntry sample_heap sample_file (str "A") = Some 1%nat /\
  GetEntry h' sample_file (str "A") = Some 1%nat /\
  Value (h' 1%nat) = str "9".
Proof.
  pose proof (update_then_lookup sample_heap sample_file (str "A") (str "9")
                1%nat eq_refl) as H.
  cbv zeta in H. destruct H as (_ & Hlook & Hval & _).
  split; [reflexivity|]. split; [|exact Hval].
  rewrite Hlook. reflexivity.
Defined.

Lemma filter_matches_None h es key :
  GetEntry_loop h es key = None -> filter (matches h key) es = [].
Proof.
  intros H. induction es as [|e es IH]; cbn in *; [reflexivity|].
  destruct (matches h key e); [discriminate|auto].
Qed.

Lemma matches_other_key h key key' q :
  key' <> key -> matches h key q = true -> matches h key' q = false.
Proof.
  intros Hne Hq. apply matches_spec in Hq as [_ Hk].
  destruct (matches h key' q) eqn:E; [|reflexivity].
  apply matches_spec in E as [_ E]. congruence.
Qed.

(** A delete takes out one occurrence of the key, the first: lookups of
    every other key return what they returned before, and the key itself is
    gone from the document only if it occurred at most once; with several
    entries for the key, the lookup then finds the next one. *)
Theorem delete_then_lookup :
  forall (h : Heap) (ef : EnvFile) (key : gostring),
    let ef' := fst (DeleteEntry h ef key) in
    (forall key', key' <> key -> GetEntry h ef' key' = GetEntry h ef key') /\
    occurrences h ef' key = pred (occurrences h ef key) /\
    (GetEntry h ef' key = None <-> (occurrences h ef key <= 1)%nat) /\
    (snd (DeleteEntry h ef key) = false <-> occurrences h ef key = 0%nat).
Proof.
  intros h ef key ef'.
  pose proof (first_match h (Entries ef) key []) as H.
  cbn [app length] in H. unfold ef', DeleteEntry, GetEntry, occurrences.
  destruct (GetEntry_loop h (Entries ef) key) as [p|] eqn:Hget.
  - destruct H as [_ (pre & post & Hes & Hpre & Hd)]. rewrite Hd.
    cbn [fst snd with_Entries Entries]. rewrite Hes.
    apply GetEntry_loop_matches in Hget as [_ Hp].
    rewrite !filter_app, (filter_matches_None _ _ _ Hpre). cbn [filter app].
    rewrite Hp. cbn [length pred].
    split; [|split; [reflexivity|split; [|split; discriminate]]].
    + intros key' Hne. rewrite !GetEntry_loop_app. cbn [GetEntry_loop].
      now rewrite (matches_other_key h key key' p Hne Hp).
    + rewrite GetEntry_loop_app, Hpre. split.
      * intros Hn. rewrite (filter_matches_None _ _ _ Hn). cbn. lia.
      * intros Hle. apply GetEntry_loop_None. intros q Hq.
        destruct (matches h key q) eqn:E; [|reflexivity].
        assert (In q (filter (matches h key) post))
          by (apply filter_In; auto).
        destruct (filter (matches h key) post); [contradiction|cbn in Hle; lia].
  - destruct H as [_ Hd]. rewrite Hd. cbn [fst snd].
    rewrite (filter_matches_None _ _ _ Hget). cbn [length pred].
    repeat split; auto.
Qed.

(** AddEntry appends and never replaces: a lookup still returns the entry
    it returned before, and returns the new entry only for a key that the
    document did not have; deleting that key again gives the document
    back. *)
Theorem add_keeps_first_match :
  forall (h : Heap) (ef : EnvFile) (p : loc) (key : gostring),
    GetEntry h (AddEntry ef p) key =
    match GetEntry h ef key with
    | Some q => Some q
    | None => if matches h key p then Some p else None
    end /\
    (GetEntry h ef key = None -> matches h key p = true ->
     DeleteEntry h (AddEntry ef p) key = (ef, true)).
Proof.
  intros h ef p key. split.
  - unfold GetEntry, AddEntry. cbn [with_Entries Entries].
    now rewrite GetEntry_loop_app.
  - intros Hnone Hp. unfold DeleteEntry, AddEntry, GetEntry in *.
    cbn [with_Entries Entries].
    destruct (DeleteEntry_loop_spec h [] (Entries ef ++ [p]) key)
      as [[Hno _]|(pre & q & post & Hes & Hno & Hq & Hd)].
    + rewrite (Hno p) in Hp; [discriminate|].
      apply in_or_app. right. now left.
    + cbn [app length] in Hd. rewrite Hd.
      assert (Hpre : pre = Entries ef /\ post = []).
      { apply GetEntry_loop_None in Hno.
        assert (Hall := proj1 (GetEntry_loop_None h (Entries ef) key) Hnone).
        clear Hd Hnone. revert pre Hes Hno.
        induction (Entries ef) as [|e es IH]; intros pre Hes Hno.
        - destruct pre as [|x pre]; cbn in Hes.
          + injection Hes as _ <-. auto.
          + injection Hes as _ Hes. now destruct pre.
        - destruct pre as [|x pre]; cbn in Hes.
          + injection Hes as -> _. rewrite (Hall q) in Hq; [discriminate|].
            now left.
          + injection Hes as <- Hes.
            destruct (matches h key e) eqn:E; [cbn in Hno; now rewrite E in Hno|].
            cbn in Hno. rewrite E in Hno.
            destruct (IH (fun q Hq => Hall q (or_intror Hq)) pre Hes Hno)
              as [-> ->]. auto. }
      destruct Hpre as [-> ->]. rewrite app_nil_r. cbn.
      now destruct ef.
Qed.

(** *** Clone *)

Lemma Clone_loop_spec (es : list loc) :
  forall st,
    Forall (fun p => (p < fresh st)%nat) es ->
    fst (Clone_loop es st) = seq (fresh st) (length es) /\
    fresh (snd (Clone_loop es st)) = (fresh st + length es)%nat /\
    (forall q, (q < fresh st)%nat ->
               cells (snd (Clone_loop es st)) q = cells st q) /\
    map (cells (snd (Clone_loop es st))) (fst (Clone_loop es st)) =
    map (cells st) es.
Proof.
  induction es as [|e es IH]; intros st Hall.
  - cbn. rewrite Nat.add_0_r. auto.
  - cbn [Clone_loop new]. inversion Hall as [|? ? He Hes]; subst.
    set (st1 := {| cells := _; fresh := S (fresh st) |}).
    assert (Hall1 : Forall (fun p => (p < fresh st1)%nat) es).
    { revert Hes. apply Forall_impl. cbn. lia. }
    destruct (IH st1 Hall1) as (Hps & Hfresh & Hold & Hmap).
    destruct (Clone_loop es st1) as [ps st2]. cbn [fst snd] in *.
    assert (Hcopy : cells st2 (fresh st) = cells st e).
    { rewrite Hold by (cbn; lia). cbn [st1 cells]. rewrite write_same.
      now destruct (cells st e). }
    repeat split.
    + cbn [length seq]. now rewrite Hps.
    + rewrite Hfresh. cbn. lia.
    + intros q Hq. rewrite Hold by (cbn; lia). cbn [st1 cells].
      apply write_other. lia.
    + cbn [map]. rewrite Hcopy, Hmap. f_equal. apply map_ext_in.
      intros q Hq. cbn [st1 cells]. apply write_other.
      rewrite Forall_forall in Hes. specialize (Hes q Hq). lia.
Qed.

(** Clone makes a deep copy: the copy lists as many entries, each one new,
    no two the same, holding what the entries of the document hold, in
    order; the entries of the document are as they were.  An update through
    the copy reaches no entry of the document, and an update through the
    document reaches no entry of the copy. *)
Theorem clone_is_independent :
  forall (st : Store) (ef : EnvFile),
    allocated st ef ->
    let copy := fst (Clone ef st) in
    let st' := snd (Clone ef st) in
    map (cells st') (Entries copy) = map (cells st) (Entries ef) /\
    Path copy = Path ef /\ isModified copy = isModified ef /\
    NoDup (Entries copy) /\
    (forall p, In p (Entries copy) -> (fresh st <= p < fresh st')%nat) /\
    (forall q, (q < fresh st)%nat -> cells st' q = cells st q) /\
    (forall key value q,
        (q < fresh st)%nat ->
        fst (UpdateEntry (cells st') copy key value) q = cells st q) /\
    (forall key value p,
        In p (Entries copy) ->
        fst (UpdateEntry (cells st') ef key value) p = cells st' p).
Proof.
  intros st ef Halloc copy st'.
  assert (Hall : Forall (fun p => (p < fresh st)%nat) (Entries ef))
    by (apply Forall_forall; exact Halloc).
  destruct (Clone_loop_spec (Entries ef) st Hall) as (Hps & Hfresh & Hold & Hmap).
  unfold copy, st', Clone in *.
  destruct (Clone_loop (Entries ef) st) as [ps st2]. cbn [fst snd] in *.
  cbn [Entries Path isModified].
  assert (Hin : forall p, In p ps -> (fresh st <= p < fresh st2)%nat).
  { intros p Hp. rewrite Hps in Hp. apply in_seq in Hp. lia. }
  assert (Hupd : forall es key value q,
             ~ In q es ->
             fst (UpdateEntry_loop (cells st2) es key value) q = cells st2 q).
  { intros es key value q Hq.
    destruct (UpdateEntry_loop_spec (cells st2) es key value)
      as [[_ ->]|(pre & p & post & Hes & _ & _ & ->)]; [reflexivity|].
    cbn [fst]. apply write_other. intros ->. apply Hq. rewrite Hes.
    apply in_or_app. right. now left. }
  repeat split; try assumption; try reflexivity.
  - rewrite Hps. apply seq_NoDup.
  - apply Hin, H.
  - apply Hin, H.
  - intros key value q Hq. unfold UpdateEntry. cbn [Entries].
    rewrite Hupd; [now apply Hold|]. intros Hc. apply Hin in Hc. lia.
  - intros key value p Hp. unfold UpdateEntry. apply Hupd.
    intros Hc. apply Halloc in Hc. apply Hin in Hp. lia.
Qed.

Lemma clone_is_independent_witness :
  let copy := fst (Clone sample_file sample_store) in
  let st' := snd (Clone sample_file sample_store) in
  Entries copy = [4; 5; 6; 7]%nat /\
  map (cells st') (Entries copy) = map sample_heap [0; 1; 2; 3]%nat /\
  Value (fst (UpdateEntry (cells st') copy (str "A") (str "9")) 1%nat)
  = str "1".
Proof.
  assert (Ha : allocated sample_store sample_file).
  { intros p Hp. cbn in Hp. cbn. lia. }
  pose proof (clone_is_independent sample_store sample_file Ha) as H.
  cbv zeta in H. destruct H as (Hmap & _ & _ & _ & _ & _ & Hupd & _).
  split; [reflexivity|]. split; [exact Hmap|].
  rewrite (Hupd (str "A") (str "9") 1%nat); [reflexivity|cbn; lia].
Defined.

(** *** FilterEntries *)

Lemma Subseq_refl {A : Type} (l : list A) : Subseq l l.
Proof. induction l; constructor; assumption. Qed.

(** A search for the key of a key-value entry of the document, or for its
    value, in whatever letter case the query has it, returns that entry. *)
Theorem filter_finds_own_key_and_value :
  forall (h : Heap) (ef : EnvFile) (p : loc) (query : gostring),
    In p (Entries ef) ->
    Type_ (h p) = KeyValueEntry ->
    strings.ToLower query = strings.ToLower (Key (h p)) \/
    strings.ToLower query = strings.ToLower (Value (h p)) ->
    In p (FilterEntries h ef query).
Proof.
  intros h ef p query Hin Hty Hq. unfold FilterEntries.
  assert (Hkv : In p (filter (fun entry =>
                                EntryType_eqb (Type_ (h entry)) KeyValueEntry)
                             (Entries ef))).
  { apply filter_In. split; [exact Hin|]. now apply EntryType_eqb_eq. }
  destruct (strings.eqb query []); [exact Hkv|].
  apply filter_In. split; [exact Hkv|]. cbv zeta.
  apply orb_true_iff.
  destruct Hq as [-> | ->]; [left|right]; apply fuzzyMatch_spec, Subseq_refl.
Qed.

Lemma filter_finds_own_key_and_value_witness :
  In 1%nat (FilterEntries sample_heap sample_file (str "a")).
Proof.
  apply (filter_finds_own_key_and_value sample_heap sample_file 1%nat (str "a")).
  - cbn. auto.
  - reflexivity.
  - left. vm_compute. reflexivity.
Defined.

End ModelMore.

(** ** Validation *)

Section ValidationProperties.
Import model validation validationSpec.

Lemma strings_eqb_sym (a b : gostring) : strings.eqb a b = strings.eqb b a.
Proof.
  destruct (strings.eqb a b) eqn:E; symmetry.
  - apply strings_eqb_eq in E. subst. apply strings_eqb_refl.
  - apply strings_eqb_neq. apply strings_eqb_neq in E. congruence.
Qed.

Lemma Validate_loop_issues h es :
  forall issues keysSeen,
    Validate_loop h es issues keysSeen =
    (issues ++ fst (Validate_loop h es [] keysSeen),
     snd (Validate_loop h es [] keysSeen)).
Proof.
  induction es as [|e es IH]; intros issues ks; cbn [Validate_loop].
  - cbn. now rewrite app_nil_r.
  - destruct (EntryType_eqb (Type_ (h e)) KeyValueEntry).
    + destruct (ks (model.Key (h e))) as [prevLine|];
        rewrite IH; symmetry; rewrite IH; cbn [fst snd app];
        now rewrite <- ?app_assoc.
    + rewrite IH. symmetry. rewrite IH. cbn [fst snd app].
      now rewrite <- ?app_assoc.
Qed.

Lemma Validate_loop_app h a b :
  forall issues keysSeen,
    Validate_loop h (a ++ b) issues keysSeen =
    Validate_loop h b (fst (Validate_loop h a issues keysSeen))
                  (snd (Validate_loop h a issues keysSeen)).
Proof.
  induction a as [|e a IH]; intros issues ks; cbn [app Validate_loop].
  - reflexivity.
  - destruct (EntryType_eqb (Type_ (h e)) KeyValueEntry); apply IH.
Qed.

Lemma previous_cons h e pre key :
  previous h (e :: pre) key =
  match previous h pre key with
  | Some q => Some q
  | None => if matches h key e then Some e else None
  end.
Proof.
  unfold previous. cbn [rev].
  induction (rev pre) as [|x l IH]; cbn [app find]; [reflexivity|].
  now destruct (matches h key x).
Qed.

(** What the map holds for a key after the loop: the line of the nearest
    entry with the key. *)
Lemma keysSeen_previous h pre :
  forall issues keysSeen key,
    snd (Validate_loop h pre issues keysSeen) key =
    match previous h pre key with
    | Some q => Some (model.Line (h q))
    | None => keysSeen key
    end.
Proof.
  induction pre as [|e pre IH]; intros issues ks key.
  - reflexivity.
  - cbn [Validate_loop]. rewrite previous_cons.
    destruct (EntryType_eqb (Type_ (h e)) KeyValueEntry) eqn:Ety;
      rewrite IH; destruct (previous h pre key); try reflexivity;
      unfold matches, set; rewrite Ety; cbn [andb]; [|reflexivity].
    rewrite strings_eqb_sym. now destruct (strings.eqb (model.Key (h e)) key).
Qed.

Lemma Validate_snoc h pre p :
  fst (Validate_loop h (pre ++ [p]) [] make) =
  fst (Validate_loop h pre [] make) ++ Entry_Validate (h p) ++
  duplicateOf h pre p.
Proof.
  rewrite Validate_loop_app. cbn [Validate_loop]. unfold duplicateOf.
  rewrite (keysSeen_previous h pre [] make). unfold make.
  destruct (Type_ (h p)); cbn [EntryType_eqb fst];
    [|now rewrite app_nil_r..].
  destruct (previous h pre (model.Key (h p))); cbn [fst];
    now rewrite <- ?app_assoc, ?app_nil_r.
Qed.

(** The issues of a document come entry by entry, in document order: with
    one more entry at its end, the document has the issues it had, then
    those of the new entry alone, then, if an earlier key-value entry has
    the same key, one duplicate-key error that cites the line of the nearest
    such entry.  A document without entries has no issues. *)
Theorem validate_entry_by_entry :
  forall (h : Heap) (ef : EnvFile) (p : loc),
    Validate h (AddEntry ef p) =
    Validate h ef ++ Entry_Validate (h p) ++ duplicateOf h (Entries ef) p /\
    Validate h (with_Entries ef []) = [].
Proof.
  intros h ef p. split; [|reflexivity].
  unfold Validate, AddEntry. cbn [with_Entries Entries]. apply Validate_snoc.
Qed.

Lemma previous_None h pre key :
  previous h pre key = None <-> ~ In key (keysOf h pre).
Proof.
  unfold previous, keysOf. split.
  - intros Hnone Hin. apply in_map_iff in Hin as (q & Hk & Hq).
    apply filter_In in Hq as [Hq Hty].
    apply in_rev in Hq. pose proof (find_none _ _ Hnone q Hq) as Hm.
    unfold matches in Hm. rewrite Hty, Hk, strings_eqb_refl in Hm.
    discriminate.
  - intros Hnot. destruct (find (matches h key) (rev pre)) as [q|] eqn:E;
      [|reflexivity].
    apply find_some in E as [Hq Hm]. apply in_rev in Hq.
    apply matches_spec in Hm as [Hty Hk]. exfalso. apply Hnot.
    apply in_map_iff. exists q. split; [exact Hk|].
    apply filter_In. split; [exact Hq|]. now apply EntryType_eqb_eq.
Qed.

Lemma NoDup_snoc {A : Type} (l : list A) (x : A) :
  NoDup (l ++ [x]) <-> NoDup l /\ ~ In x l.
Proof.
  split.
  - intros H. apply NoDup_remove in H. now rewrite app_nil_r in H.
  - intros [Hl Hx]. apply NoDup_rev in Hl. rewrite <- (rev_involutive (l ++ [x])).
    apply NoDup_rev. rewrite rev_app_distr. cbn. constructor; [|exact Hl].
    now rewrite <- in_rev.
Qed.

(** A document validates without issues exactly when none of its entries
    has an issue of its own and no two of its key-value entries have the
    same key. *)
Theorem validate_clean_iff :
  forall (h : Heap) (ef : EnvFile),
    Validate h ef = [] <->
    (forall p, In p (Entries ef) -> Entry_Validate (h p) = []) /\
    NoDup (keysOf h (Entries ef)).
Proof.
  intros h ef. unfold Validate. generalize (Entries ef) as es. intros es.
  induction es as [|p pre IH] using rev_ind.
  - cbn. split; [|reflexivity]. intros _. split; [intros p []|constructor].
  - rewrite Validate_snoc.
    assert (Hkeys : keysOf h (pre ++ [p]) =
                    keysOf h pre ++
                    (if EntryType_eqb (Type_ (h p)) KeyValueEntry
                     then [model.Key (h p)] else [])).
    { unfold keysOf. rewrite filter_app, map_app. cbn [filter].
      now destruct (EntryType_eqb (Type_ (h p)) KeyValueEntry). }
    rewrite Hkeys.
    split.
    + intros H. apply app_eq_nil in H as [Hpre H].
      apply app_eq_nil in H as [Hp Hd]. apply IH in Hpre as [Hall Hnd].
      split.
      * intros q Hq. apply in_app_or in Hq as [Hq|[<-|[]]]; auto.
      * unfold duplicateOf in Hd.
        destruct (Type_ (h p)); cbn [EntryType_eqb];
          [|now rewrite app_nil_r..].
        apply NoDup_snoc. split; [exact Hnd|]. apply previous_None.
        now destruct (previous h pre (model.Key (h p))).
    + intros [Hall Hnd].
      assert (Hpre : fst (Validate_loop h pre [] make) = []).
      { apply IH. split.
        - intros q Hq. apply Hall, in_or_app. now left.
        - destruct (EntryType_eqb (Type_ (h p)) KeyValueEntry);
            [now apply NoDup_snoc in Hnd|now rewrite app_nil_r in Hnd]. }
      rewrite Hpre, (Hall p) by (apply in_or_app; right; now left).
      cbn [app]. unfold duplicateOf.
      destruct (Type_ (h p)); cbn [EntryType_eqb] in *; try reflexivity.
      apply NoDup_snoc in Hnd as [_ Hnot]. apply previous_None in Hnot.
      now rewrite Hnot.
Qed.


End ValidationProperties.

(** ** More on the parser *)

Section ParserMore.
Import model parser parserSpec stringsSpec.

(** *** Line numbers *)

Lemma quotedLines_consumed (quote : ascii) (following : list gostring) :
  forall cur result n,
    (n <= snd (quotedLines quote cur following result n)
     <= n + length following)%nat.
Proof.
  induction following as [|next following IH]; intros cur result n;
    cbn [quotedLines]; destruct (scanQuoted quote cur result) as [r [|]];
    cbn [snd length]; try lia.
  specialize (IH next (r ++ [newline]) (S n)). lia.
Qed.

Lemma parseValue_consumed (valueStr : gostring) (lines : list gostring)
      (i : nat) :
  (snd (parseValue valueStr lines i) <= length (skipn (i + 1) lines))%nat.
Proof.
  unfold parseValue. destruct (strings.TrimSpace valueStr) as [|c v];
    [cbn; lia|].
  destruct (Ascii.eqb c dquote || Ascii.eqb c squote); [|cbn; lia].
  unfold parseQuotedValue.
  pose proof (quotedLines_consumed c (skipn (i + 1) lines)
                                   (skipn 1 (c :: v)) [] 0). lia.
Qed.

Lemma parseLine_consumed (lines : list gostring) (i : nat) (line : gostring) :
  (snd (parseLine lines i line) <= length (skipn (i + 1) lines))%nat /\
  forall e, fst (parseLine lines i line) = Some e ->
            Line e = Z.of_nat (i + snd (parseLine lines i line)) + 1.
Proof.
  unfold parseLine.
  destruct (strings.eqb (strings.TrimSpace line) []).
  { cbn [fst snd]. split; [lia|]. intros e [= <-]. cbn [Line].
    now rewrite Nat.add_0_r. }
  destruct (strings.HasPrefix (strings.TrimSpace line) (str "#")).
  { cbn [fst snd]. split; [lia|]. intros e [= <-]. cbn [Line].
    now rewrite Nat.add_0_r. }
  set (trimmed := if strings.HasPrefix (strings.TrimSpace line) (str "export ")
                  then _ else _).
  destruct (strings.Index trimmed (str "=") =? -1);
    [cbn [fst snd]; split; [lia|discriminate]|].
  set (key := strings.TrimSpace _).
  destruct (strings.eqb key [] || negb (isValidKey key));
    [cbn [fst snd]; split; [lia|discriminate]|].
  pose proof (parseValue_consumed
                (skipn (Z.to_nat (strings.Index trimmed (str "=") + 1)) trimmed)
                lines i) as Hc.
  destruct (parseValue _ lines i) as [value c]. cbn [fst snd] in *.
  split; [exact Hc|]. intros e [= <-]. reflexivity.
Qed.

Lemma skipn_cons_eq {A : Type} (l : list A) (i : nat) (x : A) (rest : list A) :
  skipn i l = x :: rest ->
  (i < length l)%nat /\ forall c, skipn c rest = skipn (i + c + 1) l.
Proof.
  intros H. split.
  - destruct (Nat.lt_ge_cases i (length l)) as [Hlt|Hge]; [exact Hlt|].
    rewrite skipn_all2 in H by exact Hge. discriminate.
  - intros c. replace (i + c + 1)%nat with (c + 1 + i)%nat by lia.
    rewrite <- skipn_skipn, H. replace (c + 1)%nat with (S c) by lia.
    reflexivity.
Qed.

Lemma parseLoop_lines (steps : nat) (lines : list gostring) :
  forall (i : nat) (rest : list gostring),
    rest = skipn i lines ->
    Forall (fun e => Z.of_nat i < Line e <= len lines)
           (parseLoop steps lines i rest) /\
    StronglySorted (fun a b => Line a < Line b) (parseLoop steps lines i rest).
Proof.
  induction steps as [|steps IH]; intros i rest Hrest;
    [split; constructor|].
  destruct rest as [|line rest]; [split; constructor|]. cbn [parseLoop].
  symmetry in Hrest. apply skipn_cons_eq in Hrest as [Hi Hskip].
  destruct (parseLine_consumed lines i line) as [Hc Hline].
  destruct (parseLine lines i line) as [entry consumed]. cbn [fst snd] in *.
  destruct (IH (i + consumed + 1)%nat (skipn consumed rest) (Hskip consumed))
    as [Hall Hsorted].
  assert (Hall' : Forall (fun e => Z.of_nat (i + consumed) + 1 < Line e
                                   <= len lines)
                         (parseLoop steps lines (i + consumed + 1)
                                    (skipn consumed rest))).
  { revert Hall. apply Forall_impl. intros e. lia. }
  rewrite length_skipn in Hc.
  destruct entry as [e|].
  - specialize (Hline e eq_refl). split.
    + constructor; [unfold len; lia|].
      revert Hall. apply Forall_impl. intros e'. lia.
    + constructor; [exact Hsorted|].
      revert Hall'. apply Forall_impl. intros e'. lia.
  - split; [|exact Hsorted]. revert Hall. apply Forall_impl. intros e'. lia.
Qed.

Lemma sorted_length (es : list Entry) (lo hi : Z) :
  StronglySorted (fun a b => Line a < Line b) es ->
  Forall (fun e => lo < Line e <= hi) es ->
  lo <= hi -> len es <= hi - lo.
Proof.
  intros Hs. revert lo. induction Hs as [|e es Hs IH Hlt]; intros lo Hall Hle.
  - unfold len. cbn. lia.
  - inversion Hall as [|? ? He Hes]; subst.
    assert (len es <= hi - Line e).
    { apply IH; [|lia]. rewrite Forall_forall in *. intros e' He'.
      specialize (Hlt e' He'). specialize (Hes e' He'). lia. }
    unfold len in *. cbn [length]. lia.
Qed.

(** The entries of a parse carry the numbers of the lines they come from,
    counted from 1 (for a value that runs over several lines, the number of
    its last line): the numbers grow along the document and none is beyond
    the last line, so there are at most as many entries as lines. *)
Theorem parse_line_numbers :
  forall input : gostring,
    let lines := strings.Split input newline in
    StronglySorted (fun a b => Line a < Line b) (parseEntries input) /\
    Forall (fun e => 1 <= Line e <= len lines) (parseEntries input) /\
    len (parseEntries input) <= len lines.
Proof.
  intros input lines. unfold parseEntries. fold lines.
  destruct (parseLoop_lines (length lines) lines 0 lines eq_refl)
    as [Hall Hsorted].
  split; [exact Hsorted|]. split.
  - revert Hall. apply Forall_impl. intros e. cbn. lia.
  - replace (len lines) with (len lines - 0) by lia.
    apply sorted_length; [exact Hsorted|exact Hall|]. unfold len. lia.
Qed.

(** *** Reading what was written, and writing it again *)

Lemma parseLine_String_same (lines : list gostring) (i : nat) (e : Entry) :
  parsedEntry e ->
  (Type_ e = KeyValueEntry -> plainValue (Value e)) ->
  exists e', parseLine lines i (String e) = (Some e', 0%nat) /\
             String e' = String e.
Proof.
  intros Hp Hv. unfold parsedEntry in Hp. unfold String at 1 3.
  destruct (Type_ e) eqn:Hty.
  - destruct Hp as (Hkey & Htrim & Hc). cbv beta iota zeta. rewrite Hc.
    cbn [strings.eqb negb]. rewrite (app_nil_r (Value e)).
    eexists. split.
    + apply (parseLine_assignment lines i (Key e) (Value e) (Exported e)
               Hkey Htrim (Hv eq_refl)).
    + unfold String. cbn [Type_ Key Value Comment Exported strings.eqb negb].
      now rewrite app_nil_r.
  - destruct Hp as (Hb & Hc & _). unfold blankLine, commentLine in *.
    eexists. split.
    + unfold parseLine. rewrite Hb, Hc. reflexivity.
    + reflexivity.
  - eexists. split; reflexivity.
Qed.

Lemma parseLoop_written_text (es : list Entry) :
  Forall parsedEntry es ->
  Forall (fun e => Type_ e = KeyValueEntry -> plainValue (Value e)) es ->
  forall (steps : nat) (lines : list gostring) (i : nat),
    (length es < steps)%nat ->
    exists es' last,
      parseLoop steps lines i (map String es ++ [[]]) = es' ++ [last] /\
      map String es' = map String es /\
      Type_ last = BlankEntry.
Proof.
  intros Hp Hv. induction Hp as [|e es He Hp IH];
    intros steps lines i Hsteps.
  - destruct steps as [|steps]; [cbn in Hsteps; lia|]. cbn [map app parseLoop].
    replace (parseLine lines i []) with
      (Some {| Type_ := BlankEntry; Key := []; Value := []; Comment := [];
               Line := Z.of_nat i + 1; Exported := false;
               IsSecret := false |}, 0%nat) by reflexivity.
    cbn [skipn]. rewrite parseLoop_nil. exists [].
    eexists. split; [reflexivity|]. split; reflexivity.
  - destruct steps as [|steps]; [cbn in Hsteps; lia|].
    inversion Hv as [|? ? Hve Hv']; subst.
    cbn [map app parseLoop].
    destruct (parseLine_String_same lines i e He Hve) as [e' [-> Hs]].
    cbn [skipn].
    destruct (IH Hv' steps lines (i + 0 + 1)%nat) as (es' & last & -> & Hm & Hl);
      [cbn [length] in Hsteps; lia|].
    exists (e' :: es'), last. split; [reflexivity|]. split; [|exact Hl].
    cbn [map]. now rewrite Hs, Hm.
Qed.

Lemma textOf_map_String (es es' : list Entry) :
  map String es' = map String es -> textOf es' = textOf es.
Proof.
  revert es. induction es' as [|e' es' IH]; intros [|e es] H;
    try discriminate; [reflexivity|].
  cbn [map] in H. injection H as He Hes. unfold textOf in *.
  cbn [flat_map]. now rewrite He, (IH es Hes).
Qed.

Lemma textOf_lines (es : list Entry) :
  flat_map (fun l => l ++ [newline]) (map String es) = textOf es.
Proof.
  unfold textOf. induction es as [|e es IH]; [reflexivity|].
  cbn [map flat_map]. now rewrite IH.
Qed.

Lemma textOf_app (a b : list Entry) : textOf (a ++ b) = textOf a ++ textOf b.
Proof. unfold textOf. apply flat_map_app. Qed.

(** Take a document that Parse produced and whose values are plain (no
    white space at either end, no [#], no newline, no quote at the front).
    Reading the text written for it gives a document with one more entry, a
    blank line at the end, and writing that document gives the same text
    with one more newline: a file grows by an empty line each time it is
    loaded and saved. *)
Theorem load_and_save_appends_a_line :
  forall (input : gostring) (st : Store),
    let D := fst (fst (Parse input st)) in
    let st1 := snd (Parse input st) in
    (forall p, In p (Entries D) ->
               Type_ (cells st1 p) = KeyValueEntry ->
               plainValue (Value (cells st1 p))) ->
    let text := storage.serialize (cells st1) D in
    let D2 := fst (fst (Parse text st1)) in
    let st2 := snd (Parse text st1) in
    storage.serialize (cells st2) D2 = text ++ [newline] /\
    len (Entries D2) = len (Entries D) + 1 /\
    exists last, nth_error (Entries D2) (length (Entries D)) = Some last /\
                 Type_ (cells st2 last) = BlankEntry.
Proof.
  intros input st D st1 Hplain text D2 st2.
  pose proof (Parse_entries input st) as HD. fold D st1 in HD.
  pose proof (Parse_entries text st1) as HD2. fold D2 st2 in HD2.
  assert (Hp : Forall parsedEntry (map (cells st1) (Entries D)))
    by (rewrite HD; apply parseEntries_parsed).
  assert (Hv : Forall (fun e => Type_ e = KeyValueEntry -> plainValue (Value e))
                      (map (cells st1) (Entries D))).
  { apply Forall_forall. intros e He. apply in_map_iff in He as [p [<- Hin]].
    now apply Hplain. }
  assert (Hlines : strings.Split text newline
                   = map String (map (cells st1) (Entries D)) ++ [[]]).
  { unfold text. rewrite serialize_textOf. unfold textOf.
    rewrite <- (Split_lines (map String (map (cells st1) (Entries D))) newline).
    - f_equal. symmetry. apply textOf_lines.
    - apply Forall_forall. intros l Hl. apply in_map_iff in Hl as [e [<- He]].
      rewrite Forall_forall in Hp, Hv. apply String_no_newline; auto. }
  destruct (parseLoop_written_text _ Hp Hv
              (length (strings.Split text newline))
              (strings.Split text newline) 0%nat)
    as (es' & last & Hparse & Hsame & Hlast).
  { rewrite Hlines, length_app, !length_map. cbn. lia. }
  rewrite <- Hlines in Hparse. fold (parseEntries text) in Hparse.
  rewrite Hparse in HD2.
  assert (Hlen : length es' = length (Entries D)).
  { apply (f_equal (@length gostring)) in Hsame. now rewrite !length_map in Hsame. }
  split; [|split].
  - rewrite serialize_textOf, HD2, textOf_app.
    rewrite (textOf_map_String _ _ Hsame). unfold text.
    rewrite serialize_textOf. f_equal. unfold textOf, String. cbn [flat_map].
    rewrite Hlast. reflexivity.
  - apply (f_equal (@length Entry)) in HD2.
    rewrite length_map, length_app in HD2. cbn [length] in HD2.
    unfold len. lia.
  - assert (Hn : nth_error (map (cells st2) (Entries D2)) (length (Entries D))
                 = Some last).
    { rewrite HD2, nth_error_app2 by lia. rewrite Hlen, Nat.sub_diag.
      reflexivity. }
    rewrite nth_error_map in Hn.
    destruct (nth_error (Entries D2) (length (Entries D))) as [p|];
      [|discriminate].
    exists p. split; [reflexivity|]. cbn in Hn. injection Hn as ->.
    exact Hlast.
Qed.

Lemma load_and_save_appends_a_line_witness :
  let D := fst (fst (Parse plain_input empty_store)) in
  let st1 := snd (Parse plain_input empty_store) in
  let text := storage.serialize (cells st1) D in
  let D2 := fst (fst (Parse text st1)) in
  let st2 := snd (Parse text st1) in
  storage.serialize (cells st2) D2 = text ++ [newline] /\
  len (Entries D2) = len (Entries D) + 1 /\
  exists last, nth_error (Entries D2) (length (Entries D)) = Some last /\
               Type_ (cells st2 last) = BlankEntry.
Proof.
  cbv zeta.
  refine (load_and_save_appends_a_line plain_input empty_store _).
  refine (proj1 (Forall_forall
    (fun p => Type_ (cells (snd (Parse plain_input empty_store)) p)
              = KeyValueEntry ->
              plainValue
                (Value (cells (snd (Parse plain_input empty_store)) p)))
    (Entries (fst (fst (Parse plain_input empty_store))))) _).
  replace (Entries (fst (fst (Parse plain_input empty_store))))
    with [0; 1; 2; 3]%nat by (vm_compute; reflexivity).
  apply Forall_cons; [|apply Forall_cons; [|apply Forall_cons;
    [|apply Forall_cons; [|apply Forall_nil]]]].
  all: vm_compute.
  all: try (intros H; discriminate H).
  all: intros _; repeat split;
    intros H; repeat destruct H as [H|H]; try discriminate H; exact H.
Defined.

(** *** A quote that is never closed *)

Lemma scanQuoted_open (quote : ascii) (cur : gostring) :
  ~ In quote cur -> ~ In backslash cur ->
  forall result, scanQuoted quote cur result = (result ++ cur, false).
Proof.
  induction cur as [|ch rest IH]; intros Hq Hb result.
  - cbn. now rewrite app_nil_r.
  - assert (Hch : Ascii.eqb ch quote = false)
      by (apply Ascii.eqb_neq; intros ->; apply Hq; now left).
    assert (Hbs : Ascii.eqb ch backslash = false)
      by (apply Ascii.eqb_neq; intros ->; apply Hb; now left).
    assert (Htail : scanQuoted quote rest (result ++ [ch])
                    = (result ++ ch :: rest, false)).
    { rewrite IH; [now rewrite <- app_assoc| |]; intros H;
        [apply Hq|apply Hb]; now right. }
    cbn [scanQuoted]. rewrite Hch, Hbs. destruct rest; exact Htail.
Qed.

Lemma quotedLines_open (quote : ascii) (following : list gostring) :
  forall cur result n,
    Forall (openLine quote) (cur :: following) ->
    quotedLines quote cur following result n =
    (result ++ cur ++ flat_map (fun l => newline :: l) following,
     (n + length following)%nat).
Proof.
  induction following as [|next following IH]; intros cur result n Hall;
    inversion Hall as [|? ? (Hq & Hb & _) Hrest]; subst;
    cbn [quotedLines]; rewrite (scanQuoted_open quote cur Hq Hb).
  - cbn. now rewrite app_nil_r, Nat.add_0_r.
  - rewrite (IH next _ (S n) Hrest). cbn [flat_map length].
    f_equal; [|lia]. rewrite <- !app_assoc. reflexivity.
Qed.

Lemma Split_whole (s : gostring) (sep : ascii) :
  ~ In sep s -> strings.Split s sep = [s].
Proof.
  induction s as [|c s IH]; intros H; [reflexivity|]. cbn [strings.Split].
  destruct (Ascii.eqb_spec c sep) as [->|_]; [exfalso; apply H; now left|].
  rewrite IH; [reflexivity|]. intros Hin. apply H. now right.
Qed.

Lemma Split_app_sep (l s : gostring) (sep : ascii) :
  ~ In sep l ->
  strings.Split (l ++ sep :: s) sep = l :: strings.Split s sep.
Proof.
  induction l as [|c l IH]; intros H; cbn [app strings.Split].
  - now rewrite Ascii.eqb_refl.
  - destruct (Ascii.eqb_spec c sep) as [->|_]; [exfalso; apply H; now left|].
    rewrite IH; [reflexivity|]. intros Hin. apply H. now right.
Qed.

Lemma Split_joinLines (l : gostring) (ls : list gostring) :
  Forall (fun l => ~ In newline l) (l :: ls) ->
  strings.Split (joinLines (l :: ls)) newline = l :: ls.
Proof.
  revert l. unfold joinLines.
  induction ls as [|l' ls IH]; intros l Hall;
    inversion Hall as [|? ? Hl Hls]; subst; cbn [flat_map].
  - rewrite app_nil_r. now apply Split_whole.
  - change ((newline :: l') ++ flat_map (fun l0 => newline :: l0) ls)
      with (newline :: l' ++ flat_map (fun l0 => newline :: l0) ls).
    rewrite (Split_app_sep _ _ _ Hl). f_equal. now apply IH.
Qed.

(** A line [key=value] whose value has no white space at its end: the key
    is the key, and the value is what the value reader makes of [value]. *)
Lemma parseLine_key_value (lines : list gostring) (i : nat)
      (key value : gostring) :
  isValidKey key = true ->
  strings.TrimSpace key = key ->
  trimmed value ->
  parseLine lines i (key ++ "="%char :: value) =
  (Some {| Type_ := KeyValueEntry; Key := key;
           Value := fst (parseValue value lines i); Comment := [];
           Line := Z.of_nat (i + snd (parseValue value lines i)) + 1;
           Exported := false; IsSecret := isSecretKey key |},
   snd (parseValue value lines i)).
Proof.
  intros Hkey Hktrim Hvtrim.
  assert (Heq : ~ In "="%char key)
    by (apply isValidKey_not_In; [assumption|vm_compute; reflexivity]).
  assert (Hsp : ~ In " "%char key)
    by (apply isValidKey_not_In; [assumption|vm_compute; reflexivity]).
  assert (Hhash : ~ In "#"%char key)
    by (apply isValidKey_not_In; [assumption|vm_compute; reflexivity]).
  assert (Hkv : strings.TrimSpace (key ++ "="%char :: value)
                = key ++ "="%char :: value).
  { apply TrimSpace_trimmed.
    apply (trimmed_assignment [] key value); auto. }
  assert (Hnotexport :
            strings.HasPrefix (key ++ "="%char :: value) (str "export ")
            = false).
  { destruct (strings.HasPrefix (key ++ "="%char :: value) (str "export "))
             eqn:E; [exfalso|reflexivity].
    apply HasPrefix_app_cons in E as [E|E].
    - apply HasPrefix_spec in E as [t ->]. apply Hsp.
      apply in_or_app. left. cbn. tauto.
    - cbn in E. repeat destruct E as [E|E]; try discriminate; exact E. }
  assert (Hnotcomment :
            strings.HasPrefix (key ++ "="%char :: value) (str "#") = false).
  { destruct (strings.HasPrefix (key ++ "="%char :: value) (str "#"))
             eqn:E; [exfalso|reflexivity].
    apply HasPrefix_app_cons in E as [E|E].
    - apply HasPrefix_spec in E as [t ->]. apply Hhash. now left.
    - cbn in E. destruct E as [E|[]]. discriminate. }
  assert (Hnonempty : strings.eqb (key ++ "="%char :: value) [] = false)
    by (destruct key; reflexivity).
  unfold parseLine. rewrite Hkv, Hnonempty, Hnotcomment, Hnotexport.
  cbv zeta. change (str "=") with ["="%char].
  rewrite (Index_cons_absent key value "=" Heq).
  replace (len key =? -1) with false
    by (symmetry; apply Z.eqb_neq; unfold len; lia).
  rewrite firstn_len_app, Hktrim, Hkey, skipn_len_app.
  replace (strings.eqb key []) with false
    by (symmetry; apply strings_eqb_neq, isValidKey_nonempty, Hkey).
  cbn [orb negb]. now destruct (parseValue value lines i).
Qed.

(** An opening quote that is never closed takes the rest of the file: when
    the first line is [key=] followed by a quote, and neither it nor any
    line after it holds that quote again (or a backslash), Parse returns one
    entry, whose value is everything after the quote, the following lines
    included with their newlines, and whose line number is that of the last
    line.  It reports no error. *)
Theorem unclosed_quote_takes_the_rest :
  forall (key first : gostring) (quote : ascii) (rest : list gostring),
    isValidKey key = true ->
    strings.TrimSpace key = key ->
    quote = dquote \/ quote = squote ->
    strings.TrimSpace (quote :: first) = quote :: first ->
    Forall (openLine quote) (first :: rest) ->
    parseEntries (joinLines ((key ++ str "=" ++ quote :: first) :: rest)) =
    [{| Type_ := KeyValueEntry; Key := key;
        Value := joinLines (first :: rest); Comment := [];
        Line := len rest + 1; Exported := false;
        IsSecret := isSecretKey key |}].
Proof.
  intros key first quote rest Hkey Hktrim Hquote Htrim Hopen.
  assert (Hnl : ~ In newline key)
    by (apply isValidKey_not_In; [assumption|vm_compute; reflexivity]).
  assert (Hqnl : quote <> newline) by (destruct Hquote; subst; discriminate).
  unfold parseEntries. change (str "=" ++ quote :: first)
    with ("="%char :: quote :: first).
  rewrite Split_joinLines.
  2:{ inversion Hopen as [|? ? (_ & _ & Hf) Hrest]; subst. constructor.
      - intros Hin. apply in_app_or in Hin as [Hin|[Hin|[Hin|Hin]]]; auto.
        discriminate.
      - revert Hrest. apply Forall_impl. intros l H. apply H. }
  set (lines := (key ++ "="%char :: quote :: first) :: rest).
  change (parseLoop (S (length rest)) lines 0
                    ((key ++ "="%char :: quote :: first) :: rest) =
          [{| Type_ := KeyValueEntry; Key := key;
              Value := joinLines (first :: rest); Comment := [];
              Line := len rest + 1; Exported := false;
              IsSecret := isSecretKey key |}]).
  cbn [parseLoop].
  assert (Hvalue : parseValue (quote :: first) lines 0 =
                   (joinLines (first :: rest), length rest)).
  { unfold parseValue. rewrite Htrim.
    replace (Ascii.eqb quote dquote || Ascii.eqb quote squote) with true
      by (destruct Hquote; subst; reflexivity).
    unfold parseQuotedValue. cbn [skipn Nat.add lines].
    now rewrite (quotedLines_open quote rest first [] 0 Hopen). }
  rewrite (parseLine_key_value lines 0 key (quote :: first) Hkey Hktrim
             (TrimSpace_fixed _ Htrim)).
  rewrite Hvalue. cbn [fst snd]. rewrite skipn_all, parseLoop_nil.
  unfold len. do 2 f_equal.
Qed.

Lemma unclosed_quote_takes_the_rest_witness :
  parseEntries (str "B=" ++ [dquote] ++ str "two" ++ [newline] ++
                str "C=3" ++ [newline] ++ str "# end") =
  [{| Type_ := KeyValueEntry; Key := str "B";
      Value := str "two" ++ [newline] ++ str "C=3" ++ [newline] ++ str "# end";
      Comment := []; Line := 3; Exported := false; IsSecret := false |}].
Proof.
  apply (unclosed_quote_takes_the_rest (str "B") (str "two") dquote
           [str "C=3"; str "# end"]).
  - vm_compute. reflexivity.
  - vm_compute. reflexivity.
  - left. reflexivity.
  - vm_compute. reflexivity.
  - apply Forall_cons; [|apply Forall_cons; [|apply Forall_cons;
      [|apply Forall_nil]]].
    all: repeat split; intros H; vm_compute in H;
      repeat destruct H as [H|H]; try discriminate H; exact H.
Defined.

(** *** Looking up a key in a parsed document *)

Lemma StronglySorted_after {A : Type} (R : A -> A -> Prop)
      (a b : list A) (x : A) :
  StronglySorted R (a ++ x :: b) -> Forall (R x) b.
Proof.
  induction a as [|y a IH]; cbn [app]; intros H;
    apply StronglySorted_inv in H as [H Hall]; [exact Hall|auto].
Qed.

(** In a document that Parse built, GetEntry returns the assignment of the
    key that comes first in the file: a key-value entry with the key, whose
    line number is the least among the entries with that key.  When it
    returns nothing, the document has no key-value entry with the key. *)
Theorem lookup_finds_first_in_file :
  forall (input : gostring) (st : Store) (key : gostring),
    let D := fst (fst (Parse input st)) in
    let h := cells (snd (Parse input st)) in
    match GetEntry h D key with
    | Some p =>
      In p (Entries D) /\ Type_ (h p) = KeyValueEntry /\ Key (h p) = key /\
      forall q, In q (Entries D) -> Type_ (h q) = KeyValueEntry ->
                Key (h q) = key -> Line (h p) <= Line (h q)
    | None =>
      forall q, In q (Entries D) ->
                ~ (Type_ (h q) = KeyValueEntry /\ Key (h q) = key)
    end.
Proof.
  intros input st key D h.
  pose proof (Parse_entries input st) as HD. fold D h in HD.
  assert (Hsorted : StronglySorted (fun a b => Line a < Line b)
                                   (map h (Entries D))).
  { rewrite HD. unfold parseEntries.
    apply (parseLoop_lines _ _ 0%nat _ eq_refl). }
  unfold GetEntry.
  pose proof (first_match h (Entries D) key []) as H.
  destruct (GetEntry_loop h (Entries D) key) as [p|] eqn:Hget.
  - destruct H as [_ (pre & post & Hes & Hpre & _)].
    apply GetEntry_loop_matches in Hget as [Hin Hp].
    apply matches_spec in Hp as [Hty Hk].
    split; [exact Hin|]. split; [exact Hty|]. split; [exact Hk|].
    intros q Hq Hqty Hqk. rewrite Hes in Hq, Hsorted.
    rewrite map_app in Hsorted. cbn [map] in Hsorted.
    apply StronglySorted_after in Hsorted. rewrite Forall_forall in Hsorted.
    apply in_app_or in Hq as [Hq|[<-|Hq]].
    + rewrite GetEntry_loop_None in Hpre. specialize (Hpre q Hq).
      assert (matches h key q = true) by (apply matches_spec; auto).
      congruence.
    + lia.
    + assert (Line (h p) < Line (h q)); [|lia].
      apply Hsorted. now apply in_map.
  - intros q Hq Hm. apply matches_spec in Hm.
    apply GetEntry_loop_None with (q := q) in Hget; [congruence|exact Hq].
Qed.

(** *** Secret keys *)

Lemma rangeFrom_runes (steps : nat) (s : gostring) :
  forall i j,
    map snd (utf8.rangeFrom steps i s) = map snd (utf8.rangeFrom steps j s).
Proof.
  revert s. induction steps as [|steps IH]; intros s i j; [reflexivity|].
  destruct s as [|c s]; [reflexivity|]. cbn [utf8.rangeFrom].
  destruct (utf8.DecodeRuneInString (c :: s)) as [ch size]. cbn [map snd].
  f_equal. apply IH.
Qed.

Lemma Map_runes (mapping : Z -> Z) (s : gostring) :
  strings.Map mapping s =
  flat_map (fun c => let r := mapping c in
                     if 0 <=? r then utf8.EncodeRune r else [])
           (map snd (utf8.range s)).
Proof.
  unfold strings.Map. induction (utf8.range s) as [|[i c] l IH];
    [reflexivity|]. cbn [flat_map map snd]. now rewrite IH.
Qed.

(** A byte below [RuneSelf] is a rune of its own, whatever follows. *)
Lemma Map_cons_ascii (mapping : Z -> Z) (c : ascii) (s : gostring) :
  utf8.byteZ c < utf8.RuneSelf ->
  strings.Map mapping (c :: s) =
  strings.Map mapping [c] ++ strings.Map mapping s.
Proof.
  intros Hc. rewrite !Map_runes. unfold utf8.range.
  cbn [length utf8.rangeFrom]. unfold utf8.DecodeRuneInString.
  apply Z.ltb_lt in Hc. rewrite Hc. cbn [map snd flat_map skipn].
  rewrite app_nil_r. f_equal. f_equal.
  destruct s; [reflexivity|]. apply rangeFrom_runes.
Qed.

Lemma Map_app_ascii (mapping : Z -> Z) (a b : gostring) :
  asciiOnly a ->
  strings.Map mapping (a ++ b) = strings.Map mapping a ++ strings.Map mapping b.
Proof.
  induction 1 as [|c a Hc Ha IH]; [reflexivity|]. cbn [app].
  rewrite (Map_cons_ascii _ c (a ++ b) Hc), (Map_cons_ascii _ c a Hc), IH.
  now rewrite app_assoc.
Qed.

Lemma Index_found (a w b : gostring) : 0 <= strings.Index (a ++ w ++ b) w.
Proof.
  induction a as [|c a IH].
  - cbn [app]. destruct (w ++ b) eqn:E; cbn [strings.Index];
      rewrite <- E, HasPrefix_app; lia.
  - cbn [app strings.Index].
    destruct (strings.HasPrefix (c :: a ++ w ++ b) w); [lia|].
    destruct (Z.eqb_spec (strings.Index (a ++ w ++ b) w) (-1)); lia.
Qed.

(** A key is taken for a secret as soon as one of the nine words occurs in
    it, in whatever letter case: [monkey] is one, and so is every key with
    [api_key] in it, for the [KEY] inside.  (Stated for a word in ASCII
    after ASCII text; what follows the word is free.) *)
Theorem secret_word_anywhere :
  forall a w b : gostring,
    asciiOnly a -> asciiOnly w ->
    In (strings.ToUpper w) secretKeywords ->
    isSecretKey (a ++ w ++ b) = true.
Proof.
  intros a w b Ha Hw Hin. unfold isSecretKey. cbv zeta.
  apply existsb_exists. exists (strings.ToUpper w). split; [exact Hin|].
  unfold strings.Contains, strings.ToUpper.
  rewrite (Map_app_ascii _ a (w ++ b) Ha), (Map_app_ascii _ w b Hw).
  apply Z.leb_le, Index_found.
Qed.

Lemma secret_word_anywhere_witness :
  isSecretKey (str "db_" ++ str "Password" ++ str "_1") = true /\
  isSecretKey (str "" ++ str "key" ++ str "board") = true.
Proof.
  split.
  - apply (secret_word_anywhere (str "db_") (str "Password") (str "_1")).
    + repeat constructor.
    + repeat constructor.
    + vm_compute. auto 10.
  - apply (secret_word_anywhere (str "") (str "key") (str "board")).
    + constructor.
    + repeat constructor.
    + vm_compute. auto 10.
Defined.

End ParserMore.

(** ** More on storage *)

Section StorageMore.
Import model storage storageSpec parserSpec.

Lemma path_neq_temp (path : gostring) : path <> tempPath path.
Proof.
  intros E. symmetry in E. revert E. apply app_neq_self. discriminate.
Qed.

Lemma path_neq_backup env (path : gostring) : path <> backupPath env path.
Proof.
  intros E. symmetry in E. revert E. apply app_neq_self. discriminate.
Qed.

Lemma path_neq_safety env (path : gostring) :
  path <> safetyBackupPath env path.
Proof.
  intros E. symmetry in E. revert E. apply app_neq_self. discriminate.
Qed.

Lemma temp_neq_backup env (path : gostring) :
  tempPath path <> backupPath env path.
Proof.
  unfold tempPath, backupPath. intros E. apply app_inv_head in E.
  discriminate E.
Qed.

Lemma prefixOf_refl (a : gostring) : prefixOf a a.
Proof. exists []. now rewrite app_nil_r. Qed.

Lemma prefixOf_app (a b : gostring) : prefixOf a (a ++ b).
Proof. now exists b. Qed.

(** What the loop of WriteFile has written when it stops. *)
Lemma writeEntries_spec env h (es : list loc) :
  forall i content,
    prefixOf (fst (writeEntries env h es i content))
             (content ++ flat_map (fun entry => String (h entry) ++
                                                [parser.newline]) es) /\
    (snd (writeEntries env h es i content) = true ->
     fst (writeEntries env h es i content) =
     content ++ flat_map (fun entry => String (h entry) ++ [parser.newline])
                         es).
Proof.
  induction es as [|e es IH]; intros i content; cbn [writeEntries flat_map].
  - cbn [fst snd]. rewrite app_nil_r. split; [apply prefixOf_refl|reflexivity].
  - pose proof (IH (S i) (content ++ String (h e) ++ [parser.newline]))
      as Hgo.
    rewrite <- (app_assoc content) in Hgo.
    destruct (write_fails env) as [[j n]|]; [|exact Hgo].
    destruct (Nat.eqb i j); [|exact Hgo].
    cbn [fst snd]. split; [|discriminate].
    exists (skipn n (String (h e) ++ [parser.newline]) ++
            flat_map (fun entry => String (h entry) ++ [parser.newline]) es).
    rewrite <- (app_assoc content), (app_assoc (firstn n _)).
    now rewrite firstn_skipn.
Qed.

Lemma createBackup_result env fs path :
  (snd (createBackup env fs path) = None ->
   forall p, fst (createBackup env fs path) p =
             match fs path with
             | Some old => if strings.eqb p (backupPath env path)
                           then Some old else fs p
             | None => fs p
             end) /\
  (forall p, p <> backupPath env path ->
             fst (createBackup env fs path) p = fs p).
Proof.
  unfold createBackup, CreateBackup, copyFile. fold (backupPath env path).
  destruct (fs path) as [old|] eqn:Hold.
  - destruct (open_fails env); cbn [fst snd]; [split; [discriminate|auto]|].
    destruct (create_backup_fails env); cbn [fst snd];
      [split; [discriminate|auto]|].
    destruct (copy_fails env); cbn [fst snd]; split;
      try discriminate; try reflexivity;
      intros p Hp; now apply put_other.
  - destruct (stat_fails env); cbn [negb fst snd]; [|split; reflexivity].
    destruct (open_fails env); rewrite ?Hold; cbn [fst snd];
      split; try discriminate; reflexivity.
Qed.

(** Whatever step of WriteFile fails, the file at the document's path holds
    what it held before the call.  When the failure is in writing an entry
    or in the sync, the temporary [.tmp] file is left behind, holding a
    beginning of the text that was to be written. *)
Theorem write_failure_keeps_the_file :
  forall (env : Env) (h : Heap) (fs : FS) (ef : EnvFile) (e : error),
    snd (WriteFile env h fs ef) = Some e ->
    let fs' := fst (WriteFile env h fs ef) in
    fs' (Path ef) = fs (Path ef) /\
    (e = failed_to_write_entry \/ e = failed_to_sync_temp_file ->
     exists partial,
       fs' (tempPath (Path ef)) = Some partial /\
       prefixOf partial (serialize h ef)).
Proof.
  intros env h fs ef e Herr fs'. unfold fs' in *. clear fs'.
  unfold WriteFile in *. fold (tempPath (Path ef)) in *.
  pose proof (createBackup_keeps_file env fs (Path ef)) as Hkeep.
  pose proof (path_neq_temp (Path ef)) as Hne.
  destruct (createBackup env fs (Path ef)) as [fs1 [[]|]]; cbn [fst] in Hkeep.
  { cbn [fst snd] in *. injection Herr as <-. split; [exact Hkeep|].
    intros [H|H]; discriminate H. }
  destruct (create_temp_fails env).
  { cbn [fst snd] in *. injection Herr as <-. split; [exact Hkeep|].
    intros [H|H]; discriminate H. }
  destruct (writeEntries_spec env h (Entries ef) 0 []) as [Hpre Hfull].
  cbn [app] in Hpre, Hfull. fold (serialize h ef) in Hpre, Hfull.
  destruct (writeEntries env h (Entries ef) 0 []) as [content [|]];
    cbn [fst snd] in *.
  - destruct (sync_fails env).
    + cbn [fst snd] in *. split.
      * rewrite !put_other by exact Hne. exact Hkeep.
      * intros _. exists content. split; [apply put_same|exact Hpre].
    + destruct (rename_fails env); cbn [fst snd] in *; [|discriminate].
      injection Herr as <-. split.
      * rewrite remove_other, !put_other by exact Hne. exact Hkeep.
      * intros [H|H]; discriminate H.
  - split.
    + rewrite !put_other by exact Hne. exact Hkeep.
    + intros _. exists content. split; [apply put_same|exact Hpre].
Qed.

Lemma write_failure_keeps_the_file_witness :
  let fs' := fst (WriteFile write_fault modelSpec.sample_heap sample_fs
                            modelSpec.sample_file) in
  snd (WriteFile write_fault modelSpec.sample_heap sample_fs
                 modelSpec.sample_file) = Some failed_to_write_entry /\
  fs' (str ".env") = Some (str "A=0") /\
  exists partial,
    fs' (str ".env.tmp") = Some partial /\
    prefixOf partial (serialize modelSpec.sample_heap modelSpec.sample_file).
Proof.
  cbv zeta.
  assert (Herr : snd (WriteFile write_fault modelSpec.sample_heap sample_fs
                                modelSpec.sample_file)
                 = Some failed_to_write_entry) by (vm_compute; reflexivity).
  destruct (write_failure_keeps_the_file write_fault modelSpec.sample_heap
              sample_fs modelSpec.sample_file failed_to_write_entry Herr)
    as [Hkeep Htmp].
  split; [exact Herr|]. split; [exact Hkeep|]. apply Htmp. now left.
Defined.

(** When WriteFile returns no error, the file at the document's path holds
    the text of the document, a line per entry; the temporary file is gone;
    if there was a file before, the backup beside it holds what the file
    held, and if there was none, no backup is written; and no other path
    has changed. *)
Theorem write_success :
  forall (env : Env) (h : Heap) (fs : FS) (ef : EnvFile),
    snd (WriteFile env h fs ef) = None ->
    let fs' := fst (WriteFile env h fs ef) in
    fs' (Path ef) = Some (serialize h ef) /\
    fs' (tempPath (Path ef)) = None /\
    (forall old, fs (Path ef) = Some old ->
                 fs' (backupPath env (Path ef)) = Some old) /\
    (fs (Path ef) = None ->
     fs' (backupPath env (Path ef)) = fs (backupPath env (Path ef))) /\
    (forall p, p <> Path ef -> p <> tempPath (Path ef) ->
               p <> backupPath env (Path ef) -> fs' p = fs p).
Proof.
  intros env h fs ef Herr fs'. unfold fs' in *. clear fs'.
  unfold WriteFile in *. fold (tempPath (Path ef)) in *.
  destruct (createBackup_result env fs (Path ef)) as [Hb Hother].
  pose proof (path_neq_temp (Path ef)) as Hne.
  pose proof (path_neq_backup env (Path ef)) as Hnb.
  pose proof (temp_neq_backup env (Path ef)) as Htb.
  destruct (createBackup env fs (Path ef)) as [fs1 [[]|]];
    cbn [fst snd] in *; [discriminate|]. specialize (Hb eq_refl).
  destruct (create_temp_fails env); [discriminate|].
  destruct (writeEntries_spec env h (Entries ef) 0 []) as [_ Hfull].
  cbn [app] in Hfull. fold (serialize h ef) in Hfull.
  destruct (writeEntries env h (Entries ef) 0 []) as [content [|]];
    cbn [fst snd] in *; [|discriminate].
  destruct (sync_fails env); [discriminate|].
  destruct (rename_fails env); [discriminate|]. cbn [fst snd] in *.
  rewrite (Hfull eq_refl). repeat split.
  - apply put_same.
  - rewrite put_other by (intros E; apply Hne; now symmetry).
    apply remove_same.
  - intros old Hold. rewrite put_other, remove_other, !put_other;
      try (intros E; apply Htb; now symmetry);
      try (intros E; apply Hnb; now symmetry).
    rewrite Hb, Hold. now rewrite strings_eqb_refl.
  - intros Hnone. rewrite put_other, remove_other, !put_other;
      try (intros E; apply Htb; now symmetry);
      try (intros E; apply Hnb; now symmetry).
    rewrite Hb, Hnone. reflexivity.
  - intros p Hp Ht Hbk. rewrite put_other, remove_other, !put_other;
      try assumption. now apply Hother.
Qed.

Lemma write_success_witness :
  let fs' := fst (WriteFile no_fault modelSpec.sample_heap sample_fs
                            modelSpec.sample_file) in
  fs' (str ".env") =
  Some (serialize modelSpec.sample_heap modelSpec.sample_file) /\
  fs' (str ".env.tmp") = None /\
  fs' (str ".env.backup.20260203-003318") = Some (str "A=0").
Proof.
  cbv zeta.
  destruct (write_success no_fault modelSpec.sample_heap sample_fs
              modelSpec.sample_file) as (Hfile & Htmp & Hbackup & _ & _).
  - vm_compute. reflexivity.
  - split; [exact Hfile|]. split; [exact Htmp|]. now apply Hbackup.
Defined.

(** Writing a document and reading the file again gives a document with
    the same path and the same key-value entries, in order, provided the
    entries are of the kind Parse builds (valid keys, no inline comments,
    comments on one line) and the values are plain (no white space at either
    end, no [#], no newline, no quote at the front). *)
Theorem write_then_read :
  forall (env : Env) (h : Heap) (fs : FS) (ef : EnvFile) (st : Store),
    Forall parsedEntry (map h (Entries ef)) ->
    Forall (fun e => Type_ e = KeyValueEntry -> plainValue (Value e))
           (map h (Entries ef)) ->
    snd (WriteFile env h fs ef) = None ->
    exists D st',
      ReadFile false (fst (WriteFile env h fs ef)) (Path ef) st =
      ((Some D, None), st') /\
      Path D = Path ef /\
      kvTuples (cells st') D = kvTuples h ef.
Proof.
  intros env h fs ef st Hp Hv Herr.
  assert (Hfile : fst (WriteFile env h fs ef) (Path ef)
                  = Some (serialize h ef)).
  { unfold WriteFile in *.
    destruct (createBackup env fs (Path ef)) as [fs1 [[]|]];
      cbn [fst snd] in *; [discriminate|].
    destruct (create_temp_fails env); [discriminate|].
    destruct (writeEntries_spec env h (Entries ef) 0 []) as [_ Hfull].
    cbn [app] in Hfull. fold (serialize h ef) in Hfull.
    destruct (writeEntries env h (Entries ef) 0 []) as [content [|]];
      cbn [fst snd] in *; [|discriminate].
    destruct (sync_fails env); [discriminate|].
    destruct (rename_fails env); [discriminate|]. cbn [fst].
    rewrite (Hfull eq_refl). apply put_same. }
  unfold ReadFile. rewrite Hfile.
  pose proof (Parse_entries (serialize h ef) st) as HD.
  unfold parser.Parse in *.
  destruct (parser.allocate (parser.parseEntries (serialize h ef)) st)
    as [ptrs st']. cbn [fst snd Entries] in HD.
  eexists. exists st'. split; [reflexivity|]. split; [reflexivity|].
  unfold kvTuples. cbn [Entries]. rewrite HD, serialize_textOf.
  now apply parseEntries_textOf.
Qed.

Lemma write_then_read_witness :
  exists D st',
    ReadFile false
             (fst (WriteFile no_fault modelSpec.sample_heap sample_fs
                             modelSpec.sample_file))
             (str ".env") modelSpec.sample_store = ((Some D, None), st') /\
    Path D = str ".env" /\
    kvTuples (cells st') D =
    [(str "A", str "1", false); (str "A", str "2", true)].
Proof.
  refine (write_then_read no_fault modelSpec.sample_heap sample_fs
            modelSpec.sample_file modelSpec.sample_store _ _ _).
  - change (map modelSpec.sample_heap (Entries modelSpec.sample_file))
      with (map modelSpec.sample_heap [0; 1; 2; 3]%nat).
    cbn [map].
    apply Forall_cons; [|apply Forall_cons; [|apply Forall_cons;
      [|apply Forall_cons; [|apply Forall_nil]]]].
    all: vm_compute.
    all: try exact I.
    all: repeat split; try reflexivity;
      intros H; repeat destruct H as [H|H]; try discriminate H; exact H.
  - change (map modelSpec.sample_heap (Entries modelSpec.sample_file))
      with (map modelSpec.sample_heap [0; 1; 2; 3]%nat).
    cbn [map].
    apply Forall_cons; [|apply Forall_cons; [|apply Forall_cons;
      [|apply Forall_cons; [|apply Forall_nil]]]].
    all: vm_compute.
    all: try (intros H; discriminate H).
    all: intros _; repeat split;
      intros H; repeat destruct H as [H|H]; try discriminate H; exact H.
  - vm_compute. reflexivity.
Defined.

(** *** Restoring a backup *)

(** RestoreBackup does not lose what the original held: whatever fails,
    after the call either the original holds what it held, or the safety
    backup beside it does (provided [os.Stat] sees the original). *)
Theorem restore_keeps_previous_content :
  forall (env : Env) (faults : RestoreFaults) (fs : FS)
         (backup original old : gostring),
    fs original = Some old ->
    stat_original_fails faults = false ->
    let fs' := fst (RestoreBackup env faults fs backup original) in
    fs' original = Some old \/
    fs' (safetyBackupPath env original) = Some old.
Proof.
  intros env faults fs backup original old Hold Hstat fs'. unfold fs'.
  clear fs'. unfold RestoreBackup. fold (safetyBackupPath env original).
  pose proof (path_neq_safety env original) as Hne.
  destruct (if open_backup_fails faults then None else fs backup);
    [|now left].
  rewrite Hold, Hstat. cbn [negb]. unfold copyFile.
  destruct (open_fails env); [now left|]. rewrite Hold.
  destruct (create_backup_fails env); [now left|].
  destruct (copy_fails env) as [n|].
  - left. cbn [fst]. now rewrite put_other.
  - destruct (create_target_fails faults).
    + left. cbn [fst]. now rewrite put_other.
    + right. destruct (copy_backup_fails faults); cbn [fst];
        rewrite !put_other by (intros E; apply Hne; now symmetry);
        apply put_same.
Qed.

Lemma restore_keeps_previous_content_witness :
  let fs' := fst (RestoreBackup no_fault copy_fault backup_fs
                                (str ".env.backup.20260101-120000")
                                (str ".env")) in
  fs' (str ".env") = Some (str "A=0") \/
  fs' (str ".env.backup.pre-restore.20260203-003318") = Some (str "A=0").
Proof.
  exact (restore_keeps_previous_content no_fault copy_fault backup_fs
           (str ".env.backup.20260101-120000") (str ".env") (str "A=0")
           eq_refl eq_refl).
Defined.

(** When RestoreBackup returns no error, the original holds what the backup
    held and the backup still holds it, provided the backup is neither the
    original itself nor the path of the safety backup.  Restoring a file
    onto itself leaves it empty. *)
Theorem restore_success :
  forall (env : Env) (faults : RestoreFaults) (fs : FS)
         (backup original content : gostring),
    fs backup = Some content ->
    snd (RestoreBackup env faults fs backup original) = None ->
    let fs' := fst (RestoreBackup env faults fs backup original) in
    (backup <> original -> backup <> safetyBackupPath env original ->
     fs' original = Some content /\ fs' backup = Some content) /\
    (backup = original -> fs' original = Some []).
Proof.
  intros env faults fs backup original content Hcontent Herr fs'.
  unfold fs' in *. clear fs'. unfold RestoreBackup in *.
  fold (safetyBackupPath env original) in *.
  destruct (open_backup_fails faults); [discriminate|]. rewrite Hcontent in *.
  set (statOk := match fs original with
                 | Some _ => negb (stat_original_fails faults)
                 | None => false
                 end) in *.
  assert (Hsafe : forall p, p <> safetyBackupPath env original ->
                  fst (if statOk
                       then copyFile env fs original
                                     (safetyBackupPath env original)
                       else (fs, None)) p = fs p).
  { intros p Hp. destruct statOk; [|reflexivity]. unfold copyFile.
    destruct (if open_fails env then None else fs original); [|reflexivity].
    destruct (create_backup_fails env); [reflexivity|].
    destruct (copy_fails env); cbn [fst]; now apply put_other. }
  destruct (if statOk
            then copyFile env fs original (safetyBackupPath env original)
            else (fs, None)) as [fs1 [[]|]]; cbn [fst snd] in *;
    [discriminate|].
  destruct (create_target_fails faults); [discriminate|].
  destruct (copy_backup_fails faults); cbn [fst snd] in *; [discriminate|].
  split.
  - intros Hbo Hbs. rewrite put_same, !put_other by exact Hbo.
    rewrite (Hsafe backup Hbs), Hcontent. auto.
  - intros ->. now rewrite !put_same.
Qed.

Lemma restore_success_witness :
  let fs' := fst (RestoreBackup no_fault no_restore_fault backup_fs
                                (str ".env.backup.20260101-120000")
                                (str ".env")) in
  fs' (str ".env") = Some (str "A=old") /\
  fs' (str ".env.backup.20260101-120000") = Some (str "A=old").
Proof.
  cbv zeta.
  destruct (restore_success no_fault no_restore_fault backup_fs
              (str ".env.backup.20260101-120000") (str ".env") (str "A=old")
              eq_refl eq_refl) as [H _].
  apply H; intros E; vm_compute in E; discriminate E.
Defined.

(** *** Edits, as the file shows them *)

(** An update or a delete of a key changes one line of the text that
    WriteFile writes: with the entry that GetEntry finds for the key at its
    place in the list, the text after an update has the new value in the
    line of that entry and every other line as before (provided the list
    does not hold the same entry a second time), and the text after a delete
    is the text without that line. *)
Theorem edits_change_one_line :
  forall (h : Heap) (ef : EnvFile) (key value : gostring) (p : loc),
    GetEntry h ef key = Some p ->
    exists pre post,
      Entries ef = pre ++ p :: post /\
      serialize h ef =
      textOf (map h pre) ++ (String (h p) ++ [parser.newline]) ++
      textOf (map h post) /\
      (~ In p post ->
       serialize (fst (UpdateEntry h ef key value)) ef =
       textOf (map h pre) ++
       (String (with_Value (h p) value) ++ [parser.newline]) ++
       textOf (map h post)) /\
      serialize h (fst (DeleteEntry h ef key)) =
      textOf (map h pre) ++ textOf (map h post).
Proof.
  intros h ef key value p Hget. unfold GetEntry in Hget.
  pose proof (first_match h (Entries ef) key []) as H. rewrite Hget in H.
  destruct H as [Hu (pre & post & Hes & Hpre & Hd)]. cbn [app length] in Hd.
  exists pre, post. split; [exact Hes|].
  assert (Htext : forall (h' : Heap) (l : list loc), flat_map (fun entry => String (h' entry) ++
                                                      [parser.newline]) l
                               = textOf (map h' l)).
  { intros h' l. unfold textOf. induction l as [|x l IH]; [reflexivity|].
    cbn [map flat_map]. now rewrite IH. }
  split; [|split].
  - unfold serialize. rewrite Hes, flat_map_app. cbn [flat_map].
    now rewrite !Htext.
  - intros Hpost. unfold UpdateEntry. rewrite Hu. cbn [fst].
    unfold serialize. rewrite Hes, flat_map_app. cbn [flat_map].
    rewrite write_same, !Htext.
    assert (Hsame : forall l, ~ In p l ->
                    map (write h p (with_Value (h p) value)) l = map h l).
    { intros l Hl. apply map_ext_in. intros q Hq. apply write_other.
      intros ->. contradiction. }
    rewrite (Hsame post Hpost), (Hsame pre); [reflexivity|].
    intros Hin. apply GetEntry_loop_matches in Hget as [_ Hp].
    rewrite GetEntry_loop_None in Hpre. rewrite (Hpre p Hin) in Hp.
    discriminate.
  - unfold DeleteEntry. rewrite Hd. cbn [fst]. unfold serialize.
    cbn [with_Entries Entries]. rewrite flat_map_app. now rewrite !Htext.
Qed.

Lemma edits_change_one_line_witness :
  exists pre post,
    Entries modelSpec.sample_file = pre ++ 1%nat :: post /\
    serialize modelSpec.sample_heap modelSpec.sample_file =
    textOf (map modelSpec.sample_heap pre) ++
    (String (modelSpec.sample_heap 1%nat) ++ [parser.newline]) ++
    textOf (map modelSpec.sample_heap post) /\
    (~ In 1%nat post ->
     serialize (fst (UpdateEntry modelSpec.sample_heap modelSpec.sample_file
                                 (str "A") (str "9")))
               modelSpec.sample_file =
     textOf (map modelSpec.sample_heap pre) ++
     (String (with_Value (modelSpec.sample_heap 1%nat) (str "9")) ++
      [parser.newline]) ++
     textOf (map modelSpec.sample_heap post)) /\
    serialize modelSpec.sample_heap
              (fst (DeleteEntry modelSpec.sample_heap modelSpec.sample_file
                                (str "A"))) =
    textOf (map modelSpec.sample_heap pre) ++
    textOf (map modelSpec.sample_heap post).
Proof.
  exact (edits_change_one_line modelSpec.sample_heap modelSpec.sample_file
           (str "A") (str "9") 1%nat eq_refl).
Defined.

End StorageMore.
